(** * Intan_EMG_Python: ring buffer, decision smoother, windowing, features

    A shallow embedding of [utilities/messaging_utilities.py] and
    [utilities/emg_processing.py], and the properties the specification
    states about them.

    Conventions of the embedding:
    - Python integers are [Z]; [%] is [Z.modulo] (both take the sign of the
      divisor) and a zero divisor raises [ZeroDivisionError];
    - a one-dimensional numpy array is a [list]; a two-dimensional one is an
      [ndarray2]: its rows together with the second component of its shape;
    - a raised exception is the [Raise] constructor of [result];
    - array elements of the ring buffer are an arbitrary type [F] with a
      zero (the code stores [float32]); the numeric stages are stated over
      the real numbers, so rounding, overflow and IEEE special values of the
      inputs are outside the model. *)

From Stdlib Require Import ZArith Lia String Reals Lra.
From stdpp Require Import base list gmap strings.

Open Scope Z_scope.

(** ** Exceptions *)

Inductive exn : Set :=
  | ValueError
  | IndexError
  | ZeroDivisionError
  | StatisticsError
  | UnboundLocalError
  | Unallocated.  (* not a Python exception: a reference to no array,
                     which the interpreter rules out *)

Inductive result (A : Type) : Type :=
  | Ok (a : A)
  | Raise (e : exn).
Arguments Ok {A} a.
Arguments Raise {A} e.

#[global] Instance result_ret : MRet result := fun _ a => Ok a.
#[global] Instance result_bind : MBind result := fun _ _ k r =>
  match r with
  | Ok a => k a
  | Raise e => Raise e
  end.

(** ** Python integers, indexing and slicing *)

Module Py.

(** [a % b] *)
Definition mod_ (a b : Z) : result Z :=
  if b =? 0 then Raise ZeroDivisionError else Ok (a mod b).

(** The position designated by index [i] in a sequence of length [len]:
    negative indices count from the end, anything outside
    [-len .. len-1] raises [IndexError]. *)
Definition index (len : nat) (i : Z) : result nat :=
  if (i <? - Z.of_nat len) || (Z.of_nat len <=? i) then Raise IndexError
  else if i <? 0 then Ok (Z.to_nat (i + Z.of_nat len))
  else Ok (Z.to_nat i).

(** A slice bound: negative bounds count from the end, and every bound is
    clipped to [0 .. len]. *)
Definition bound (len : nat) (i : Z) : nat :=
  if i <? 0 then Z.to_nat (Z.max 0 (i + Z.of_nat len))
  else Z.to_nat (Z.min i (Z.of_nat len)).

(** [l[lo:hi]]; [None] is an omitted bound. *)
Definition slice {A} (l : list A) (lo hi : option Z) : list A :=
  let a := match lo with Some i => bound (length l) i | None => 0%nat end in
  let b := match hi with Some i => bound (length l) i | None => length l end in
  take (b - a) (drop a l).

(** [range(start, stop, step)]: its length is computed first, as CPython
    does, and item [i] is [start + i * step]. *)
Definition range_len (start stop step : Z) : nat :=
  if 0 <? step then
    (if start <? stop then Z.to_nat ((stop - start - 1) / step + 1) else 0%nat)
  else
    (if stop <? start then Z.to_nat ((start - stop - 1) / (- step) + 1) else 0%nat).

Definition range (start stop step : Z) : result (list Z) :=
  if step =? 0 then Raise ValueError
  else Ok (map (fun i => start + Z.of_nat i * step)
               (seq 0 (range_len start stop step))).

End Py.

(** ** Two-dimensional arrays *)

Record ndarray2 (F : Type) : Type := mk_ndarray2 {
  rows : list (list F);
  ncols : nat
}.
Arguments mk_ndarray2 {F} rows ncols.
Arguments rows {F} _.
Arguments ncols {F} _.

(** [a.shape] *)
Definition shape {F} (a : ndarray2 F) : nat * nat := (length (rows a), ncols a).

(** Every row has the length the shape announces. *)
Definition rectangular {F} (a : ndarray2 F) : Prop :=
  Forall (fun r => length r = ncols a) (rows a).

(** [np.zeros((n, m))] and [np.zeros(n)] *)
Definition zeros2 {F} (f0 : F) (n m : nat) : ndarray2 F :=
  mk_ndarray2 (replicate n (replicate m f0)) m.

(** Assignment of a one-dimensional value [x] to a row of [m] elements:
    numpy broadcasts a value of one element, takes a value of [m] elements
    as it is and refuses any other shape. *)
Definition broadcast_row {F} (m : nat) (x : list F) : result (list F) :=
  if decide (length x = m) then Ok x
  else match x with
       | [v] => Ok (replicate m v)
       | _ => Raise ValueError
       end.

(** The last [n] items of a list, and a backing array read from position
    [c] round to position [c] again. *)
Definition last_n {A} (n : nat) (l : list A) : list A := drop (length l - n) l.
Definition unroll {A} (c : nat) (l : list A) : list A := drop c l ++ take c l.

(** The two branches of [get_samples] on one backing array [l], for a
    capacity [C], a requested range that ends at [c] and [n] items. *)
Definition read_back {A} (l : list A) (C c n : Z) : list A :=
  let start_idx := (c - n) mod C in
  if start_idx <? c then Py.slice l (Some start_idx) (Some c)
  else Py.slice l (Some start_idx) None ++ Py.slice l None (Some c).

(** ** RingBuffer (messaging_utilities.py) *)

Module RingBuffer.
Section RingBuffer.

Context {F : Type} (f0 : F).

Record t : Type := mk {
max : Z;
samples : ndarray2 F;
timestamp : list F;
cur : Z;
size : Z
}.

(** [__init__(num_channels, size_max)] *)
Definition init (num_channels size_max : Z) : result t :=
if (size_max <? 0) || (num_channels <? 0) then Raise ValueError
else Ok {| max := size_max;
           samples := zeros2 f0 (Z.to_nat size_max) (Z.to_nat num_channels);
           timestamp := replicate (Z.to_nat size_max) f0;
           cur := 0;
           size := 0 |}.

(** [append(t, x)] *)
Definition append (b : t) (ts : F) (x : list F) : result t :=
i ← Py.index (length (rows (samples b))) (cur b);
row ← broadcast_row (ncols (samples b)) x;
j ← Py.index (length (timestamp b)) (cur b);
c ← Py.mod_ (cur b + 1) (max b);
Ok {| max := max b;
      samples := mk_ndarray2 (<[i := row]> (rows (samples b))) (ncols (samples b));
      timestamp := <[j := ts]> (timestamp b);
      cur := c;
      size := Z.min (size b + 1) (max b) |}.

(** [get_samples(n)] *)
Definition get_samples (b : t) (n : Z) : result (list (list F) * list F) :=
if size b <? n then Raise ValueError
else
  let end_idx := if size b =? max b then cur b else size b in
  start_idx ← Py.mod_ (end_idx - n) (max b);
  if start_idx <? end_idx then
    Ok (Py.slice (rows (samples b)) (Some start_idx) (Some end_idx),
        Py.slice (timestamp b) (Some start_idx) (Some end_idx))
  else
    Ok (Py.slice (rows (samples b)) (Some start_idx) None
          ++ Py.slice (rows (samples b)) None (Some end_idx),
        Py.slice (timestamp b) (Some start_idx) None
          ++ Py.slice (timestamp b) None (Some end_idx)).

(** [is_full()] *)
Definition is_full (b : t) : bool := size b =? max b.

(** A sequence of [append] calls, oldest first; each item is the pair
  [(t, x)] of one call. *)
Fixpoint appends (b : t) (xs : list (F * list F)) : result t :=
match xs with
| [] => Ok b
| (ts, x) :: xs' => b' ← append b ts x; appends b' xs'
end.

(** A fresh buffer followed by the calls [xs]. *)
Definition run (num_channels size_max : Z) (xs : list (F * list F)) : result t :=
b ← init num_channels size_max; appends b xs.

(** Representation invariant of a buffer of capacity [C] and [nch]
  channels after the calls [hist] of [append]: the unrolled backing
  arrays are the last [C] items of the history, preceded by the zeros
  of the initial arrays. *)
Record inv (C nch : nat) (hist : list (F * list F)) (b : t) : Prop := {
inv_max : max b = Z.of_nat C;
inv_ncols : ncols (samples b) = nch;
inv_rows_len : length (rows (samples b)) = C;
inv_ts_len : length (timestamp b) = C;
inv_cur : cur b = Z.of_nat (length hist mod C);
inv_size : size b = Z.of_nat (length hist `min` C);
inv_rows : unroll (length hist mod C) (rows (samples b))
           = last_n C (replicate C (replicate nch f0) ++ map snd hist);
inv_ts : unroll (length hist mod C) (timestamp b)
         = last_n C (replicate C f0 ++ map fst hist)
}.

Definition well_shaped (nch : nat) (xs : list (F * list F)) : Prop :=
Forall (fun p => length (snd p) = nch) xs.

End RingBuffer.
End RingBuffer.

(** ** PicoMessager: the gesture decision smoother (messaging_utilities.py) *)

Module PicoMessager.

(** [collections.deque(maxlen=n).append(x)]: the item is added on the
    right and, when the bound is exceeded, the leftmost item is dropped. *)
Definition deque_append {A} (maxlen : nat) (d : list A) (x : A) : list A :=
  let d' := d ++ [x] in
  if (maxlen <? length d')%nat then tail d' else d'.

(** [collections.Counter(iter(data))]: the distinct items in the order of
    their first occurrence, each with its number of occurrences. *)
Fixpoint counter_add (x : string) (c : list (string * nat)) : list (string * nat) :=
  match c with
  | [] => [(x, 1%nat)]
  | (y, n) :: c' =>
      if decide (x = y) then (y, S n) :: c' else (y, n) :: counter_add x c'
  end.

Definition Counter (data : list string) : list (string * nat) :=
  foldl (fun c x => counter_add x c) [] data.

(** [max(items, key=itemgetter(1))]: the first item of maximal count. *)
Definition max_count (p : string * nat) (ps : list (string * nat)) : string * nat :=
  foldl (fun best q => if (snd best <? snd q)%nat then q else best) p ps.

(** [statistics.mode] of Python 3.8 and later: the first mode met in the
    data; only empty data raises [StatisticsError]. *)
Definition mode_first (data : list string) : result string :=
  match Counter data with
  | [] => Raise StatisticsError
  | p :: ps => Ok (fst (max_count p ps))
  end.

(** [statistics.mode] before Python 3.8: the items of maximal count are
    collected, and anything but exactly one of them raises
    [StatisticsError]. *)
Definition mode_unique (data : list string) : result string :=
  match Counter data with
  | [] => Raise StatisticsError
  | p :: ps =>
      let maxfreq := snd (max_count p ps) in
      match filter (fun q => snd q = maxfreq) (p :: ps) with
      | [q] => Ok (fst q)
      | _ => Raise StatisticsError
      end
  end.

(** The fields of the object that [update_gesture] reads and writes; the
    serial connection only matters to [send_message]. *)
Record t : Type := mk {
  maxlen : nat;
  buffer : list string;
  current_gesture : option string
}.

(** [__init__(buffer_size=...)] *)
Definition init (buffer_size : nat) : t :=
  {| maxlen := buffer_size; buffer := []; current_gesture := None |}.

(** Truth value of [most_common_gesture]: [None] and the empty string
    are false. *)
Definition truthy (g : option string) : bool :=
  match g with
  | None => false
  | Some s => negb (String.eqb s EmptyString)
  end.

Section update.

(** The [mode] function the interpreter provides. *)
Variable mode : list string -> result string.

(** [update_gesture(new_gesture)]: the new state and the messages handed
    to [send_message], in order. An exception other than
    [StatisticsError] is not caught. *)
Definition update_gesture (st : t) (new_gesture : string)
  : result (t * list string) :=
  let buffer' := deque_append (maxlen st) (buffer st) new_gesture in
  most_common_gesture ←
    match mode buffer' with
    | Ok g => Ok (Some g)
    | Raise StatisticsError => Ok None
    | Raise e => Raise e
    end;
  if truthy most_common_gesture
     && negb (bool_decide (most_common_gesture = current_gesture st))
  then Ok ({| maxlen := maxlen st; buffer := buffer';
              current_gesture := most_common_gesture |},
           match most_common_gesture with Some g => [g] | None => [] end)
  else Ok ({| maxlen := maxlen st; buffer := buffer';
              current_gesture := current_gesture st |}, []).

(** A sequence of [update_gesture] calls and all the messages sent. *)
Fixpoint observe_all (st : t) (labels : list string)
  : result (t * list string) :=
  match labels with
  | [] => Ok (st, [])
  | g :: labels' =>
      r ← update_gesture st g;
      r' ← observe_all (fst r) labels';
      Ok (fst r', snd r ++ snd r')
  end.

End update.

(** The count a [Counter] holds for a label, 0 for a label it does not
    hold. *)
Fixpoint count_in (c : list (string * nat)) (x : string) : nat :=
  match c with
  | [] => 0%nat
  | (y, n) :: c' => if decide (x = y) then n else count_in c' x
  end.

(** A run of messages in which each differs from the active gesture before
    it, and none is the empty string. *)
Fixpoint changes (prev : option string) (sent : list string) : Prop :=
  match sent with
  | [] => True
  | g :: sent' => Some g <> prev /\ g <> EmptyString /\ changes (Some g) sent'
  end.

End PicoMessager.

(** ** emg_processing.py: windowing *)

Module Windowing.
Section Windowing.

Context {F : Type}.

(** Number of items of [l[lo:hi]] for a sequence of length [len]. *)
Definition slice_len (len : nat) (lo hi : option Z) : nat :=
let a := match lo with Some i => Py.bound len i | None => 0%nat end in
let b := match hi with Some i => Py.bound len i | None => len end in
(b - a)%nat.

(** [data[:, lo:hi]] *)
Definition slice_cols (data : ndarray2 F) (lo hi : option Z) : ndarray2 F :=
mk_ndarray2 (map (fun r => Py.slice r lo hi) (rows data))
            (slice_len (ncols data) lo hi).

(** [data[lo:hi]] *)
Definition slice_rows (data : ndarray2 F) (lo hi : option Z) : ndarray2 F :=
mk_ndarray2 (Py.slice (rows data) lo hi) (ncols data).

(** The values of [start] that the loop of [sliding_window] goes through. *)
Definition window_starts (num_samples : nat) (window_size step_size : Z)
: result (list Z) :=
Py.range 0 (Z.of_nat num_samples - window_size + 1) step_size.

(** [sliding_window(data, window_size, step_size)] *)
Definition sliding_window (data : ndarray2 F) (window_size step_size : Z)
: result (list (ndarray2 F)) :=
let '(num_channels, num_samples) := shape data in
starts ← window_starts num_samples window_size step_size;
Ok (foldl (fun windows start =>
             let window := slice_cols data (Some start) (Some (start + window_size)) in
             windows ++ [window])
          [] starts).

End Windowing.
End Windowing.

(** ** emg_processing.py: numeric stages and features, over the reals *)

Module Emg.

Open Scope R_scope.

(** A numpy floating-point result of a computation on finite inputs: a
    real number, an infinity or not-a-number. *)
Inductive npfloat : Type :=
  | Finite (r : R)
  | PosInf
  | NegInf
  | NaN.

Definition np_add (a b : npfloat) : npfloat :=
  match a, b with
  | NaN, _ | _, NaN => NaN
  | Finite x, Finite y => Finite (x + y)
  | PosInf, NegInf | NegInf, PosInf => NaN
  | PosInf, _ | _, PosInf => PosInf
  | NegInf, _ | _, NegInf => NegInf
  end.

(** [np.sum] of finite values, and of arbitrary ones *)
Definition np_sum (l : list R) : R := foldr Rplus 0 l.
Definition np_sum_ext (l : list npfloat) : npfloat := foldr np_add (Finite 0) l.

(** [np.abs], [** 2], [np.exp] on arrays *)
Definition np_abs (l : list R) : list R := map Rabs l.
Definition np_square (l : list R) : list R := map (fun x => x * x) l.
Definition np_exp (l : list R) : list R := map exp l.

(** [np.log] of one value: minus infinity at zero, not-a-number below. *)
Definition np_log (x : R) : npfloat :=
  if Rlt_dec 0 x then Finite (ln x)
  else if Req_dec_T x 0 then NegInf
  else NaN.

(** [np.sqrt] of one value *)
Definition np_sqrt (a : npfloat) : npfloat :=
  match a with
  | Finite x => if Rlt_dec x 0 then NaN else Finite (sqrt x)
  | PosInf => PosInf
  | NegInf => NaN
  | NaN => NaN
  end.

(** [np.mean]: not-a-number for an empty array. *)
Definition np_mean (l : list R) : npfloat :=
  match l with
  | [] => NaN
  | _ => Finite (np_sum l / INR (length l))
  end.

(** [np.var] and [np.std] *)
Definition np_var (l : list R) : npfloat :=
  match l with
  | [] => NaN
  | _ => let m := np_sum l / INR (length l) in
         np_mean (map (fun x => Rabs (x - m) * Rabs (x - m)) l)
  end.
Definition np_std (l : list R) : npfloat := np_sqrt (np_var l).

(** [np.diff(l)] and [np.diff(l, n)] *)
Definition np_diff (l : list R) : list R :=
  zip_with (fun a b => b - a) l (tail l).
Definition np_diff_n (n : nat) (l : list R) : list R := Nat.iter n np_diff l.

(** [np.min] and [np.max]: an empty array raises [ValueError]. *)
Definition np_min (l : list R) : result R :=
  match l with
  | [] => Raise ValueError
  | x :: l' => Ok (foldl Rmin x l')
  end.
Definition np_max (l : list R) : result R :=
  match l with
  | [] => Raise ValueError
  | x :: l' => Ok (foldl Rmax x l')
  end.

(** Boolean arrays [l > c], counted as 1 and 0 *)
Definition np_gt (l : list R) (c : R) : list R :=
  map (fun x => if Rlt_dec c x then 1 else 0) l.

(** The epsilon of the logarithm descriptor and the threshold of WAMP *)
Definition log_eps : R := 1e-6.
Definition wamp_threshold : R := 0.05.

(** IALV: [np.sum(np.log(np.abs(coeff) + 1e-6))] *)
Definition log_arguments (coeff : list R) : list R :=
  map (fun x => x + log_eps) (np_abs coeff).
Definition IALV (coeff : list R) : npfloat :=
  np_sum_ext (map np_log (log_arguments coeff)).

(** The 19 descriptors of one decomposition component, in the order of
    the list literal of [extract_wavelet_features]. *)
Definition descriptors (coeff : list R) : result (list npfloat) :=
  let d := np_diff coeff in
  mn ← np_min coeff;
  mx ← np_max coeff;
  Ok [ Finite (np_sum (np_abs coeff));                    (* IEMG *)
       np_mean (np_abs coeff);                            (* MAV *)
       Finite (np_sum (np_square coeff));                 (* SSI *)
       np_sqrt (np_mean (np_square coeff));               (* RMS *)
       np_var coeff;                                      (* VAR *)
       np_mean (np_gt coeff 0);                           (* MYOP *)
       Finite (np_sum (np_abs d));                        (* WL *)
       np_mean (np_abs d);                                (* DAMV *)
       match coeff with                                   (* M2 *)
       | [] => NaN
       | _ => Finite (np_sum (np_square coeff) / INR (length coeff))
       end;
       np_var d;                                          (* DVARV *)
       np_std d;                                          (* DASDV *)
       Finite (np_sum (np_gt (np_abs coeff) wamp_threshold)); (* WAMP *)
       Finite (np_sum (np_abs (np_diff_n 2 coeff)));      (* IASD *)
       Finite (np_sum (np_abs (np_diff_n 3 coeff)));      (* IATD *)
       Finite (np_sum (np_exp (np_abs coeff)));           (* IEAV *)
       IALV coeff;                                        (* IALV *)
       Finite (np_sum (np_exp coeff));                    (* IE *)
       Finite mn;                                         (* MIN *)
       Finite mx ].                                       (* MAX *)

(** *** Wavelet features *)

(** A [for] loop over a list whose body may raise. *)
Fixpoint for_ {A S} (xs : list A) (body : S -> A -> result S) (s : S) : result S :=
  match xs with
  | [] => Ok s
  | x :: xs' => s' ← body s x; for_ xs' body s'
  end.

(** [a.T] *)
Definition transpose (a : ndarray2 R) : ndarray2 R :=
  mk_ndarray2 (map (fun j => map (fun r => nth j r 0) (rows a)) (seq 0 (ncols a)))
              (length (rows a)).

(** One filter bank to run the definitions with: the Haar transform on
    consecutive pairs, a last unpaired sample being paired with itself. *)
Fixpoint haar_pairs (l : list R) : list (R * R) :=
  match l with
  | [] => []
  | [x] => [(x, x)]
  | x :: y :: l' => (x, y) :: haar_pairs l'
  end.
Definition haar_dwt (l : list R) : result (list R * list R) :=
  match l with
  | [] => Raise ValueError
  | _ => Ok (map (fun p => (fst p + snd p) / sqrt 2) (haar_pairs l),
             map (fun p => (fst p - snd p) / sqrt 2) (haar_pairs l))
  end.

Section Wavelet.

(** [pywt.dwt(a, 'db4')]: the single-level transform of PyWavelets with
    the db4 filter bank, giving the approximation and the detail
    coefficients. It is library code and stays a parameter. *)
Variable dwt : list R -> result (list R * list R).

(** [pywt.wavedec(data, 'db4', level=level)], as PyWavelets defines it:
    [level] single-level transforms of the running approximation, and
    the result [[cA_n, cD_n, ..., cD_1]]. *)
Fixpoint wavedec_loop (level : nat) (a : list R) (coeffs_list : list (list R))
  : result (list (list R)) :=
  match level with
  | O => Ok (reverse (coeffs_list ++ [a]))
  | S k => p ← dwt a; wavedec_loop k (fst p) (coeffs_list ++ [snd p])
  end.
Definition wavedec (data : list R) (level : nat) : result (list (list R)) :=
  wavedec_loop level data [].

(** What PyWavelets gives for data that is not empty: both coefficient
    arrays, neither of them empty. *)
Definition dwt_defined : Prop :=
  forall x, x <> [] ->
    exists a d, dwt x = Ok (a, d) /\ a <> [] /\ d <> [].

(** The body of the loop over windows: the features of one window. *)
Definition window_features (window : ndarray2 R) : result (list npfloat) :=
  for_ (rows (transpose window))
       (fun window_features channel_data =>
          coeffs ← wavedec channel_data 2;
          for_ coeffs
               (fun window_features coeff =>
                  ds ← descriptors coeff;
                  Ok (window_features ++ ds))
               window_features)
       [].

(** [extract_wavelet_features(emg_data, window_size, overlap)]; the
    array is samples by channels here. *)
Definition extract_wavelet_features (emg_data : ndarray2 R)
    (window_size overlap : Z) : result (list (list npfloat)) :=
  let '(num_samples, num_channels) := shape emg_data in
  let step := (window_size - overlap)%Z in
  starts ← Py.range 0 (Z.of_nat num_samples - window_size + 1)%Z step;
  for_ starts
       (fun features start =>
          let window := Windowing.slice_rows emg_data (Some start)
                          (Some (start + window_size)%Z) in
          wf ← window_features window;
          Ok (features ++ [wf]))
       [].

End Wavelet.

(** *** Conditioning stages on arrays held in the interpreter's store *)

(** The elements of an array live in a buffer. An array object either owns
    its buffer or is a view: indexing with slices ([a[i:j]], [a[:, i:j]])
    and transposition make a new array object over the buffer of the array
    they are applied to, and an assignment through any of these objects is
    seen through all of them. The store maps the address of a buffer to
    its contents, kept in the shape of the array that owns it. *)
Abbreviation loc := nat.
Abbreviation heap := (gmap nat (ndarray2 R)).

(** An element of a buffer, by its row and column in the owning array. *)
Abbreviation cell := (nat * nat)%type.

(** A view names, for each of its elements, the element of the buffer
    that holds it. *)
Record view_map : Type := mk_view {
  cells : list (list cell);
  width : nat
}.

(** An array object: its buffer and how it looks at it; [view] is [None]
    for the array that owns the buffer ([a.base is None]). *)
Record aref : Type := mk_aref {
  buf : loc;
  view : option view_map
}.

Definition get (b : ndarray2 R) (c : cell) : option R :=
  row ← rows b !! c.1; row !! c.2.

(** What an array object shows of a buffer with contents [b]. *)
Definition seen (b : ndarray2 R) (v : option view_map) : option (ndarray2 R) :=
  match v with
  | None => Some b
  | Some m => rs ← mapM (mapM (get b)) (cells m); Some (mk_ndarray2 rs (width m))
  end.

Definition read (h : heap) (r : aref) : option (ndarray2 R) :=
  b ← h !! buf r; seen b (view r).

(** No two elements of the array share an element of the buffer, as in
    every array made by slicing or transposition. *)
Definition distinct_cells (v : option view_map) : Prop :=
  match v with
  | None => True
  | Some m => NoDup (concat (cells m))
  end.

(** A computation reads and writes the store and returns or raises. *)
Definition M (A : Type) : Type := heap -> heap * result A.

#[global] Instance M_ret : MRet M := fun _ a h => (h, Ok a).
#[global] Instance M_bind : MBind M := fun _ _ k m h =>
  match m h with
  | (h', Ok a) => k a h'
  | (h', Raise e) => (h', Raise e)
  end.

(** The values of an array, read through its reference. *)
Definition load (r : aref) : M (ndarray2 R) := fun h =>
  match read h r with
  | Some a => (h, Ok a)
  | None => (h, Raise Unallocated)
  end.

(** A new array object, owning a new buffer. *)
Definition alloc (a : ndarray2 R) : M aref := fun h =>
  let l := fresh (dom h) in (<[l := a]> h, Ok (mk_aref l None)).

Definition lift {A} (r : result A) : M A := fun h => (h, r).

(** A computation that leaves every buffer of the store as it is; it may
    add buffers. *)
Definition preserves {A} (m : M A) : Prop := forall h : heap, h ⊆ fst (m h).

(** A computation whose result, when it returns one, is an array that owns
    a buffer which did not exist before the call. *)
Definition returns_new (m : M aref) : Prop :=
  forall (h : heap) (r : aref),
    snd (m h) = Ok r ->
    view r = None /\ h !! buf r = None /\ is_Some (fst (m h) !! buf r).

(** A computation that leaves the store as it found it but for one new
    array, which it returns: no buffer is changed, every array that could
    be read before reads the same after, and the result owns a buffer that
    did not exist before. *)
Definition allocates_only (m : M aref) : Prop :=
  preserves m
  /\ (forall (h : heap) (u : aref) (x : ndarray2 R),
        read h u = Some x -> read (fst (m h)) u = Some x)
  /\ returns_new m.

(** [row[lo:hi] = v] for a scalar [v] *)
Definition assign_slice (row : list R) (lo hi : option Z) (v : R) : list R :=
  let a := match lo with Some i => Py.bound (length row) i | None => 0%nat end in
  let b := match hi with Some i => Py.bound (length row) i | None => length row end in
  if (b <=? a)%nat then row
  else take a row ++ replicate (b - a) v ++ drop b row.

(** [a[:, lo:hi] = v] *)
Definition assign_cols (a : ndarray2 R) (lo hi : option Z) (v : R) : ndarray2 R :=
  mk_ndarray2 (map (fun row => assign_slice row lo hi v) (rows a)) (ncols a).

(** The elements of the buffer behind each element of the array that owns
    it, and behind each element of any array that looks at it. *)
Definition own_cells (b : ndarray2 R) : list (list cell) :=
  imap (fun i row => imap (fun j _ => (i, j)) row) (rows b).

Definition cells_of (b : ndarray2 R) (w : option view_map) : list (list cell) :=
  match w with
  | None => own_cells b
  | Some m => cells m
  end.

(** The number of columns an array shows. *)
Definition width_of (b : ndarray2 R) (w : option view_map) : nat :=
  match w with
  | None => ncols b
  | Some m => width m
  end.

(** The elements of the buffer behind the columns [lo:hi] of an array. *)
Definition cols_cells (cs : list (list cell)) (lo hi : option Z) : list cell :=
  concat (map (fun r => Py.slice r lo hi) cs).

Definition in_cells (c : cell) (w : list cell) : bool :=
  existsb (fun c' => (c'.1 =? c.1)%nat && (c'.2 =? c.2)%nat) w.

(** The contents of a buffer after the elements [w] are overwritten with
    [v]. *)
Definition set_cells (b : ndarray2 R) (w : list cell) (v : R) : ndarray2 R :=
  mk_ndarray2
    (imap (fun i row => imap (fun j y => if in_cells (i, j) w then v else y) row)
          (rows b))
    (ncols b).

(** The contents of a buffer after [r[:, lo:hi] = v], for an array [r]
    that looks at it through [w]. *)
Definition assign_through (b : ndarray2 R) (w : option view_map)
    (lo hi : option Z) (v : R) : ndarray2 R :=
  match w with
  | None => assign_cols b lo hi v
  | Some m => set_cells b (cols_cells (cells m) lo hi) v
  end.

(** [r[:, lo:hi] = v], in place: the assignment lands in the buffer that
    [r] looks at, whether [r] owns it or is a view of it. *)
Definition setitem_cols (r : aref) (lo hi : option Z) (v : R) : M unit := fun h =>
  match h !! buf r with
  | Some b => (<[buf r := assign_through b (view r) lo hi v]> h, Ok tt)
  | None => (h, Raise Unallocated)
  end.

(** [r[:, lo:hi]] and [r[lo:hi]]: slicing makes a new array object over
    the buffer of [r]; no element is copied. *)
Definition getitem_cols (r : aref) (lo hi : option Z) : M aref := fun h =>
  match h !! buf r with
  | Some b =>
      (h, Ok (mk_aref (buf r)
                (Some (mk_view (map (fun cs => Py.slice cs lo hi)
                                    (cells_of b (view r)))
                               (Windowing.slice_len (width_of b (view r)) lo hi)))))
  | None => (h, Raise Unallocated)
  end.

Definition getitem_rows (r : aref) (lo hi : option Z) : M aref := fun h =>
  match h !! buf r with
  | Some b =>
      (h, Ok (mk_aref (buf r)
                (Some (mk_view (Py.slice (cells_of b (view r)) lo hi)
                               (width_of b (view r))))))
  | None => (h, Raise Unallocated)
  end.

(** [np.mean(a, axis=0)]: one mean per column. For an array without rows
    numpy gives not-a-number; the quotient by zero written here is then
    never combined with a row. *)
Definition np_mean_axis0 (a : ndarray2 R) : list R :=
  map (fun j => np_sum (map (fun r => nth j r 0) (rows a)) / INR (length (rows a)))
      (seq 0 (ncols a)).

(** [a - v] and [a + v] for a two-dimensional [a] and a one-dimensional
    [v] of [ncols a] items, broadcast over the rows *)
Definition sub_rows (a : ndarray2 R) (v : list R) : ndarray2 R :=
  mk_ndarray2 (map (fun row => zip_with Rminus row v) (rows a)) (ncols a).
Definition add_rows (a : ndarray2 R) (v : list R) : ndarray2 R :=
  mk_ndarray2 (map (fun row => zip_with Rplus row v) (rows a)) (ncols a).

(** [rectify_emg(emg_data)] *)
Definition rectify_emg (emg_data : aref) : M aref :=
  a ← load emg_data;
  alloc (mk_ndarray2 (map np_abs (rows a)) (ncols a)).

(** [common_average_reference(emg_data)] *)
Definition common_average_reference (emg_data : aref) : M aref :=
  a ← load emg_data;
  let common_avg := np_mean_axis0 a in
  alloc (sub_rows a common_avg).

(** *** The processing pipeline *)

(** The part of the recording dictionary that [process_emg_pipeline]
    reads: [data['amplifier_data']] and
    [int(data['frequency_parameters']['board_dig_in_sample_rate'])]. *)
Record recording : Type := mk_recording {
  amplifier_data : aref;
  board_dig_in_sample_rate : Z
}.

(** [x / y] on Python numbers *)
Definition py_div (x y : R) : result R :=
  if Req_dec_T y 0 then Raise ZeroDivisionError else Ok (x / y).

Section Pipeline.

(** scipy.signal: [butter(order, Wn, btype)] gives the coefficients
    [(b, a)], [filtfilt(b, a, data, axis)] and [hilbert(data, axis)]
    give new arrays. They are library code and stay parameters. *)
Variable butter : Z -> list R -> string -> result (list R * list R).
Variable filtfilt : list R -> list R -> ndarray2 R -> Z -> result (ndarray2 R).
Variable hilbert : ndarray2 R -> Z -> result (list (list (R * R))).

(** [butter_bandpass(lowcut, highcut, fs, order)]; the quotients raise
    for a sampling rate of 0. *)
Definition butter_bandpass (lowcut highcut : R) (fs order : Z)
  : result (list R * list R) :=
  let nyq := 0.5 * IZR fs in
  low ← py_div lowcut nyq;
  high ← py_div highcut nyq;
  butter order [low; high] "band".

(** [butter_lowpass(cutoff, fs, order)] *)
Definition butter_lowpass (cutoff : R) (fs order : Z) : result (list R * list R) :=
  let nyq := 0.5 * IZR fs in
  norm_cutoff ← py_div cutoff nyq;
  butter order [norm_cutoff] "low".

(** [butter_lowpass_filter(data, cutoff, fs, order, axis=0)] *)
Definition butter_lowpass_filter (data : aref) (cutoff : R) (fs order : Z) (axis : Z)
  : M aref :=
  ba ← lift (butter_lowpass cutoff fs order);
  d ← load data;
  y ← lift (filtfilt (fst ba) (snd ba) d axis);
  alloc y.

(** [butter_bandpass_filter(data, lowcut, highcut, fs, order, axis=0)] *)
Definition butter_bandpass_filter (data : aref) (lowcut highcut : R)
    (fs order : Z) (axis : Z) : M aref :=
  ba ← lift (butter_bandpass lowcut highcut fs order);
  d ← load data;
  y ← lift (filtfilt (fst ba) (snd ba) d axis);
  alloc y.

(** [filter_emg(emg_data, filter_type, lowcut, highcut, fs, order)];
    [np.stack] copies its argument into a new array. *)
Definition filter_emg (emg_data : aref) (filter_type : string)
    (lowcut highcut : R) (fs order : Z) : M aref :=
  filtered_data ←
    (if String.eqb filter_type "bandpass" then
       butter_bandpass_filter emg_data lowcut highcut fs order 0
     else if String.eqb filter_type "lowpass" then
       butter_lowpass_filter emg_data lowcut fs order 0
     else lift (Raise UnboundLocalError));
  f ← load filtered_data;
  alloc f.

(** [envelope_extraction(data, method)] *)
Definition envelope_extraction (data : aref) (method : string) : M aref :=
  if String.eqb method "hilbert" then
    d ← load data;
    analytic_signal ← lift (hilbert d 1);
    alloc (mk_ndarray2
             (map (map (fun z => sqrt (fst z * fst z + snd z * snd z))) analytic_signal)
             (ncols d))
  else lift (Raise ValueError).

(** [process_emg_pipeline(data, lowcut, highcut, order, window_size)].
    The assignment [emg_data[:, -sample_rate:] = 0.0] goes through the
    array object found in the dictionary. *)
Definition process_emg_pipeline (data : recording) (lowcut highcut : R)
    (order window_size : Z) : M aref :=
  let emg_data := amplifier_data data in
  let sample_rate := board_dig_in_sample_rate data in
  _ ← setitem_cols emg_data (Some (- sample_rate)%Z) None 0;
  bandpass_filtered ← filter_emg emg_data "bandpass" lowcut highcut sample_rate order;
  let rectified := bandpass_filtered in
  smoothed ← envelope_extraction rectified "hilbert";
  mret smoothed.

End Pipeline.

(** *** Normalisation and RMS features *)

(** [x / s] on two floats that are finite: a zero divisor gives
    not-a-number for a zero dividend and an infinity otherwise. *)
Definition np_div (x s : R) : npfloat :=
  if Req_dec_T s 0 then
    (if Req_dec_T x 0 then NaN else if Rlt_dec 0 x then PosInf else NegInf)
  else Finite (x / s).

(** One channel of [z_score_norm]: [(row - mean) / std] with the mean and
    the standard deviation of the channel. *)
Definition z_score_row (row : list R) : list npfloat :=
  match np_mean row, np_std row with
  | Finite mean, Finite std => map (fun x => np_div (x - mean) std) row
  | _, _ => map (fun _ => NaN) row
  end.

(** [z_score_norm(data)]: [np.mean] and [np.std] along axis 1, broadcast
    over the samples of each channel. *)
Definition z_score_norm (data : ndarray2 R) : ndarray2 npfloat :=
  mk_ndarray2 (map z_score_row (rows data)) (ncols data).

(** [a // b] *)
Definition floordiv (a b : Z) : result Z :=
  if (b =? 0)%Z then Raise ZeroDivisionError else Ok (a / b)%Z.

(** [compute_rms(emg_window)] and [compute_wl(emg_window)] *)
Definition compute_rms (emg_window : list R) : npfloat :=
  np_sqrt (np_mean (np_square emg_window)).
Definition compute_wl (emg_window : list R) : R :=
  np_sum (np_abs (np_diff emg_window)).

(** [calculate_rms(data, window_size)]: [np.zeros] refuses a negative
    number of windows. *)
Definition calculate_rms (data : ndarray2 R) (window_size : Z)
  : result (ndarray2 npfloat) :=
  let '(n_channels, n_samples) := shape data in
  n_windows ← floordiv (Z.of_nat n_samples) window_size;
  if (n_windows <? 0)%Z then Raise ValueError
  else
    Ok (mk_ndarray2
          (map (fun row =>
                  map (fun i =>
                         let window :=
                           Py.slice row (Some (Z.of_nat i * window_size)%Z)
                                    (Some ((Z.of_nat i + 1) * window_size)%Z) in
                         np_sqrt (np_mean (np_square window)))
                      (seq 0 (Z.to_nat n_windows)))
               (rows data))
          (Z.to_nat n_windows)).

(** [old_calculate_rms(data, window_size)], for [data] of samples by
    channels. [reshape(n_windows, window_size, -1)] puts [window_size]
    consecutive samples in each window and refuses negative dimensions;
    the mean is taken over the samples of a window. *)
Definition old_calculate_rms (data : ndarray2 R) (window_size : Z)
  : result (ndarray2 npfloat) :=
  let n_samples := Z.of_nat (length (rows data)) in
  if (n_samples <? window_size)%Z then Raise ValueError
  else
    n_windows ← floordiv n_samples window_size;
    if (n_windows =? 0)%Z then Raise ValueError
    else if (n_windows <? 0)%Z then Raise ValueError
    else
      let block := Py.slice (rows data) None (Some (n_windows * window_size)%Z) in
      Ok (mk_ndarray2
            (map (fun w =>
                    let window :=
                      Py.slice block (Some (Z.of_nat w * window_size)%Z)
                               (Some ((Z.of_nat w + 1) * window_size)%Z) in
                    map (fun c =>
                           np_sqrt (np_mean (np_square
                                               (map (fun r => nth c r 0) window))))
                        (seq 0 (ncols data)))
                 (seq 0 (Z.to_nat n_windows)))
            (ncols data)).

(** The full discrete convolution of [a] and [v]; [add_pad] adds two
    arrays of different lengths, the shorter one extended with zeros. *)
Fixpoint add_pad (l k : list R) : list R :=
  match l, k with
  | [], _ => k
  | _, [] => l
  | x :: l', y :: k' => (x + y) :: add_pad l' k'
  end.
Fixpoint conv_full (a v : list R) : list R :=
  match a with
  | [] => []
  | x :: a' => add_pad (map (Rmult x) v) (0 :: conv_full a' v)
  end.

(** [np.convolve(a, v, mode='same')]: the longer argument comes first, an
    empty argument raises [ValueError], and the result is the middle of
    the full convolution, as long as the longer argument. *)
Definition np_convolve_same (a v : list R) : result (list R) :=
  let '(a, v) := if (length a <? length v)%nat then (v, a) else (a, v) in
  match a, v with
  | [], _ => Raise ValueError
  | _, [] => Raise ValueError
  | _, _ => Ok (take (length a) (drop ((length v - 1) / 2) (conv_full a v)))
  end.

(** [window_rms_1D(signal, window_size)]; [np.ones] refuses a negative
    size. *)
Definition window_rms_1D (signal : list R) (window_size : Z)
  : result (list npfloat) :=
  if (window_size <? 0)%Z then Raise ValueError
  else
    let kernel := replicate (Z.to_nat window_size) (1 / IZR window_size) in
    c ← np_convolve_same (np_square signal) kernel;
    Ok (map (fun x => np_sqrt (Finite x)) c).

(** [window_rms(emg_data, window_size)]: each result is assigned to a row
    of [num_samples] items. *)
Definition window_rms (emg_data : ndarray2 R) (window_size : Z)
  : result (ndarray2 npfloat) :=
  let '(num_channels, num_samples) := shape emg_data in
  rms_data ←
    for_ (rows emg_data)
         (fun rms_data row =>
            r ← window_rms_1D row window_size;
            r' ← broadcast_row num_samples r;
            Ok (rms_data ++ [r']))
         [];
  Ok (mk_ndarray2 rms_data num_samples).

End Emg.

(** ** emg_processing.py: the configuration file *)

Module Config.
Section Config.

(** A [str] is a list of characters. The characters, the test
    [str.isspace] that [strip] uses, and the two characters the function
    names, '=' and '#', are parameters; the file is given by the lines
    that iterating over it yields. *)
Context {char : Type} `{Countable char}.
Variable isspace : char -> bool.
Variables eq_sign hash : char.

(** [s.lstrip()], [s.rstrip()] and [s.strip()] *)
Fixpoint lstrip (s : list char) : list char :=
  match s with
  | [] => []
  | c :: s' => if isspace c then lstrip s' else s
  end.
Definition rstrip (s : list char) : list char := reverse (lstrip (reverse s)).
Definition strip (s : list char) : list char := rstrip (lstrip s).

(** [line.startswith('#')] *)
Definition startswith_hash (line : list char) : bool :=
  match line with
  | c :: _ => bool_decide (c = hash)
  | [] => false
  end.

(** [line.split('=', 1)]: the parts before and after the first '=', or
    [None] for the one-item list of a line without '='. *)
Fixpoint split_once (line : list char) : option (list char * list char) :=
  match line with
  | [] => None
  | c :: line' =>
      if decide (c = eq_sign) then Some ([], line')
      else match split_once line' with
           | Some (key, value) => Some (c :: key, value)
           | None => None
           end
  end.

(** The body of the loop over the lines; unpacking a one-item list into
    [key, value] raises [ValueError]. *)
Definition read_line (config_data : gmap (list char) (list char))
    (line : list char) : result (gmap (list char) (list char)) :=
  let line := strip line in
  if bool_decide (line = []) || startswith_hash line then Ok config_data
  else
    match split_once line with
    | None => Raise ValueError
    | Some (key, value) => Ok (<[strip key := strip value]> config_data)
    end.

(** [read_config_file(config_file)], on the lines of the file *)
Definition read_config_file (lines : list (list char))
  : result (gmap (list char) (list char)) :=
  Emg.for_ lines read_line ∅.

(** A line the loop skips, and a line it can take an entry from. *)
Definition skipped (line : list char) : Prop :=
  strip line = [] \/ startswith_hash (strip line) = true.
Definition has_entry (line : list char) : Prop :=
  eq_sign ∈ strip line.

(** A string without white space at either end. *)
Definition stripped (s : list char) : Prop :=
  (forall c, head s = Some c -> isspace c = false)
  /\ (forall c, last s = Some c -> isspace c = false).

(** The line [key = value] with white space around its parts. *)
Definition entry_line (ws1 key ws2 ws3 value ws4 : list char) : list char :=
  ws1 ++ key ++ ws2 ++ [eq_sign] ++ ws3 ++ value ++ ws4.

End Config.

(** [str.isspace] for the characters below U+0100: tab to carriage
    return, the four separators U+001C to U+001F, the space, U+0085 and
    U+00A0. *)
Definition isspace_latin1 (c : Ascii.ascii) : bool :=
  let n := Ascii.nat_of_ascii c in
  ((9 <=? n) && (n <=? 13) || (28 <=? n) && (n <=? 31)
   || (n =? 32) || (n =? 133) || (n =? 160))%nat.

(** A line of text as a list of characters. *)
Definition chars (s : string) : list Ascii.ascii := String.list_ascii_of_string s.

End Config.

(** * Properties *)

(** ** Lists, slices and ranges *)

Section ListFacts.

Context {A : Type}.
Implicit Types (l : list A) (x : A).

Lemma last_n_length n l : (n <= length l)%nat -> length (last_n n l) = n.
Proof. intros H. unfold last_n. rewrite length_drop. lia. Qed.

Lemma last_n_all n l : (length l <= n)%nat -> last_n n l = l.
Proof.
  intros H. unfold last_n. replace (length l - n)%nat with 0%nat by lia. done.
Qed.

Lemma last_n_app n l1 l2 :
  (n <= length l2)%nat -> last_n n (l1 ++ l2) = last_n n l2.
Proof.
  intros H. unfold last_n. rewrite length_app, drop_app.
  rewrite (drop_ge l1) by lia. simpl. f_equal. lia.
Qed.

Lemma last_n_last_n n m l : (n <= m)%nat -> last_n n (last_n m l) = last_n n l.
Proof.
  intros H. unfold last_n. rewrite length_drop, drop_drop. f_equal. lia.
Qed.

Lemma drop_S_tail k l : drop (S k) l = tail (drop k l).
Proof.
  revert l. induction k as [|k IH]; intros [|y l]; simpl; auto using drop_0.
Qed.

Lemma last_n_snoc n l x :
  (1 <= n <= length l)%nat -> last_n n (l ++ [x]) = tail (last_n n l) ++ [x].
Proof.
  intros H. unfold last_n. rewrite length_app. simpl.
  rewrite drop_app_le by lia.
  replace (length l + 1 - n)%nat with (S (length l - n)) by lia.
  by rewrite drop_S_tail.
Qed.

Lemma unroll_length c l : (c <= length l)%nat -> length (unroll c l) = length l.
Proof. intros H. unfold unroll. rewrite length_app, length_drop, length_take. lia. Qed.

(** Writing at the cursor and moving it on drops the oldest item of the
    unrolled view and adds the new one at its end. *)
Lemma unroll_insert c l x :
  (c < length l)%nat ->
  unroll ((c + 1) mod length l) (<[c := x]> l) = tail (unroll c l) ++ [x].
Proof.
  intros Hc. unfold unroll.
  destruct (lookup_lt_is_Some_2 l c Hc) as [y Hy].
  rewrite (drop_S l y c Hy). simpl.
  destruct (decide (c + 1 = length l)%nat) as [E|E].
  - rewrite E, Nat.Div0.mod_same. simpl. rewrite drop_0.
    rewrite drop_ge by lia. simpl.
    rewrite <- (take_drop c l) at 1.
    rewrite insert_app_r_alt by (rewrite length_take; lia).
    rewrite length_take. replace (c - c `min` length l)%nat with 0%nat by lia.
    rewrite (drop_S l y c Hy). simpl. rewrite drop_ge by lia.
    by rewrite app_nil_r.
  - rewrite Nat.mod_small by lia.
    rewrite drop_insert_lt by lia.
    replace (c + 1)%nat with (S c) by lia.
    rewrite (take_S_r (<[c:=x]> l) c x) by (apply list_lookup_insert_eq; lia).
    rewrite take_insert_ge by lia. by rewrite <- app_assoc.
Qed.

End ListFacts.

Section SliceFacts.

Context {A : Type}.
Implicit Types (l : list A).

Lemma bound_in_range len i :
  0 <= i <= Z.of_nat len -> Py.bound len i = Z.to_nat i.
Proof.
  intros H. unfold Py.bound.
  destruct (Z.ltb_spec i 0); [lia|]. f_equal. lia.
Qed.

Lemma slice_between l (a b : nat) :
  (b <= length l)%nat ->
  Py.slice l (Some (Z.of_nat a)) (Some (Z.of_nat b)) = take (b - a) (drop a l).
Proof.
  intros H. unfold Py.slice.
  destruct (decide (a <= length l)%nat) as [Ha|Ha].
  - rewrite !bound_in_range by lia. by rewrite !Nat2Z.id.
  - rewrite (bound_in_range _ (Z.of_nat b)) by lia. rewrite Nat2Z.id.
    replace (b - a)%nat with 0%nat by lia.
    replace (_ - _)%nat with 0%nat; [done|].
    unfold Py.bound. destruct (Z.ltb_spec (Z.of_nat a) 0); lia.
Qed.

Lemma slice_from l (a : nat) :
  (a <= length l)%nat -> Py.slice l (Some (Z.of_nat a)) None = drop a l.
Proof.
  intros H. unfold Py.slice. rewrite bound_in_range by lia.
  rewrite Nat2Z.id. apply take_ge. rewrite length_drop. lia.
Qed.

Lemma slice_to l (b : nat) :
  (b <= length l)%nat -> Py.slice l None (Some (Z.of_nat b)) = take b l.
Proof.
  intros H. unfold Py.slice. rewrite bound_in_range by lia.
  rewrite Nat2Z.id, drop_0. f_equal. lia.
Qed.

Lemma read_back_last_n l (C c n : nat) :
  length l = C -> (c < C)%nat -> (1 <= n <= C)%nat ->
  read_back l (Z.of_nat C) (Z.of_nat c) (Z.of_nat n)
  = last_n n (unroll c l).
Proof.
  intros <- Hc Hn. unfold read_back, last_n.
  rewrite unroll_length by lia. unfold unroll.
  destruct (decide (n <= c)%nat) as [Hle|Hgt].
  - replace ((Z.of_nat c - Z.of_nat n) mod Z.of_nat (length l))
      with (Z.of_nat (c - n)) by (rewrite Z.mod_small; lia).
    destruct (Z.ltb_spec (Z.of_nat (c - n)) (Z.of_nat c)); [|lia].
    rewrite slice_between by lia.
    rewrite drop_app_ge by (rewrite length_drop; lia).
    rewrite length_drop, take_drop_commute.
    replace (length l - n - (length l - c))%nat with (c - n)%nat by lia.
    do 2 f_equal. lia.
  - replace ((Z.of_nat c - Z.of_nat n) mod Z.of_nat (length l))
      with (Z.of_nat (length l + c - n)).
    2:{ apply Z.mod_unique with (q := -1); lia. }
    destruct (Z.ltb_spec (Z.of_nat (length l + c - n)) (Z.of_nat c)); [lia|].
    rewrite slice_from, slice_to by lia.
    rewrite drop_app_le by (rewrite length_drop; lia).
    rewrite drop_drop. do 2 f_equal. lia.
Qed.

Lemma read_back_zero l (C c : nat) :
  length l = C -> (c < C)%nat ->
  read_back l (Z.of_nat C) (Z.of_nat c) 0 = unroll c l.
Proof.
  intros <- Hc. unfold read_back, unroll.
  rewrite Z.sub_0_r, Z.mod_small by lia.
  rewrite Z.ltb_irrefl. by rewrite slice_from, slice_to by lia.
Qed.

End SliceFacts.

(** ** RingBuffer *)

Section RingBufferFacts.

Import RingBuffer.
Context {F : Type} (f0 : F).
Implicit Types (b : RingBuffer.t (F := F)) (hist xs : list (F * list F)).

Lemma init_inv (C nch : nat) :
  (1 <= C)%nat ->
  exists b, init f0 (Z.of_nat nch) (Z.of_nat C) = Ok b /\ inv f0 C nch [] b.
Proof.
  intros HC. unfold init.
  destruct (Z.ltb_spec (Z.of_nat C) 0); [lia|].
  destruct (Z.ltb_spec (Z.of_nat nch) 0); [lia|]. simpl.
  eexists; split; [reflexivity|].
  rewrite !Nat2Z.id.
  split; simpl; rewrite ?length_replicate, ?Nat.Div0.mod_0_l; try done.
  - unfold unroll. simpl. rewrite drop_0, !app_nil_r.
    by rewrite last_n_all by (rewrite length_replicate; lia).
  - unfold unroll. simpl. rewrite drop_0, !app_nil_r.
    by rewrite last_n_all by (rewrite length_replicate; lia).
Qed.

Lemma index_in_range (len : nat) (i : nat) :
  (i < len)%nat -> Py.index len (Z.of_nat i) = Ok i.
Proof.
  intros H. unfold Py.index.
  destruct (Z.ltb_spec (Z.of_nat i) (- Z.of_nat len)); [lia|].
  destruct (Z.leb_spec (Z.of_nat len) (Z.of_nat i)); [lia|]. simpl.
  destruct (Z.ltb_spec (Z.of_nat i) 0); [lia|]. by rewrite Nat2Z.id.
Qed.

Lemma append_inv C nch hist b ts x :
  (1 <= C)%nat -> inv f0 C nch hist b -> length x = nch ->
  exists b', append b ts x = Ok b' /\ inv f0 C nch (hist ++ [(ts, x)]) b'.
Proof.
  intros HC [Hmax Hnc Hrl Htl Hcur Hsize Hrows Hts] Hx.
  assert (Hlt : (length hist mod C < C)%nat) by (apply Nat.mod_upper_bound; lia).
  unfold append. rewrite Hcur, Hrl, Htl, Hnc, Hmax, Hsize.
  rewrite !index_in_range by done. simpl.
  unfold broadcast_row. rewrite decide_True by done. simpl.
  unfold Py.mod_. destruct (Z.eqb_spec (Z.of_nat C) 0); [lia|]. simpl.
  eexists; split; [reflexivity|].
  assert (Hnext : ((length hist mod C + 1) mod C = length (hist ++ [(ts, x)]) mod C)%nat).
  { rewrite length_app. simpl. by rewrite Nat.Div0.add_mod_idemp_l. }
  split; simpl; rewrite ?length_insert; try done.
  - rewrite <- Hnext, (Nat2Z.inj_mod (_ + 1)), Nat2Z.inj_add. done.
  - rewrite length_app. simpl. lia.
  - rewrite <- Hnext. rewrite <- Hrl at 2. rewrite unroll_insert by lia.
    rewrite Hrows, map_app, app_assoc. simpl.
    by rewrite last_n_snoc by (rewrite length_app, length_replicate; lia).
  - rewrite <- Hnext. rewrite <- Htl at 2. rewrite unroll_insert by lia.
    rewrite Hts, map_app, app_assoc. simpl.
    by rewrite last_n_snoc by (rewrite length_app, length_replicate; lia).
Qed.

Lemma appends_inv C nch xs : forall hist b,
  (1 <= C)%nat -> inv f0 C nch hist b -> well_shaped nch xs ->
  exists b', appends b xs = Ok b' /\ inv f0 C nch (hist ++ xs) b'.
Proof.
  induction xs as [|[ts x] xs IH]; intros hist b HC Hinv Hws.
  - exists b. by rewrite app_nil_r.
  - apply Forall_cons in Hws as [Hx Hws']. simpl in Hx.
    destruct (append_inv C nch hist b ts x HC Hinv Hx) as (b1 & E1 & Hinv1).
    destruct (IH _ _ HC Hinv1 Hws') as (b' & E' & Hinv').
    exists b'. simpl. rewrite E1. simpl. split; [done|].
    by rewrite <- app_assoc in Hinv'.
Qed.

Lemma run_inv (C nch : nat) xs :
  (1 <= C)%nat -> well_shaped nch xs ->
  exists b, run f0 (Z.of_nat nch) (Z.of_nat C) xs = Ok b /\ inv f0 C nch xs b.
Proof.
  intros HC Hws. destruct (init_inv C nch HC) as (b0 & E0 & Hinv0).
  destruct (appends_inv C nch xs [] b0 HC Hinv0 Hws) as (b & E & Hinv).
  exists b. unfold run. rewrite E0. simpl. done.
Qed.

Lemma inv_end_idx C nch hist b :
  (1 <= C)%nat -> inv f0 C nch hist b ->
  (if size b =? max b then cur b else size b) = cur b.
Proof.
  intros HC [Hmax _ _ _ Hcur Hsize _ _].
  destruct (Z.eqb_spec (size b) (max b)) as [|Hne]; [done|].
  rewrite Hsize, Hcur. rewrite Hsize, Hmax in Hne.
  rewrite Nat.mod_small by lia. lia.
Qed.

Lemma get_samples_read_back C nch hist b n :
  (1 <= C)%nat -> inv f0 C nch hist b -> n <= size b ->
  get_samples b n
  = Ok (read_back (rows (samples b)) (max b) (cur b) n,
        read_back (timestamp b) (max b) (cur b) n).
Proof.
  intros HC Hinv Hn. unfold get_samples.
  destruct (Z.ltb_spec (size b) n); [lia|].
  rewrite (inv_end_idx C nch hist b HC Hinv).
  unfold Py.mod_. destruct (Z.eqb_spec (max b) 0) as [E|_].
  { destruct Hinv as [Hmax _ _ _ _ _ _ _]. lia. }
  simpl. unfold read_back. by destruct (_ <? _).
Qed.

(** The [n] most recent items, for [1 <= n <= size]. *)
Lemma get_samples_last_n C nch hist b (n : nat) :
  (1 <= C)%nat -> inv f0 C nch hist b ->
  (1 <= n)%nat -> Z.of_nat n <= size b ->
  get_samples b (Z.of_nat n)
  = Ok (last_n n (map snd hist), last_n n (map fst hist)).
Proof.
  intros HC Hinv H1 Hn.
  rewrite (get_samples_read_back C nch hist b _ HC Hinv Hn).
  destruct Hinv as [Hmax Hnc Hrl Htl Hcur Hsize Hrows Hts].
  assert (Hlt : (length hist mod C < C)%nat) by (apply Nat.mod_upper_bound; lia).
  rewrite Hmax, Hcur.
  rewrite !(read_back_last_n _ C) by lia.
  rewrite Hrows, Hts, !last_n_last_n by lia.
  rewrite !last_n_app by (rewrite length_map; lia). done.
Qed.

End RingBufferFacts.

Section RingBufferClaims.

Import RingBuffer.
Context {F : Type} (f0 : F).
Implicit Types (b : RingBuffer.t (F := F)) (prior xs ys : list (F * list F)).

Lemma unroll_head {A} (l : list A) (c : nat) :
  (c < length l)%nat -> head (unroll c l) = l !! c.
Proof.
  intros Hc. unfold unroll. rewrite head_lookup.
  rewrite lookup_app_l by (rewrite length_drop; lia).
  rewrite lookup_drop. f_equal. lia.
Qed.

Lemma get_samples_error_iff b n :
  get_samples b n = Raise ValueError <-> size b < n.
Proof.
  unfold get_samples. destruct (Z.ltb_spec (size b) n) as [H|H].
  - split; [done|done].
  - split; [|lia]. unfold Py.mod_.
    destruct (_ =? 0); simpl; [done|]. by destruct (_ <? _).
Qed.

(** C1. For a buffer of capacity [C], after any earlier calls [prior],
    appending [L] samples with [1 <= L <= C] and asking for [L] samples
    returns exactly these samples and their timestamps, oldest first.
    When the requested range wraps past the end of the backing arrays
    (the cursor is below [L]), the result is the tail segment of the
    backing array followed by its head segment. *)
Theorem get_samples_chronological (num_channels C : nat) prior xs :
  well_shaped num_channels (prior ++ xs) ->
  (1 <= length xs <= C)%nat ->
  exists b,
    run f0 (Z.of_nat num_channels) (Z.of_nat C) (prior ++ xs) = Ok b /\
    get_samples b (Z.of_nat (length xs)) = Ok (map snd xs, map fst xs) /\
    (cur b < Z.of_nat (length xs) ->
     let start_idx := Z.to_nat (cur b - Z.of_nat (length xs) + Z.of_nat C) in
     let end_idx := Z.to_nat (cur b) in
     map snd xs = drop start_idx (rows (samples b)) ++ take end_idx (rows (samples b)) /\
     map fst xs = drop start_idx (timestamp b) ++ take end_idx (timestamp b)).
Proof.
  intros Hws [H1 HC].
  destruct (run_inv f0 C num_channels (prior ++ xs)) as (b & Hrun & Hinv);
    [lia|done|].
  exists b. split; [done|].
  assert (Hsz : Z.of_nat (length xs) <= size b).
  { rewrite (inv_size _ _ _ _ _ Hinv), length_app. lia. }
  assert (Hget : get_samples b (Z.of_nat (length xs))
                 = Ok (map snd xs, map fst xs)).
  { rewrite (get_samples_last_n f0 C num_channels (prior ++ xs)) by (done || lia).
    rewrite !map_app, !last_n_app by (rewrite length_map; lia).
    by rewrite !last_n_all by (rewrite length_map; lia). }
  split; [done|].
  intros Hwrap start_idx end_idx.
  rewrite (get_samples_read_back f0 C num_channels (prior ++ xs)) in Hget
    by (done || lia).
  injection Hget as Hr Ht. rewrite <- Hr, <- Ht.
  destruct Hinv as [Hmax Hnc Hrl Htl Hcur Hsize Hrows Hts].
  assert (Hlt : (length (prior ++ xs) mod C < C)%nat)
    by (apply Nat.mod_upper_bound; lia).
  unfold read_back. rewrite Hmax.
  replace ((cur b - Z.of_nat (length xs)) mod Z.of_nat C)
    with (Z.of_nat start_idx).
  2:{ apply Z.mod_unique with (q := -1); unfold start_idx; lia. }
  destruct (Z.ltb_spec (Z.of_nat start_idx) (cur b));
    [unfold start_idx in *; lia|].
  replace (cur b) with (Z.of_nat end_idx) by (unfold end_idx; lia).
  rewrite !slice_from, !slice_to by (unfold start_idx, end_idx; lia).
  done.
Qed.

(** C2. After more than [C] calls of [append] on a fresh buffer of
    capacity [C] the buffer holds exactly the [C] most recent samples:
    [get_samples(n)] returns the last [n] samples appended for every
    [1 <= n <= C] and raises the insufficient-data error for every
    [n > C]. In any state, [get_samples(n)] raises that error exactly
    when [n] exceeds the fill count. *)
Theorem get_samples_retains_most_recent (num_channels C : nat) xs :
  (1 <= C)%nat ->
  well_shaped num_channels xs ->
  (C < length xs)%nat ->
  exists b,
    run f0 (Z.of_nat num_channels) (Z.of_nat C) xs = Ok b /\
    size b = Z.of_nat C /\
    (forall n : nat, (1 <= n <= C)%nat ->
       get_samples b (Z.of_nat n)
       = Ok (last_n n (map snd xs), last_n n (map fst xs))) /\
    (forall n : Z, Z.of_nat C < n -> get_samples b n = Raise ValueError) /\
    (forall (b' : RingBuffer.t (F := F)) (n : Z),
       get_samples b' n = Raise ValueError <-> size b' < n).
Proof.
  intros HC Hws HL.
  destruct (run_inv f0 C num_channels xs HC Hws) as (b & Hrun & Hinv).
  assert (Hsz : size b = Z.of_nat C) by (rewrite (inv_size _ _ _ _ _ Hinv); lia).
  exists b. split_and!; try done.
  - intros n Hn. apply (get_samples_last_n f0 C num_channels); (done || lia).
  - intros n Hn. apply get_samples_error_iff. lia.
  - apply get_samples_error_iff.
Qed.

(** C8. Along any sequence of [append] calls on a buffer of capacity [C]
    the fill count never decreases and never exceeds [C]; once it is [C]
    it stays [C], so [is_full] stays true; and an [append] on a full
    buffer writes over the slot that holds the oldest sample kept. *)
Theorem fill_count_monotone_full_absorbing (num_channels C : nat) xs ts x ys :
  (1 <= C)%nat ->
  well_shaped num_channels (xs ++ (ts, x) :: ys) ->
  exists b b1 b2,
    run f0 (Z.of_nat num_channels) (Z.of_nat C) xs = Ok b /\
    append b ts x = Ok b1 /\
    appends b1 ys = Ok b2 /\
    (0 <= size b /\ size b <= size b1 /\ size b1 <= size b2
     /\ size b2 <= Z.of_nat C) /\
    (size b = Z.of_nat C -> size b1 = Z.of_nat C /\ size b2 = Z.of_nat C) /\
    (is_full b = true ->
       is_full b1 = true /\ is_full b2 = true /\
       exists i : nat,
         Py.index (length (rows (samples b))) (cur b) = Ok i /\
         rows (samples b) !! i = head (last_n C (map snd xs)) /\
         timestamp b !! i = head (last_n C (map fst xs)) /\
         is_Some (rows (samples b) !! i) /\
         rows (samples b1) = <[i := x]> (rows (samples b)) /\
         timestamp b1 = <[i := ts]> (timestamp b)).
Proof.
  intros HC Hws.
  apply Forall_app in Hws as [Hxs Hrest].
  apply Forall_cons in Hrest as [Hx Hys]. simpl in Hx.
  destruct (run_inv f0 C num_channels xs HC Hxs) as (b & Hrun & Hinv).
  destruct (append_inv f0 C num_channels xs b ts x HC Hinv Hx)
    as (b1 & Happ & Hinv1).
  destruct (appends_inv f0 C num_channels ys _ b1 HC Hinv1 Hys)
    as (b2 & Happs & Hinv2).
  pose proof (inv_size _ _ _ _ _ Hinv) as Hs.
  pose proof (inv_size _ _ _ _ _ Hinv1) as Hs1.
  pose proof (inv_size _ _ _ _ _ Hinv2) as Hs2.
  pose proof (inv_max _ _ _ _ _ Hinv) as Hm.
  pose proof (inv_max _ _ _ _ _ Hinv1) as Hm1.
  pose proof (inv_max _ _ _ _ _ Hinv2) as Hm2.
  rewrite !length_app in Hs1. rewrite !length_app in Hs2.
  simpl in Hs1, Hs2.
  exists b, b1, b2. unfold is_full.
  split; [done|]. split; [done|]. split; [done|].
  split; [lia|]. split; [lia|].
  intros Hfull. apply Z.eqb_eq in Hfull.
  split; [apply Z.eqb_eq; lia|]. split; [apply Z.eqb_eq; lia|].
  destruct Hinv as [Hmax Hnc Hrl Htl Hcur Hsize Hrows Hts].
  assert (Hlt : (length xs mod C < C)%nat) by (apply Nat.mod_upper_bound; lia).
  exists (length xs mod C)%nat.
  rewrite Hcur, Hrl. split; [by apply index_in_range|].
  split.
  { rewrite <- unroll_head, Hrows by lia.
    by rewrite last_n_app by (rewrite length_map; lia). }
  split.
  { rewrite <- unroll_head, Hts by lia.
    by rewrite last_n_app by (rewrite length_map; lia). }
  split; [apply lookup_lt_is_Some_2; lia|].
  unfold append in Happ. rewrite Hcur, Hrl, Htl, Hnc in Happ.
  rewrite !index_in_range in Happ by done. simpl in Happ.
  unfold broadcast_row in Happ. rewrite decide_True in Happ by done.
  simpl in Happ. unfold Py.mod_ in Happ.
  destruct (max b =? 0); simpl in Happ; [done|].
  injection Happ as <-. done.
Qed.

(** C10. [get_samples(0)] does not return an empty block: start and end
    index coincide, the wrap-around branch is taken, and the result is
    the backing array from that index to its end followed by its
    beginning, [C] rows in all; while the buffer is not full these are
    the never-written zero rows followed by the samples appended. *)
Theorem get_samples_zero_full_block (num_channels C : nat) xs :
  (1 <= C)%nat ->
  well_shaped num_channels xs ->
  exists b r,
    run f0 (Z.of_nat num_channels) (Z.of_nat C) xs = Ok b /\
    get_samples b 0 = Ok r /\
    (let idx := Z.to_nat (if size b =? max b then cur b else size b) in
     r = (drop idx (rows (samples b)) ++ take idx (rows (samples b)),
          drop idx (timestamp b) ++ take idx (timestamp b))) /\
    length (fst r) = C /\ length (snd r) = C /\
    ((length xs < C)%nat ->
     r = (replicate (C - length xs) (replicate num_channels f0) ++ map snd xs,
          replicate (C - length xs) f0 ++ map fst xs)).
Proof.
  intros HC Hws.
  destruct (run_inv f0 C num_channels xs HC Hws) as (b & Hrun & Hinv).
  pose proof (inv_size _ _ _ _ _ Hinv) as Hs.
  pose proof (get_samples_read_back f0 C num_channels xs b 0 HC Hinv) as Hget.
  pose proof (inv_end_idx f0 C num_channels xs b HC Hinv) as Hend.
  destruct Hinv as [Hmax Hnc Hrl Htl Hcur Hsize Hrows Hts].
  assert (Hlt : (length xs mod C < C)%nat) by (apply Nat.mod_upper_bound; lia).
  rewrite Hmax, Hcur, !(read_back_zero _ C) in Hget by lia.
  exists b. eexists. split; [done|]. split; [apply Hget; lia|].
  rewrite Hend, Hcur, Nat2Z.id. split; [done|]. simpl.
  rewrite !unroll_length by lia. split; [done|]. split; [done|].
  intros HL. rewrite Hrows, Hts. unfold last_n.
  rewrite !length_app, !length_replicate, !length_map.
  replace (C + length xs - C)%nat with (length xs) by lia.
  rewrite !drop_app_le by (rewrite length_replicate; lia).
  by rewrite !drop_replicate.
Qed.

End RingBufferClaims.

(** ** PicoMessager *)

Section PicoMessagerClaims.

Import PicoMessager.
Local Open Scope string_scope.
Local Arguments truthy : simpl never.

Lemma truthy_nonempty (a : string) : a <> EmptyString -> truthy (Some a) = true.
Proof.
  intros Ha. unfold truthy. destruct (String.eqb_spec a EmptyString); done.
Qed.

(** The first label of a fresh smoother becomes the active gesture and is
    sent, whatever [mode] of a one-item history gives that label. *)
Lemma update_gesture_first mode (n : nat) (a : string) :
  (1 <= n)%nat -> a <> EmptyString -> mode [a] = Ok a ->
  update_gesture mode (init n) a
  = Ok ({| maxlen := n; buffer := [a]; current_gesture := Some a |}, [a]).
Proof.
  intros Hn Ha Hm. unfold update_gesture, deque_append. simpl.
  destruct (Nat.ltb_spec n 1); [lia|]. rewrite Hm. simpl.
  by rewrite truthy_nonempty.
Qed.

Lemma mode_first_two (a b : string) : mode_first [a; b] = Ok a.
Proof.
  unfold mode_first, Counter. simpl.
  destruct (decide (b = a)); done.
Qed.

Lemma mode_unique_two (a b : string) :
  mode_unique [a; b] = if decide (b = a) then Ok a else Raise StatisticsError.
Proof.
  unfold mode_unique, Counter. simpl.
  destruct (decide (b = a)); done.
Qed.

(** C3, as stated, at capacity 2 and labels A, B: it fails with either
    version of [statistics.mode], because the first observation already
    makes A the active gesture and sends it. *)
Lemma tie_capacity_two_sends_first_label :
  ~ (exists st, observe_all mode_first (init 2) ["A"; "B"] = Ok (st, [])
                /\ current_gesture st = None)
  /\ ~ (exists st, observe_all mode_unique (init 2) ["A"; "B"] = Ok (st, [])
                   /\ current_gesture st = None).
Proof.
  split; intros (st & H & _); vm_compute in H; discriminate H.
Qed.

(** C3, amended. When [mode] raises [StatisticsError], [update_gesture]
    returns without raising, sends nothing and keeps the active gesture;
    the history has received the label all the same. A smoother of
    capacity 2 fed [a] then [b], [a] not empty, sends exactly one
    message, [a], on the first observation, and its active gesture ends
    as [a], with either version of [statistics.mode]. *)
Theorem update_gesture_no_mode_keeps_gesture
    (mode : list string -> result string) (st : t) (g a b : string) :
  mode (deque_append (maxlen st) (buffer st) g) = Raise StatisticsError ->
  a <> EmptyString ->
  update_gesture mode st g
  = Ok ({| maxlen := maxlen st;
           buffer := deque_append (maxlen st) (buffer st) g;
           current_gesture := current_gesture st |}, [])
  /\ observe_all mode_first (init 2) [a; b]
     = Ok ({| maxlen := 2; buffer := [a; b]; current_gesture := Some a |}, [a])
  /\ observe_all mode_unique (init 2) [a; b]
     = Ok ({| maxlen := 2; buffer := [a; b]; current_gesture := Some a |}, [a]).
Proof.
  intros Hmode Ha. split; [|split].
  - unfold update_gesture. rewrite Hmode. done.
  - simpl. rewrite update_gesture_first by (done || lia). simpl.
    unfold update_gesture, deque_append. simpl.
    rewrite mode_first_two. simpl.
    rewrite truthy_nonempty, bool_decide_eq_true_2 by done. done.
  - simpl. rewrite update_gesture_first by (done || lia). simpl.
    unfold update_gesture, deque_append. simpl.
    rewrite mode_unique_two. destruct (decide (b = a)); simpl; [|done].
    rewrite truthy_nonempty, bool_decide_eq_true_2 by done. done.
Qed.

Lemma update_gesture_no_mode_keeps_gesture_witness :
  update_gesture mode_unique
    {| maxlen := 2; buffer := ["A"]; current_gesture := Some "A" |} "B"
  = Ok ({| maxlen := 2; buffer := ["A"; "B"]; current_gesture := Some "A" |}, [])
  /\ observe_all mode_first (init 2) ["A"; "B"]
     = Ok ({| maxlen := 2; buffer := ["A"; "B"]; current_gesture := Some "A" |}, ["A"])
  /\ observe_all mode_unique (init 2) ["A"; "B"]
     = Ok ({| maxlen := 2; buffer := ["A"; "B"]; current_gesture := Some "A" |}, ["A"]).
Proof.
  apply (update_gesture_no_mode_keeps_gesture mode_unique
           {| maxlen := 2; buffer := ["A"]; current_gesture := Some "A" |}
           "B" "A" "B").
  - reflexivity.
  - discriminate.
Defined.

End PicoMessagerClaims.

(** ** Windowing *)

Section WindowingClaims.

Import Windowing.
Context {F : Type}.
Implicit Types (data : ndarray2 F).

Lemma foldl_snoc_map {A B} (f : A -> B) (l : list A) (acc : list B) :
  foldl (fun ws s => ws ++ [f s]) acc l = acc ++ map f l.
Proof.
  revert acc. induction l as [|s l IH]; intros acc; simpl.
  - by rewrite app_nil_r.
  - rewrite IH. by rewrite <- app_assoc.
Qed.

(** For a positive step, [range(0, stop, step)] is the multiples of
    [step] below [stop]. *)
Lemma range_from_zero (stop step : Z) :
  1 <= step ->
  exists starts,
    Py.range 0 stop step = Ok starts /\
    Forall (fun s => 0 <= s < stop) starts /\
    Z.of_nat (length starts) = (if 0 <? stop then (stop - 1) / step + 1 else 0).
Proof.
  intros Hstep. unfold Py.range, Py.range_len.
  destruct (Z.eqb_spec step 0); [lia|].
  destruct (Z.ltb_spec 0 step); [|lia].
  eexists; split; [reflexivity|].
  rewrite length_map, length_seq, Z.sub_0_r. split.
  - apply List.Forall_map, List.Forall_forall. intros i Hi.
    apply in_seq in Hi. destruct (Z.ltb_spec 0 stop); [|simpl in Hi; lia].
    assert (0 <= (stop - 1) / step) by (apply Z.div_pos; lia).
    assert (Z.of_nat i <= (stop - 1) / step) by lia.
    assert (step * ((stop - 1) / step) <= stop - 1)
      by (apply Z.mul_div_le; lia).
    nia.
  - destruct (Z.ltb_spec 0 stop); [|done].
    assert (0 <= (stop - 1) / step) by (apply Z.div_pos; lia). lia.
Qed.

Lemma slice_length {A} (l : list A) (s w : Z) :
  0 <= s -> 0 <= w -> s + w <= Z.of_nat (length l) ->
  length (Py.slice l (Some s) (Some (s + w))) = Z.to_nat w.
Proof.
  intros Hs Hw Hle. unfold Py.slice.
  rewrite !bound_in_range by lia.
  rewrite length_take, length_drop. lia.
Qed.

Lemma slice_cols_width data (s w : Z) :
  rectangular data ->
  0 <= s -> 0 <= w -> s + w <= Z.of_nat (ncols data) ->
  let window := slice_cols data (Some s) (Some (s + w)) in
  ncols window = Z.to_nat w /\ rectangular window
  /\ length (rows window) = length (rows data).
Proof.
  intros Hrect Hs Hw Hle. unfold slice_cols, rectangular, slice_len. simpl.
  rewrite !bound_in_range by lia.
  split; [lia|]. split; [|by rewrite length_map].
  apply List.Forall_map. eapply Forall_impl; [exact Hrect|].
  intros r Hr. simpl in *. rewrite slice_length by lia. lia.
Qed.

(** C4. On a block of 1000 samples per channel, a window of 400 and a
    step of 200 give exactly the 4 windows that start at 0, 200, 400 and
    600, each 400 samples wide. In general (window size not negative,
    step at least 1) the windows are the slices that start at the
    multiples of the step and lie entirely inside the block, each exactly
    [window_size] wide: a remainder shorter than the window yields no
    window and nothing is padded. *)
Theorem sliding_window_drops_remainder
    (block data : ndarray2 F) (window_size step_size : Z) :
  rectangular block -> ncols block = 1000%nat ->
  rectangular data -> 0 <= window_size -> 1 <= step_size ->
  (window_starts 1000 400 200 = Ok [0; 200; 400; 600] /\
   sliding_window block 400 200
   = Ok [slice_cols block (Some 0) (Some 400);
         slice_cols block (Some 200) (Some 600);
         slice_cols block (Some 400) (Some 800);
         slice_cols block (Some 600) (Some 1000)] /\
   Forall (fun w => ncols w = 400%nat /\ rectangular w
                    /\ length (rows w) = length (rows block))
          [slice_cols block (Some 0) (Some 400);
           slice_cols block (Some 200) (Some 600);
           slice_cols block (Some 400) (Some 800);
           slice_cols block (Some 600) (Some 1000)])
  /\
  (exists starts windows,
     window_starts (ncols data) window_size step_size = Ok starts /\
     sliding_window data window_size step_size = Ok windows /\
     windows = map (fun s => slice_cols data (Some s) (Some (s + window_size))) starts /\
     Forall (fun s => 0 <= s /\ s + window_size <= Z.of_nat (ncols data)) starts /\
     Forall (fun w => ncols w = Z.to_nat window_size /\ rectangular w
                      /\ length (rows w) = length (rows data)) windows /\
     Z.of_nat (length windows)
     = (if window_size <=? Z.of_nat (ncols data)
        then (Z.of_nat (ncols data) - window_size) / step_size + 1 else 0)).
Proof.
  intros Hb Hnb Hd Hw Hstep. split.
  - split; [reflexivity|]. split.
    + unfold sliding_window, shape. rewrite Hnb. reflexivity.
    + repeat apply Forall_cons_2; try apply Forall_nil_2.
      * apply (slice_cols_width block 0 400); (done || rewrite ?Hnb; lia).
      * apply (slice_cols_width block 200 400); (done || rewrite ?Hnb; lia).
      * apply (slice_cols_width block 400 400); (done || rewrite ?Hnb; lia).
      * apply (slice_cols_width block 600 400); (done || rewrite ?Hnb; lia).
  - destruct (range_from_zero (Z.of_nat (ncols data) - window_size + 1)
                step_size Hstep) as (starts & Hr & Hin & Hlen).
    exists starts. eexists. unfold sliding_window, window_starts, shape.
    rewrite Hr. simpl. rewrite foldl_snoc_map. simpl.
    split; [done|]. split; [done|]. split; [done|].
    assert (Hin' : Forall (fun s => 0 <= s /\ s + window_size
                                          <= Z.of_nat (ncols data)) starts).
    { eapply Forall_impl; [exact Hin|]. intros s Hs. simpl in *. lia. }
    split; [done|]. split.
    + apply List.Forall_map. eapply Forall_impl; [exact Hin'|].
      intros s Hs. simpl in *. apply slice_cols_width; (done || lia).
    + rewrite length_map, Hlen.
      destruct (Z.ltb_spec 0 (Z.of_nat (ncols data) - window_size + 1));
        destruct (Z.leb_spec window_size (Z.of_nat (ncols data))); try lia.
      do 2 f_equal. lia.
Qed.

End WindowingClaims.

(** ** Wavelet features *)

Section FeatureClaims.

Import Emg.
Local Open Scope R_scope.

Lemma descriptors_length coeff ds :
  descriptors coeff = Ok ds -> length ds = 19%nat.
Proof.
  unfold descriptors. destruct (np_min coeff); simpl; [|done].
  destruct (np_max coeff); simpl; [|done].
  by intros [= <-].
Qed.

Lemma descriptors_defined coeff :
  coeff <> [] -> exists ds, descriptors coeff = Ok ds.
Proof.
  intros H. destruct coeff as [|c coeff]; [done|].
  unfold descriptors. simpl. eauto.
Qed.

Lemma descriptors_IALV coeff ds :
  descriptors coeff = Ok ds -> ds !! 15%nat = Some (IALV coeff).
Proof.
  unfold descriptors. destruct (np_min coeff); simpl; [|done].
  destruct (np_max coeff); simpl; [|done].
  by intros [= <-].
Qed.

Section WaveletFacts.

Variable dwt : list R -> result (list R * list R).

Lemma wavedec_loop_length level : forall a acc coeffs,
  wavedec_loop dwt level a acc = Ok coeffs ->
  length coeffs = (length acc + level + 1)%nat.
Proof.
  induction level as [|k IH]; intros a acc coeffs; simpl.
  - intros [= <-]. rewrite length_reverse, length_app. simpl. lia.
  - destruct (dwt a) as [[a' d]|e]; simpl; [|done].
    intros H. apply IH in H. rewrite length_app in H. simpl in H. lia.
Qed.

(** The loop over the components of one channel adds 19 values for
    each. *)
Lemma component_loop_length coeffs : forall acc r,
  for_ coeffs (fun wf coeff => ds ← descriptors coeff; Ok (wf ++ ds)) acc = Ok r ->
  length r = (length acc + 19 * length coeffs)%nat.
Proof.
  induction coeffs as [|c coeffs IH]; intros acc r; simpl.
  - intros [= <-]. lia.
  - destruct (descriptors c) as [ds|e] eqn:E; simpl; [|done].
    intros H. apply IH in H. rewrite length_app in H.
    apply descriptors_length in E. lia.
Qed.

(** The loop over the channels adds 3 components of 19 values for
    each. *)
Lemma channel_loop_length chans : forall acc r,
  for_ chans
       (fun wf channel_data =>
          coeffs ← wavedec dwt channel_data 2;
          for_ coeffs (fun wf coeff => ds ← descriptors coeff; Ok (wf ++ ds)) wf)
       acc = Ok r ->
  length r = (length acc + length chans * 3 * 19)%nat.
Proof.
  induction chans as [|ch chans IH]; intros acc r; simpl.
  - intros [= <-]. lia.
  - destruct (wavedec dwt ch 2) as [coeffs|e] eqn:E; simpl; [|done].
    destruct (for_ coeffs _ acc) as [acc'|e] eqn:E'; simpl; [|done].
    intros H. apply IH in H. apply component_loop_length in E'.
    apply wavedec_loop_length in E. simpl in E. lia.
Qed.

Lemma window_features_length window v :
  window_features dwt window = Ok v ->
  length v = (ncols window * 3 * 19)%nat.
Proof.
  unfold window_features. intros H. apply channel_loop_length in H.
  unfold transpose in H. simpl in H.
  rewrite length_map, length_seq in H. done.
Qed.

Lemma wavedec2_defined x :
  dwt_defined dwt -> x <> [] ->
  exists c2 d2 d1, wavedec dwt x 2 = Ok [c2; d2; d1]
                   /\ c2 <> [] /\ d2 <> [] /\ d1 <> [].
Proof.
  intros Hd Hx. destruct (Hd x Hx) as (a1 & d1 & E1 & Ha1 & Hd1).
  destruct (Hd a1 Ha1) as (a2 & d2 & E2 & Ha2 & Hd2).
  exists a2, d2, d1. unfold wavedec. simpl. rewrite E1. simpl.
  rewrite E2. simpl. done.
Qed.

Lemma component_loop_defined coeffs : forall acc,
  Forall (fun c => c <> []) coeffs ->
  exists r, for_ coeffs (fun wf coeff => ds ← descriptors coeff; Ok (wf ++ ds)) acc = Ok r.
Proof.
  induction coeffs as [|c coeffs IH]; intros acc Hne; simpl; [eauto|].
  apply Forall_cons in Hne as [Hc Hne].
  destruct (descriptors_defined c Hc) as (ds & ->). simpl. by apply IH.
Qed.

Lemma channel_loop_defined chans : forall acc,
  dwt_defined dwt -> Forall (fun c => c <> []) chans ->
  exists r,
    for_ chans
         (fun wf channel_data =>
            coeffs ← wavedec dwt channel_data 2;
            for_ coeffs (fun wf coeff => ds ← descriptors coeff; Ok (wf ++ ds)) wf)
         acc = Ok r.
Proof.
  induction chans as [|ch chans IH]; intros acc Hd Hne; simpl; [eauto|].
  apply Forall_cons in Hne as [Hc Hne].
  destruct (wavedec2_defined ch Hd Hc) as (c2 & d2 & d1 & -> & H2 & H2' & H1).
  simpl.
  destruct (component_loop_defined [c2; d2; d1] acc) as (acc' & E).
  { by repeat apply Forall_cons_2. }
  simpl in E. rewrite E. simpl. by apply IH.
Qed.

Lemma window_features_defined window :
  dwt_defined dwt -> rows window <> [] ->
  exists v, window_features dwt window = Ok v.
Proof.
  intros Hd Hne. unfold window_features. apply channel_loop_defined; [done|].
  unfold transpose. simpl. apply List.Forall_map, List.Forall_forall.
  intros j _. by destruct (rows window).
Qed.

Lemma window_loop_lengths (emg_data : ndarray2 R) (window_size : Z) (n : nat)
    starts : forall acc feats,
  for_ starts
       (fun features start =>
          let window := Windowing.slice_rows emg_data (Some start)
                          (Some (start + window_size)%Z) in
          wf ← window_features dwt window;
          Ok (features ++ [wf]))
       acc = Ok feats ->
  n = (ncols emg_data * 3 * 19)%nat ->
  Forall (fun v => length v = n) acc ->
  Forall (fun v => length v = n) feats.
Proof.
  induction starts as [|s starts IH]; intros acc feats; simpl.
  - by intros [= <-].
  - destruct (window_features dwt _) as [wf|e] eqn:E; simpl; [|done].
    intros H Hn Hacc. apply (IH _ _ H Hn).
    apply Forall_app. split; [done|]. apply Forall_cons_2; [|done].
    apply window_features_length in E. simpl in E. lia.
Qed.

End WaveletFacts.

Lemma haar_pairs_nonempty x l : haar_pairs (x :: l) <> [].
Proof. by destruct l. Qed.

Lemma haar_dwt_defined : dwt_defined haar_dwt.
Proof.
  intros [|x l] Hx; [done|].
  eexists _, _. split; [reflexivity|].
  pose proof (haar_pairs_nonempty x l) as H.
  destruct (haar_pairs (x :: l)); done.
Qed.

(** C5. In rich mode the feature vector of a window has exactly
    [channels * 3 * 19] items, whatever the samples are: this holds of
    the vector of one window, and of every row
    [extract_wavelet_features] returns. The vector exists as soon as
    the window has a sample and the wavelet transform gives its
    coefficient arrays. *)
Theorem rich_feature_vector_length
    (dwt : list R -> result (list R * list R))
    (window emg_data : ndarray2 R) (window_size overlap : Z) :
  (forall v, window_features dwt window = Ok v ->
             length v = (ncols window * 3 * 19)%nat)
  /\ (forall feats,
        extract_wavelet_features dwt emg_data window_size overlap = Ok feats ->
        Forall (fun v => length v = (ncols emg_data * 3 * 19)%nat) feats)
  /\ (dwt_defined dwt -> rows window <> [] ->
      exists v, window_features dwt window = Ok v
                /\ length v = (ncols window * 3 * 19)%nat).
Proof.
  split; [|split].
  - apply window_features_length.
  - intros feats. unfold extract_wavelet_features, shape.
    destruct (Py.range _ _ _) as [starts|e]; simpl; [|done].
    intros H. by apply (window_loop_lengths dwt _ _ _ _ _ _ H).
  - intros Hd Hne. destruct (window_features_defined dwt window Hd Hne) as (v & E).
    exists v. split; [done|]. by apply window_features_length in E.
Qed.

Lemma rich_feature_vector_length_witness :
  exists v,
    window_features haar_dwt (mk_ndarray2 [[1; 2]; [3; 4]; [5; 6]; [7; 8]] 2) = Ok v
    /\ length v = (2 * 3 * 19)%nat.
Proof.
  apply (rich_feature_vector_length haar_dwt
           (mk_ndarray2 [[1; 2]; [3; 4]; [5; 6]; [7; 8]] 2)
           (mk_ndarray2 [[1; 2]; [3; 4]; [5; 6]; [7; 8]] 2) 4 2).
  - exact haar_dwt_defined.
  - discriminate.
Defined.

End FeatureClaims.

Section LogDescriptor.

Import Emg.
Local Open Scope R_scope.

Lemma log_eps_pos : 0 < log_eps.
Proof. unfold log_eps. lra. Qed.

Lemma np_log_pos x : 0 < x -> np_log x = Finite (ln x).
Proof. intros H. unfold np_log. by destruct (Rlt_dec 0 x). Qed.

Lemma np_log_zero : np_log 0 = NegInf.
Proof.
  unfold np_log. destruct (Rlt_dec 0 0) as [H|_]; [lra|].
  by destruct (Req_dec_T 0 0).
Qed.

Lemma log_arguments_pos coeff : Forall (fun x => 0 < x) (log_arguments coeff).
Proof.
  unfold log_arguments, np_abs. rewrite List.map_map.
  apply List.Forall_map, List.Forall_forall. intros x _.
  pose proof (Rabs_pos x). pose proof log_eps_pos. lra.
Qed.

Lemma np_sum_ext_finite (l : list R) :
  Forall (fun x => 0 < x) l ->
  np_sum_ext (map np_log l) = Finite (np_sum (map ln l)).
Proof.
  induction 1 as [|x l Hx _ IH]; [done|].
  change (np_sum_ext (map np_log (x :: l)))
    with (np_add (np_log x) (np_sum_ext (map np_log l))).
  rewrite IH, np_log_pos by done. done.
Qed.

(** Without the epsilon the same sum is minus infinity on a window of
    zeros: the model of the logarithm does tell the two apart. *)
Lemma log_without_epsilon_diverges (n : nat) :
  np_sum_ext (map np_log (np_abs (replicate (S n) 0))) = NegInf.
Proof.
  induction n as [|n IH].
  - simpl. rewrite Rabs_R0, np_log_zero. done.
  - change (replicate (S (S n)) 0) with (0 :: replicate (S n) 0).
    change (np_sum_ext (map np_log (np_abs (0 :: replicate (S n) 0))))
      with (np_add (np_log (Rabs 0))
              (np_sum_ext (map np_log (np_abs (replicate (S n) 0))))).
    rewrite IH, Rabs_R0, np_log_zero. done.
Qed.

(** C9. The logarithm descriptor adds the epsilon 1e-6 to the absolute
    value of every sample of the component before the logarithm is
    taken: every argument of the logarithm is strictly positive, and the
    descriptor is a finite number for every component, the all-zero one
    included (where it is [n * ln 1e-6]); it is the 16th descriptor
    that [extract_wavelet_features] computes. *)
Theorem log_descriptor_finite (coeff : list R) (n : nat) :
  log_eps = 1e-6
  /\ log_arguments coeff = map (fun x => Rabs x + 1e-6) coeff
  /\ Forall (fun x => 0 < x) (log_arguments coeff)
  /\ IALV coeff = Finite (np_sum (map (fun x => ln (Rabs x + 1e-6)) coeff))
  /\ IALV (replicate n 0) = Finite (INR n * ln 1e-6)
  /\ (forall ds, descriptors coeff = Ok ds -> ds !! 15%nat = Some (IALV coeff)).
Proof.
  split; [done|]. split.
  { unfold log_arguments, np_abs. by rewrite List.map_map. }
  split; [apply log_arguments_pos|]. split.
  { unfold IALV. rewrite np_sum_ext_finite by apply log_arguments_pos.
    unfold log_arguments, np_abs. by rewrite !List.map_map. }
  split; [|apply descriptors_IALV].
  unfold IALV. rewrite np_sum_ext_finite by apply log_arguments_pos.
  f_equal. unfold log_arguments, np_abs. rewrite !List.map_map.
  induction n as [|n IH]; [simpl; lra|].
  change (replicate (S n) 0) with (0 :: replicate n 0).
  simpl map. simpl np_sum. rewrite IH, S_INR, Rabs_R0, Rplus_0_l.
  unfold log_eps. lra.
Qed.

End LogDescriptor.

(** ** Conditioning stages and the store *)

Section StoreFacts.

Import Emg.
Local Open Scope R_scope.

Lemma fresh_unallocated (h : heap) : h !! fresh (dom h) = None.
Proof. apply not_elem_of_dom, is_fresh. Qed.

Lemma alloc_eq (a : ndarray2 R) (h : heap) :
  alloc a h = (<[fresh (dom h) := a]> h, Ok (mk_aref (fresh (dom h)) None)).
Proof. done. Qed.

Lemma preserves_alloc a : preserves (alloc a).
Proof. intros h. simpl. apply insert_subseteq, fresh_unallocated. Qed.

Lemma preserves_load r : preserves (load r).
Proof. intros h. unfold load. by destruct (read h r). Qed.

Lemma preserves_lift {A} (r : result A) : preserves (lift r).
Proof. intros h. done. Qed.

Lemma preserves_ret {A} (a : A) : preserves (mret a : M A).
Proof. intros h. done. Qed.

Lemma preserves_bind {A B} (m : M A) (k : A -> M B) :
  preserves m -> (forall a, preserves (k a)) -> preserves (m ≫= k).
Proof.
  intros Hm Hk h. unfold mbind, M_bind.
  specialize (Hm h). destruct (m h) as [h' [a|e]]; simpl in *; [|done].
  etrans; [exact Hm|]. apply Hk.
Qed.

Lemma read_owner (h : heap) (l : loc) : read h (mk_aref l None) = h !! l.
Proof. unfold read. simpl. by destruct (h !! l). Qed.

Lemma read_Some (h : heap) (r : aref) (a : ndarray2 R) :
  read h r = Some a <-> exists b, h !! buf r = Some b /\ seen b (view r) = Some a.
Proof.
  unfold read. destruct (h !! buf r) as [b|]; simpl.
  - split; [eauto|]. by intros (b' & [= <-] & H).
  - split; [done|]. by intros (b' & H & _).
Qed.

(** An array reads the same in every store that keeps its buffer. *)
Lemma read_weaken (h h' : heap) (r : aref) (a : ndarray2 R) :
  h ⊆ h' -> read h r = Some a -> read h' r = Some a.
Proof.
  intros Hsub (b & Hb & Hs)%read_Some. apply read_Some. exists b.
  split; [|done]. eapply lookup_weaken; eauto.
Qed.

Lemma load_eq (r : aref) (h : heap) a :
  read h r = Some a -> load r h = (h, Ok a).
Proof. intros H. unfold load. by rewrite H. Qed.

Lemma bind_ok {A B} (m : M A) (k : A -> M B) (h h' : heap) a :
  m h = (h', Ok a) -> (m ≫= k) h = k a h'.
Proof. intros H. unfold mbind, M_bind. by rewrite H. Qed.

Lemma returns_new_alloc a : returns_new (alloc a).
Proof.
  intros h r [= <-]. simpl. split; [done|]. split; [apply fresh_unallocated|].
  rewrite lookup_insert_eq. eauto.
Qed.

Lemma returns_new_raise e : returns_new (lift (Raise e)).
Proof. intros h r H. done. Qed.

Lemma returns_new_bind {A} (m : M A) (k : A -> M aref) :
  preserves m -> (forall a, returns_new (k a)) -> returns_new (m ≫= k).
Proof.
  intros Hm Hk h r. unfold mbind, M_bind.
  specialize (Hm h). destruct (m h) as [h' [a|e]]; simpl in *; [|done].
  intros Hr. destruct (Hk a h' r Hr) as (Hv & Hn & Hs).
  split; [done|]. split; [|done].
  destruct (h !! buf r) as [x|] eqn:E; [|done].
  eapply lookup_weaken in E; [|exact Hm]. congruence.
Qed.

(** *** Elements of a buffer *)

Lemma in_cells_spec (c : cell) (w : list cell) : in_cells c w = true <-> c ∈ w.
Proof.
  unfold in_cells. rewrite existsb_exists. split.
  - intros ([i j] & Hin & H). simpl in H.
    apply andb_true_iff in H as [H1%Nat.eqb_eq H2%Nat.eqb_eq].
    destruct c as [i' j']. simpl in *. subst. by apply list_elem_of_In.
  - intros H. exists c. split; [by apply list_elem_of_In|].
    by rewrite !Nat.eqb_refl.
Qed.

Lemma in_cells_false (c : cell) (w : list cell) : in_cells c w = false <-> c ∉ w.
Proof.
  rewrite <- in_cells_spec. destruct (in_cells c w); split; done.
Qed.

Lemma get_set_cells (b : ndarray2 R) (w : list cell) (v : R) (c : cell) :
  get (set_cells b w v) c
  = (fun y => if in_cells c w then v else y) <$> get b c.
Proof.
  destruct c as [i j]. unfold get, set_cells. simpl.
  rewrite list_lookup_imap. destruct (rows b !! i) as [row|]; simpl; [|done].
  rewrite list_lookup_imap. by destruct (row !! j).
Qed.

Lemma elem_of_concat {A} (x : A) (L : list (list A)) :
  x ∈ concat L <-> exists l, l ∈ L /\ x ∈ l.
Proof.
  induction L as [|l0 L IH]; simpl.
  - split; [by intros ?%elem_of_nil|]. by intros (l & ?%elem_of_nil & _).
  - rewrite elem_of_app, IH. split.
    + intros [H|(l & H1 & H2)].
      * exists l0. split; [apply list_elem_of_here|done].
      * exists l. split; [by apply list_elem_of_further|done].
    + intros (l & [->|H1]%elem_of_cons & H2); [by left|]. right. eauto.
Qed.

Lemma NoDup_concat_row {A} (L : list (list A)) (k : nat) (l : list A) :
  NoDup (concat L) -> L !! k = Some l -> NoDup l.
Proof.
  revert k. induction L as [|l0 L IH]; intros k Hnd Hk; [done|].
  simpl in Hnd. apply NoDup_app in Hnd as (H1 & _ & H3).
  destruct k as [|k]; simpl in Hk; [by injection Hk as <-|]. eauto.
Qed.

Lemma NoDup_concat_rows {A} (L : list (list A)) (k k' : nat) (l l' : list A) (x : A) :
  NoDup (concat L) -> L !! k = Some l -> L !! k' = Some l' ->
  x ∈ l -> x ∈ l' -> k = k'.
Proof.
  revert k k'. induction L as [|l0 L IH]; intros k k' Hnd Hk Hk' Hx Hx'; [done|].
  simpl in Hnd. apply NoDup_app in Hnd as (H1 & H2 & H3).
  destruct k as [|k], k' as [|k']; simpl in *; [done| | |f_equal; eauto].
  - injection Hk as <-. exfalso. apply (H2 x Hx).
    apply elem_of_concat. exists l'. split; [|done].
    by eapply list_elem_of_lookup_2.
  - injection Hk' as <-. exfalso. apply (H2 x Hx').
    apply elem_of_concat. exists l. split; [|done].
    by eapply list_elem_of_lookup_2.
Qed.

End StoreFacts.

Section CellFacts.

Import Emg.
Local Open Scope R_scope.

Lemma mapM_get_set_cells (b : ndarray2 R) (w : list cell) (v : R)
    (cs : list cell) (row : list R) :
  mapM (get b) cs = Some row ->
  mapM (get (set_cells b w v)) cs
  = Some (zip_with (fun c y => if in_cells c w then v else y) cs row).
Proof.
  intros H%mapM_Some_1. apply mapM_Some_2.
  induction H as [|c y cs row Hc _ IH]; simpl; constructor; [|done].
  by rewrite get_set_cells, Hc.
Qed.

Lemma zip_cells_keep (w : list cell) (v : R) (cs : list cell) (row : list R) :
  length cs = length row ->
  (forall c, c ∈ cs -> c ∉ w) ->
  zip_with (fun c y => if in_cells c w then v else y) cs row = row.
Proof.
  revert row. induction cs as [|c cs IH]; intros [|y row] Hlen Hw;
    simpl in *; try done.
  assert (in_cells c w = false) as ->.
  { apply in_cells_false, Hw, list_elem_of_here. }
  f_equal. apply IH; [lia|]. intros c' Hc'.
  by apply Hw, list_elem_of_further.
Qed.

Lemma zip_cells_set (w : list cell) (v : R) (cs : list cell) (row : list R) :
  length cs = length row ->
  (forall c, c ∈ cs -> c ∈ w) ->
  zip_with (fun c y => if in_cells c w then v else y) cs row
  = replicate (length row) v.
Proof.
  revert row. induction cs as [|c cs IH]; intros [|y row] Hlen Hw;
    simpl in *; try done.
  assert (in_cells c w = true) as ->.
  { apply in_cells_spec, Hw, list_elem_of_here. }
  f_equal. apply IH; [lia|]. intros c' Hc'.
  by apply Hw, list_elem_of_further.
Qed.

Lemma slice_bounds {A B} (l : list A) (k : list B) (lo hi : option Z) :
  length l = length k ->
  Py.slice l lo hi
  = take ((match hi with Some i => Py.bound (length k) i | None => length k end)
          - (match lo with Some i => Py.bound (length k) i | None => 0%nat end))
         (drop (match lo with Some i => Py.bound (length k) i | None => 0%nat end) l).
Proof. intros H. unfold Py.slice. by rewrite H. Qed.

Lemma bound_le (n : nat) (i : Z) : (Py.bound n i <= n)%nat.
Proof. unfold Py.bound. destruct (Z.ltb_spec i 0); lia. Qed.

Lemma elem_of_take_1 {A} (n : nat) (l : list A) (x : A) : x ∈ take n l -> x ∈ l.
Proof.
  intros H. rewrite <- (take_drop n l). apply elem_of_app. by left.
Qed.

Lemma elem_of_drop_1 {A} (n : nat) (l : list A) (x : A) : x ∈ drop n l -> x ∈ l.
Proof.
  intros H. rewrite <- (take_drop n l). apply elem_of_app. by right.
Qed.

Lemma elem_of_slice {A} (l : list A) (lo hi : option Z) (x : A) :
  x ∈ Py.slice l lo hi -> x ∈ l.
Proof.
  unfold Py.slice. intros H%elem_of_take_1%elem_of_drop_1. done.
Qed.

(** A row of cells that are distinct, after the cells behind its columns
    [lo:hi], and possibly cells of other rows, were overwritten. *)
Lemma zip_cells_assign (w : list cell) (v : R) (cs : list cell) (row : list R)
    (lo hi : option Z) :
  length cs = length row ->
  NoDup cs ->
  (forall c, c ∈ Py.slice cs lo hi -> c ∈ w) ->
  (forall c, c ∈ cs -> c ∈ w -> c ∈ Py.slice cs lo hi) ->
  zip_with (fun c y => if in_cells c w then v else y) cs row
  = assign_slice row lo hi v.
Proof.
  intros Hlen Hnd Hin Hout. rewrite (slice_bounds cs row) in Hin, Hout by done.
  unfold assign_slice.
  assert (Hb : ((match hi with Some i => Py.bound (length row) i
                 | None => length row end) <= length row)%nat).
  { destruct hi; [apply bound_le|done]. }
  set (a := match lo with Some i => Py.bound (length row) i | None => 0%nat end) in *.
  set (b := match hi with Some i => Py.bound (length row) i
            | None => length row end) in *.
  clearbody a b.
  destruct (Nat.leb_spec b a) as [Hba|Hab].
  - apply zip_cells_keep; [done|]. intros c Hc Hw.
    specialize (Hout c Hc Hw). replace (b - a)%nat with 0%nat in Hout by lia.
    by apply elem_of_nil in Hout.
  - rewrite <- (take_drop a cs) at 1. rewrite <- (take_drop a cs) in Hnd.
    rewrite <- (take_drop (b - a) (drop a cs)) at 1.
    rewrite <- (take_drop (b - a) (drop a cs)) in Hnd.
    rewrite <- (take_drop a row) at 1.
    rewrite <- (take_drop (b - a) (drop a row)) at 1.
    rewrite !drop_drop in *. replace (a + (b - a))%nat with b in * by lia.
    apply NoDup_app in Hnd as (_ & Hd1 & Hnd).
    apply NoDup_app in Hnd as (_ & Hd2 & _).
    rewrite !zip_with_app by (rewrite ?length_take, ?length_drop; lia).
    f_equal; [|f_equal].
    + apply zip_cells_keep; [rewrite !length_take; lia|].
      intros c Hc Hw. apply (Hd1 c Hc). apply elem_of_app. left.
      apply Hout; [|done]. by apply elem_of_take_1 in Hc.
    + rewrite zip_cells_set.
      * f_equal. rewrite length_take, length_drop. lia.
      * rewrite !length_take, !length_drop. lia.
      * done.
    + apply zip_cells_keep; [rewrite !length_drop; lia|].
      intros c Hc Hw. assert (Hs := Hout c (elem_of_drop_1 _ _ _ Hc) Hw).
      by apply (Hd2 c Hs).
Qed.

(** An array whose elements are distinct elements of the buffer shows,
    after an assignment to its columns [lo:hi], what the same assignment
    makes of its values. *)
Lemma seen_set_cells (b a : ndarray2 R) (m : view_map) (lo hi : option Z) (v : R) :
  seen b (Some m) = Some a ->
  NoDup (concat (cells m)) ->
  seen (set_cells b (cols_cells (cells m) lo hi) v) (Some m)
  = Some (assign_cols a lo hi v).
Proof.
  unfold seen. intros Hs Hnd.
  destruct (mapM (mapM (get b)) (cells m)) as [rs|] eqn:E; simpl in Hs; [|done].
  injection Hs as <-. unfold assign_cols. simpl.
  apply mapM_Some_1 in E.
  erewrite mapM_Some_2; [reflexivity|].
  apply Forall2_fmap_r.
  apply Forall2_same_length_lookup. split; [by eapply Forall2_length|].
  intros k cs row Hcs Hrow.
  pose proof (Forall2_lookup_lr _ _ _ _ _ _ E Hcs Hrow) as Hget. simpl in Hget.
  rewrite (mapM_get_set_cells _ _ _ _ _ Hget). f_equal.
  apply zip_cells_assign.
  - by eapply length_mapM.
  - by eapply NoDup_concat_row.
  - intros c Hc. apply elem_of_concat. exists (Py.slice cs lo hi).
    split; [|done]. apply (list_elem_of_fmap_2 (fun r => Py.slice r lo hi)).
    by eapply list_elem_of_lookup_2.
  - intros c Hc (l & Hl & Hcl)%elem_of_concat.
    apply list_elem_of_fmap in Hl as (cs' & -> & Hcs').
    apply list_elem_of_lookup in Hcs' as (k' & Hk').
    assert (k = k') as <-.
    { eapply (NoDup_concat_rows (cells m)); eauto. by eapply elem_of_slice. }
    by replace cs with cs' by congruence.
Qed.

End CellFacts.

Section ViewFacts.

Import Emg.
Local Open Scope R_scope.

Lemma seen_own (b : ndarray2 R) :
  mapM (mapM (get b)) (own_cells b) = Some (rows b).
Proof.
  apply mapM_Some_2, Forall2_same_length_lookup_2.
  { unfold own_cells. by rewrite length_imap. }
  intros i cs row Hcs Hrow. unfold own_cells in Hcs.
  rewrite list_lookup_imap, Hrow in Hcs. injection Hcs as <-.
  apply mapM_Some_2, Forall2_same_length_lookup_2; [by rewrite length_imap|].
  intros j c y Hc Hy. rewrite list_lookup_imap, Hy in Hc. injection Hc as <-.
  unfold get. simpl. by rewrite Hrow.
Qed.

Lemma NoDup_concat_by_row (L : list (list cell)) (o : nat) :
  Forall (NoDup (A:=cell)) L ->
  (forall k cs c, L !! k = Some cs -> c ∈ cs -> c.1 = (o + k)%nat) ->
  NoDup (concat L).
Proof.
  revert o. induction L as [|l0 L IH]; intros o Hnd Hrow; simpl; [constructor|].
  apply Forall_cons in Hnd as [H0 Hnd]. apply NoDup_app. split; [done|]. split.
  - intros c Hc (l & Hl & Hcl)%elem_of_concat.
    apply list_elem_of_lookup in Hl as (k & Hk).
    pose proof (Hrow 0%nat l0 c eq_refl Hc) as E1.
    pose proof (Hrow (S k) l c Hk Hcl) as E2. lia.
  - apply (IH (S o) Hnd). intros k cs c Hk Hc.
    rewrite (Hrow (S k) cs c Hk Hc). lia.
Qed.

Lemma NoDup_own (b : ndarray2 R) : NoDup (concat (own_cells b)).
Proof.
  apply (NoDup_concat_by_row _ 0).
  - apply Forall_lookup. intros i cs Hcs. unfold own_cells in Hcs.
    rewrite list_lookup_imap in Hcs.
    destruct (rows b !! i) as [row|]; [|done]. injection Hcs as <-.
    apply NoDup_alt. intros j1 j2 c H1 H2. rewrite list_lookup_imap in H1, H2.
    destruct (row !! j1), (row !! j2); simpl in *; try done. congruence.
  - intros k cs c Hcs Hc. unfold own_cells in Hcs.
    rewrite list_lookup_imap in Hcs.
    destruct (rows b !! k) as [row|]; [|done]. injection Hcs as <-.
    apply list_elem_of_lookup in Hc as (j & Hj). rewrite list_lookup_imap in Hj.
    destruct (row !! j); [|done]. by injection Hj as <-.
Qed.

Lemma distinct_cells_of (b : ndarray2 R) (w : option view_map) :
  distinct_cells w -> NoDup (concat (cells_of b w)).
Proof. destruct w as [m|]; [done|]. intros _. apply NoDup_own. Qed.

(** Every array, owner or view, shows the elements that [cells_of] names. *)
Lemma seen_cells_of (b a : ndarray2 R) (w : option view_map) :
  seen b w = Some a
  <-> mapM (mapM (get b)) (cells_of b w) = Some (rows a)
      /\ width_of b w = ncols a.
Proof.
  destruct w as [m|]; simpl.
  - destruct (mapM (mapM (get b)) (cells m)) as [rs|]; simpl.
    + split.
      * by intros [= <-].
      * intros [[= H1] H2]. destruct a. simpl in *. by subst.
    + split; [done|]. by intros [? _].
  - rewrite seen_own. split.
    + by intros [= <-].
    + intros [[= H1] H2]. destruct a, b. simpl in *. by subst.
Qed.

Lemma own_cells_set_cells (b : ndarray2 R) (w : list cell) (v : R) :
  own_cells (set_cells b w v) = own_cells b.
Proof.
  unfold own_cells, set_cells. simpl. apply list_eq. intros i.
  rewrite !list_lookup_imap. destruct (rows b !! i) as [row|]; simpl; [|done].
  f_equal. apply list_eq. intros j. rewrite !list_lookup_imap.
  by destruct (row !! j).
Qed.

(** The assignment written for an array that owns its buffer is the one
    written for views, at the elements that the owner shows. *)
Lemma assign_cols_set_cells (b : ndarray2 R) (lo hi : option Z) (v : R) :
  assign_cols b lo hi v = set_cells b (cols_cells (own_cells b) lo hi) v.
Proof.
  set (m := mk_view (own_cells b) (ncols b)).
  set (w := cols_cells (own_cells b) lo hi).
  assert (Hs : seen b (Some m) = Some b).
  { unfold seen, m. cbn [cells width]. rewrite seen_own. by destruct b. }
  pose proof (seen_set_cells b b m lo hi v Hs (NoDup_own b)) as H.
  change (cols_cells (cells m) lo hi) with w in H.
  assert (Hs' : seen (set_cells b w v) (Some m) = Some (set_cells b w v)).
  { pose proof (seen_own (set_cells b w v)) as E.
    rewrite own_cells_set_cells in E.
    unfold seen, m. cbn [cells width]. by rewrite E. }
  congruence.
Qed.

(** After [r[:, lo:hi] = v] every element of the buffer behind those
    columns holds [v] and every other element holds what it held. *)
Lemma get_assign_through (b : ndarray2 R) (w : option view_map)
    (lo hi : option Z) (v : R) (c : cell) :
  get (assign_through b w lo hi v) c
  = (fun y => if in_cells c (cols_cells (cells_of b w) lo hi) then v else y)
      <$> get b c.
Proof.
  destruct w as [m|]; simpl.
  - apply get_set_cells.
  - rewrite assign_cols_set_cells. apply get_set_cells.
Qed.

Lemma seen_assign_through (b a : ndarray2 R) (w : option view_map)
    (lo hi : option Z) (v : R) :
  seen b w = Some a ->
  distinct_cells w ->
  seen (assign_through b w lo hi v) w = Some (assign_cols a lo hi v).
Proof.
  destruct w as [m|]; simpl.
  - apply seen_set_cells.
  - by intros [= <-] _.
Qed.

Lemma mapM_slice {A B} (f : A -> option B) (l : list A) (k : list B)
    (lo hi : option Z) :
  mapM f l = Some k -> mapM f (Py.slice l lo hi) = Some (Py.slice k lo hi).
Proof.
  intros H. pose proof (length_mapM _ _ _ H) as Hlen.
  apply mapM_Some_1 in H. apply mapM_Some_2.
  unfold Py.slice. rewrite Hlen. by apply Forall2_take, Forall2_drop.
Qed.

Lemma sublist_slice {A} (l : list A) (lo hi : option Z) :
  Py.slice l lo hi `sublist_of` l.
Proof.
  unfold Py.slice. etrans; [apply sublist_take|apply sublist_drop].
Qed.

Lemma sublist_concat {A} (L K : list (list A)) :
  Forall2 sublist L K -> concat L `sublist_of` concat K.
Proof.
  induction 1; simpl; [done|]. by apply sublist_app.
Qed.

Lemma sublist_concat_drop {A} (n : nat) (L : list (list A)) :
  concat (drop n L) `sublist_of` concat L.
Proof.
  revert n. induction L as [|l L IH]; intros [|n]; simpl; try done.
  by apply sublist_inserts_l.
Qed.

Lemma sublist_concat_take {A} (n : nat) (L : list (list A)) :
  concat (take n L) `sublist_of` concat L.
Proof.
  revert n. induction L as [|l L IH]; intros [|n]; simpl; try done.
  - apply sublist_nil_l.
  - by apply sublist_app.
Qed.

(** [r[:, lo:hi]] shares the buffer of [r], shows the columns [lo:hi] of
    what [r] shows, and its elements are distinct when those of [r] are. *)
Lemma getitem_cols_view (h : heap) (r : aref) (a : ndarray2 R) (lo hi : option Z) :
  read h r = Some a ->
  exists r',
    getitem_cols r lo hi h = (h, Ok r')
    /\ buf r' = buf r
    /\ read h r' = Some (Windowing.slice_cols a lo hi)
    /\ (distinct_cells (view r) -> distinct_cells (view r')).
Proof.
  intros (b & Hb & Hs)%read_Some. apply seen_cells_of in Hs as [Hs Hw].
  unfold getitem_cols. rewrite Hb. eexists. split; [reflexivity|].
  split; [done|]. split.
  - apply read_Some. exists b. split; [done|]. simpl.
    erewrite mapM_Some_2.
    2:{ apply Forall2_fmap. apply mapM_Some_1 in Hs.
        eapply Forall2_impl; [exact Hs|]. intros cs row Hrow. simpl in *.
        by apply mapM_slice. }
    simpl. unfold Windowing.slice_cols. by rewrite Hw.
  - intros Hd. simpl.
    apply (sublist_NoDup _ (concat (cells_of b (view r))));
      [by apply distinct_cells_of|].
    apply sublist_concat, Forall2_fmap_l, Forall_Forall2_diag, Forall_forall.
    intros cs _. apply sublist_slice.
Qed.

(** [r[lo:hi]] shares the buffer of [r], shows the rows [lo:hi] of what
    [r] shows, and its elements are distinct when those of [r] are. *)
Lemma getitem_rows_view (h : heap) (r : aref) (a : ndarray2 R) (lo hi : option Z) :
  read h r = Some a ->
  exists r',
    getitem_rows r lo hi h = (h, Ok r')
    /\ buf r' = buf r
    /\ read h r' = Some (Windowing.slice_rows a lo hi)
    /\ (distinct_cells (view r) -> distinct_cells (view r')).
Proof.
  intros (b & Hb & Hs)%read_Some. apply seen_cells_of in Hs as [Hs Hw].
  unfold getitem_rows. rewrite Hb. eexists. split; [reflexivity|].
  split; [done|]. split.
  - apply read_Some. exists b. split; [done|]. simpl.
    rewrite (mapM_slice _ _ _ lo hi Hs). simpl.
    unfold Windowing.slice_rows. by rewrite Hw.
  - intros Hd. simpl.
    apply (sublist_NoDup _ (concat (cells_of b (view r))));
      [by apply distinct_cells_of|].
    unfold Py.slice. etrans; [apply sublist_concat_take|apply sublist_concat_drop].
Qed.

End ViewFacts.

Create HintDb preserves.
#[local] Hint Resolve preserves_alloc preserves_load preserves_lift
  preserves_ret : preserves.

Section StageClaims.

Import Emg.
Local Open Scope R_scope.

Lemma add_sub_row (row v : list R) :
  (length row <= length v)%nat ->
  zip_with Rplus (zip_with Rminus row v) v = row.
Proof.
  revert v. induction row as [|x row IH]; intros [|y v] Hlen; simpl in *;
    try done; try lia.
  f_equal; [lra|]. apply IH. lia.
Qed.

Lemma np_mean_axis0_length a : length (np_mean_axis0 a) = ncols a.
Proof. unfold np_mean_axis0. by rewrite length_map, length_seq. Qed.

Lemma add_sub_rows a v :
  rectangular a -> length v = ncols a -> add_rows (sub_rows a v) v = a.
Proof.
  intros Hrect Hv. destruct a as [rs n]. unfold add_rows, sub_rows. simpl in *.
  f_equal. rewrite List.map_map. unfold rectangular in Hrect. simpl in Hrect.
  induction Hrect as [|r rs Hr _ IH]; simpl; [done|].
  rewrite IH, add_sub_row by lia. done.
Qed.

(** C7. For a block of channels by samples, [common_average_reference]
    returns a new array, the block minus its per-sample average over
    the channels, and adding that average back to it gives the block
    again; the arithmetic is that of the real numbers. The block may own
    its buffer or be a view of another array. *)
Theorem car_add_back (h : heap) (emg_data : aref) (a : ndarray2 R) :
  read h emg_data = Some a ->
  rectangular a ->
  exists car_data c,
    common_average_reference emg_data h
    = (<[car_data := c]> h, Ok (mk_aref car_data None))
    /\ h !! car_data = None
    /\ c = sub_rows a (np_mean_axis0 a)
    /\ add_rows c (np_mean_axis0 a) = a.
Proof.
  intros Hl Hrect. eexists _, _. split.
  { unfold common_average_reference.
    rewrite (bind_ok _ _ h h a) by by apply load_eq.
    apply alloc_eq. }
  split; [apply fresh_unallocated|]. split; [done|].
  apply add_sub_rows; [done|apply np_mean_axis0_length].
Qed.

Lemma car_add_back_witness :
  exists car_data c,
    common_average_reference (mk_aref 0 None)
      {[ 0%nat := mk_ndarray2 [[1; 2]; [3; 6]] 2 ]}
    = (<[car_data := c]> {[ 0%nat := mk_ndarray2 [[1; 2]; [3; 6]] 2 ]},
       Ok (mk_aref car_data None))
    /\ ({[ 0%nat := mk_ndarray2 [[1; 2]; [3; 6]] 2 ]} : heap) !! car_data = None
    /\ c = sub_rows (mk_ndarray2 [[1; 2]; [3; 6]] 2)
                    (np_mean_axis0 (mk_ndarray2 [[1; 2]; [3; 6]] 2))
    /\ add_rows c (np_mean_axis0 (mk_ndarray2 [[1; 2]; [3; 6]] 2))
       = mk_ndarray2 [[1; 2]; [3; 6]] 2.
Proof.
  apply (car_add_back {[ 0%nat := mk_ndarray2 [[1; 2]; [3; 6]] 2 ]}
           (mk_aref 0 None) (mk_ndarray2 [[1; 2]; [3; 6]] 2)).
  - rewrite read_owner. apply lookup_singleton_eq.
  - repeat constructor.
Defined.

Lemma bind_ret_r {A} (m : M A) (h : heap) : (m ≫= mret) h = m h.
Proof. unfold mbind, M_bind. by destruct (m h) as [h' [a|e]]. Qed.

Lemma allocates_only_intro (m : M aref) :
  preserves m -> returns_new m -> allocates_only m.
Proof.
  intros Hp Hn. split; [done|]. split; [|done].
  intros h u x. apply read_weaken, Hp.
Qed.

Lemma preserves_rectify_emg r : preserves (rectify_emg r).
Proof. apply preserves_bind; auto with preserves. Qed.

Lemma returns_new_rectify_emg r : returns_new (rectify_emg r).
Proof.
  apply returns_new_bind; [auto with preserves|].
  intros a. apply returns_new_alloc.
Qed.

Lemma preserves_common_average_reference r :
  preserves (common_average_reference r).
Proof. apply preserves_bind; auto with preserves. Qed.

Lemma returns_new_common_average_reference r :
  returns_new (common_average_reference r).
Proof.
  apply returns_new_bind; [auto with preserves|].
  intros a. apply returns_new_alloc.
Qed.

Section Library.

Variable butter : Z -> list R -> string -> result (list R * list R).
Variable filtfilt : list R -> list R -> ndarray2 R -> Z -> result (ndarray2 R).
Variable hilbert : ndarray2 R -> Z -> result (list (list (R * R))).

Lemma preserves_butter_bandpass_filter r lowcut highcut fs order axis :
  preserves (butter_bandpass_filter butter filtfilt r lowcut highcut fs order axis).
Proof.
  repeat (apply preserves_bind; [auto with preserves|intros ?]).
  auto with preserves.
Qed.

Lemma preserves_butter_lowpass_filter r cutoff fs order axis :
  preserves (butter_lowpass_filter butter filtfilt r cutoff fs order axis).
Proof.
  repeat (apply preserves_bind; [auto with preserves|intros ?]).
  auto with preserves.
Qed.

Lemma preserves_filter_emg r filter_type lowcut highcut fs order :
  preserves (filter_emg butter filtfilt r filter_type lowcut highcut fs order).
Proof.
  apply preserves_bind.
  - destruct (String.eqb _ _); [apply preserves_butter_bandpass_filter|].
    destruct (String.eqb _ _); [apply preserves_butter_lowpass_filter|].
    auto with preserves.
  - intros ?. apply preserves_bind; auto with preserves.
Qed.

Lemma returns_new_filter_emg r filter_type lowcut highcut fs order :
  returns_new (filter_emg butter filtfilt r filter_type lowcut highcut fs order).
Proof.
  apply returns_new_bind.
  - destruct (String.eqb _ _); [apply preserves_butter_bandpass_filter|].
    destruct (String.eqb _ _); [apply preserves_butter_lowpass_filter|].
    auto with preserves.
  - intros ?. apply returns_new_bind; [auto with preserves|].
    intros ?. apply returns_new_alloc.
Qed.

Lemma preserves_envelope_extraction r method :
  preserves (envelope_extraction hilbert r method).
Proof.
  unfold envelope_extraction. destruct (String.eqb _ _); [|auto with preserves].
  repeat (apply preserves_bind; [auto with preserves|intros ?]).
  auto with preserves.
Qed.

Lemma returns_new_envelope_extraction r method :
  returns_new (envelope_extraction hilbert r method).
Proof.
  unfold envelope_extraction.
  destruct (String.eqb _ _); [|apply returns_new_raise].
  repeat (apply returns_new_bind; [auto with preserves|intros ?]).
  apply returns_new_alloc.
Qed.

(** After the in-place assignment the pipeline only adds arrays. *)
Lemma process_emg_pipeline_store data lowcut highcut order window_size
    (h : heap) b :
  h !! buf (amplifier_data data) = Some b ->
  <[buf (amplifier_data data) :=
      assign_through b (view (amplifier_data data))
        (Some (- board_dig_in_sample_rate data)%Z) None 0]> h
  ⊆ fst (process_emg_pipeline butter filtfilt hilbert data lowcut highcut
           order window_size h).
Proof.
  intros Hl. unfold process_emg_pipeline.
  erewrite bind_ok; [|unfold setitem_cols; rewrite Hl; reflexivity].
  apply preserves_bind; [apply preserves_filter_emg|]. intros ?.
  apply preserves_bind; [apply preserves_envelope_extraction|]. intros ?.
  auto with preserves.
Qed.

(** What the pipeline returns is an array in a buffer of its own. *)
Lemma returns_new_process_emg_pipeline data lowcut highcut order window_size :
  returns_new (process_emg_pipeline butter filtfilt hilbert data lowcut highcut
                 order window_size).
Proof.
  intros h smoothed. unfold process_emg_pipeline.
  destruct (h !! buf (amplifier_data data)) as [b|] eqn:Hl.
  2:{ unfold mbind at 1, M_bind, setitem_cols. rewrite Hl. done. }
  erewrite bind_ok; [|unfold setitem_cols; rewrite Hl; reflexivity].
  intros Hr.
  eapply (returns_new_bind _ _ (preserves_filter_emg _ _ _ _ _ _)) in Hr.
  - destruct Hr as (Hv & Hn & Hs). split; [done|]. split; [|done].
    apply lookup_insert_None in Hn as [Hn _]. done.
  - intros bandpass_filtered h' r' Hr'. rewrite bind_ret_r in Hr' |- *.
    by apply returns_new_envelope_extraction.
Qed.

End Library.

Lemma assign_trailing (row : list R) (k : Z) :
  (1 <= k)%Z ->
  assign_slice row (Some (- k)%Z) None 0
  = take (length row - Z.to_nat k) row
    ++ replicate (Z.to_nat k `min` length row) 0.
Proof.
  intros Hk. unfold assign_slice, Py.bound.
  destruct (Z.ltb_spec (- k) 0); [|lia].
  destruct (Nat.leb_spec (length row)
              (Z.to_nat (Z.max 0 (- k + Z.of_nat (length row))))) as [H1|H1].
  - assert (length row = 0%nat) as E by lia.
    apply nil_length_inv in E. subst. simpl. by rewrite Nat.min_0_r.
  - rewrite drop_all, app_nil_r. f_equal; f_equal; lia.
Qed.

(** C6, as stated, at a block of two channels and three samples with a
    sample rate of 1: whatever the filters do, the array passed in does
    not hold its values after [process_emg_pipeline]; its last column has
    been overwritten. *)
Lemma process_emg_pipeline_overwrites_input :
  ~ (forall butter filtfilt hilbert,
       fst (process_emg_pipeline butter filtfilt hilbert
              {| amplifier_data := mk_aref 0 None; board_dig_in_sample_rate := 1 |}
              30 500 5 400
              {[ 0%nat := mk_ndarray2 [[1; 2; 3]; [4; 5; 6]] 3 ]}) !! 0%nat
       = Some (mk_ndarray2 [[1; 2; 3]; [4; 5; 6]] 3)).
Proof.
  intros H.
  specialize (H (fun _ _ _ => Raise ValueError) (fun _ _ _ _ => Raise ValueError)
                (fun _ _ => Raise ValueError)).
  pose proof (process_emg_pipeline_store
                (fun _ _ _ => Raise ValueError) (fun _ _ _ _ => Raise ValueError)
                (fun _ _ => Raise ValueError)
                {| amplifier_data := mk_aref 0 None; board_dig_in_sample_rate := 1 |}
                30 500 5 400
                {[ 0%nat := mk_ndarray2 [[1; 2; 3]; [4; 5; 6]] 3 ]}
                (mk_ndarray2 [[1; 2; 3]; [4; 5; 6]] 3)
                (lookup_singleton_eq _ _)) as Hsub.
  eapply lookup_weaken in Hsub; [|apply lookup_insert_eq].
  simpl in Hsub. rewrite Hsub in H. injection H as H. lra.
Qed.

(** C6, amended. [rectify_emg], [common_average_reference], [filter_emg]
    and [envelope_extraction] change no buffer of the store, so that every
    array, owner or view, reads after the call as it read before, and what
    they return is a new array in a buffer of its own.
    [process_emg_pipeline] is the exception: through the array passed in
    it first overwrites, in the buffer that this array looks at, the
    elements behind the trailing [sample_rate] samples of every channel
    with zeros. Every other element of that buffer and every other buffer
    are left as they are; every array over the same buffer reads from the
    overwritten buffer, and every array over another buffer reads as
    before. The array passed in then shows zeros in its trailing samples
    and its other values as before, provided no two of its elements share
    an element of the buffer, as is the case for an array that owns its
    buffer and for one made by slicing or transposition. What the
    pipeline returns is a new array in a buffer of its own as well. *)
Theorem stages_preserve_store_but_pipeline_zeroes_tail
    (butter : Z -> list R -> string -> result (list R * list R))
    (filtfilt : list R -> list R -> ndarray2 R -> Z -> result (ndarray2 R))
    (hilbert : ndarray2 R -> Z -> result (list (list (R * R))))
    (data : recording) (lowcut highcut : R) (order window_size fs : Z)
    (filter_type method : string) (r : aref) (h : heap) (b a : ndarray2 R) :
  h !! buf (amplifier_data data) = Some b ->
  seen b (view (amplifier_data data)) = Some a ->
  (1 <= board_dig_in_sample_rate data)%Z ->
  allocates_only (rectify_emg r)
  /\ allocates_only (common_average_reference r)
  /\ allocates_only (filter_emg butter filtfilt r filter_type lowcut highcut fs order)
  /\ allocates_only (envelope_extraction hilbert r method)
  /\ (forall (h0 : heap) a0, read h0 r = Some a0 ->
        exists l', rectify_emg r h0
                   = (<[l' := mk_ndarray2 (map np_abs (rows a0)) (ncols a0)]> h0,
                      Ok (mk_aref l' None))
                   /\ h0 !! l' = None)
  /\ (let emg_data := amplifier_data data in
      let sample_rate := board_dig_in_sample_rate data in
      let zeroed :=
        mk_ndarray2
          (map (fun row => take (length row - Z.to_nat sample_rate) row
                           ++ replicate (Z.to_nat sample_rate `min` length row) 0)
               (rows a))
          (ncols a) in
      let written :=
        cols_cells (cells_of b (view emg_data)) (Some (- sample_rate)%Z) None in
      let b' := assign_through b (view emg_data) (Some (- sample_rate)%Z) None 0 in
      let res := process_emg_pipeline butter filtfilt hilbert data lowcut highcut
                   order window_size h in
      <[buf emg_data := b']> h ⊆ fst res
      /\ fst res !! buf emg_data = Some b'
      /\ (forall c : cell,
            get b' c = (fun y => if in_cells c written then 0 else y) <$> get b c)
      /\ (forall u : aref, buf u = buf emg_data ->
            read (fst res) u = seen b' (view u))
      /\ (forall (u : aref) x, buf u <> buf emg_data ->
            read h u = Some x -> read (fst res) u = Some x)
      /\ (distinct_cells (view emg_data) -> read (fst res) emg_data = Some zeroed)
      /\ (forall smoothed, snd res = Ok smoothed ->
            view smoothed = None
            /\ h !! buf smoothed = None
            /\ is_Some (fst res !! buf smoothed))).
Proof.
  intros Hl Hseen Hrate.
  split; [apply allocates_only_intro;
          [apply preserves_rectify_emg|apply returns_new_rectify_emg]|].
  split; [apply allocates_only_intro;
          [apply preserves_common_average_reference
          |apply returns_new_common_average_reference]|].
  split; [apply allocates_only_intro;
          [apply preserves_filter_emg|apply returns_new_filter_emg]|].
  split; [apply allocates_only_intro;
          [apply preserves_envelope_extraction
          |apply returns_new_envelope_extraction]|].
  split.
  { intros h0 a0 H0. eexists. unfold rectify_emg.
    rewrite (bind_ok _ _ h0 h0 a0) by by apply load_eq.
    split; [apply alloc_eq|apply fresh_unallocated]. }
  intros emg_data sample_rate zeroed written b' res.
  pose proof (process_emg_pipeline_store butter filtfilt hilbert data
                lowcut highcut order window_size h b Hl) as Hsub.
  fold emg_data sample_rate b' res in Hsub.
  assert (Hb' : fst res !! buf emg_data = Some b').
  { eapply lookup_weaken; [apply lookup_insert_eq|exact Hsub]. }
  split; [done|]. split; [done|].
  split; [intros c; apply get_assign_through|].
  split.
  { intros u Hu. unfold read. rewrite Hu, Hb'. done. }
  split.
  { intros u x Hu Hx. eapply read_weaken; [exact Hsub|].
    apply read_Some in Hx as (bu & Hbu & Hsu). apply read_Some. exists bu.
    split; [|done]. by rewrite lookup_insert_ne. }
  split.
  { intros Hd. apply read_Some. exists b'. split; [done|].
    unfold b'. rewrite (seen_assign_through b a) by done.
    f_equal. unfold assign_cols, zeroed. f_equal. apply map_ext. intros row.
    by apply assign_trailing. }
  intros smoothed.
  apply (returns_new_process_emg_pipeline butter filtfilt hilbert data
           lowcut highcut order window_size h smoothed).
Qed.

(** The first three samples of a block of two channels and four samples:
    the array object that [a[:, :3]] makes. *)
Lemma getitem_cols_first_three :
  getitem_cols (mk_aref 0 None) None (Some 3%Z)
    {[ 0%nat := mk_ndarray2 [[1; 2; 3; 4]; [5; 6; 7; 8]] 4 ]}
  = ({[ 0%nat := mk_ndarray2 [[1; 2; 3; 4]; [5; 6; 7; 8]] 4 ]},
     Ok (mk_aref 0 (Some (mk_view [[(0, 0); (0, 1); (0, 2)];
                                   [(1, 0); (1, 1); (1, 2)]]%nat 3)))).
Proof. unfold getitem_cols. cbn [buf]. rewrite lookup_singleton_eq. reflexivity. Qed.

Lemma stages_preserve_store_but_pipeline_zeroes_tail_witness :
  let h : heap := {[ 0%nat := mk_ndarray2 [[1; 2; 3; 4]; [5; 6; 7; 8]] 4 ]} in
  let emg_data :=
    mk_aref 0 (Some (mk_view [[(0, 0); (0, 1); (0, 2)]; [(1, 0); (1, 1); (1, 2)]]%nat
                             3)) in
  let res := process_emg_pipeline
               (fun _ _ _ => Ok ([1], [1])) (fun _ _ d _ => Ok d)
               (fun d _ => Ok (map (map (fun x => (x, 0))) (rows d)))
               {| amplifier_data := emg_data; board_dig_in_sample_rate := 1 |}
               30 500 5 400 h in
  fst res !! 0%nat = Some (mk_ndarray2 [[1; 2; 0; 4]; [5; 6; 0; 8]] 4)
  /\ read (fst res) emg_data = Some (mk_ndarray2 [[1; 2; 0]; [5; 6; 0]] 3)
  /\ (forall smoothed, snd res = Ok smoothed ->
        view smoothed = None
        /\ h !! buf smoothed = None
        /\ is_Some (fst res !! buf smoothed)).
Proof.
  intros h emg_data res.
  pose proof (stages_preserve_store_but_pipeline_zeroes_tail
                (fun _ _ _ => Ok ([1], [1])) (fun _ _ d _ => Ok d)
                (fun d _ => Ok (map (map (fun x => (x, 0))) (rows d)))
                {| amplifier_data := emg_data; board_dig_in_sample_rate := 1 |}
                30 500 5 400 1 "bandpass" "hilbert" emg_data h
                (mk_ndarray2 [[1; 2; 3; 4]; [5; 6; 7; 8]] 4)
                (mk_ndarray2 [[1; 2; 3]; [5; 6; 7]] 3)
                (lookup_singleton_eq _ _) eq_refl ltac:(simpl; lia))
    as (_ & _ & _ & _ & _ & _ & H1 & _ & _ & _ & H2 & H3).
  split; [exact H1|]. split; [|exact H3].
  apply H2. apply NoDup_ListNoDup. repeat constructor; simpl; intuition congruence.
Defined.

End StageClaims.

(** ** The theorems at concrete inputs *)

Section Instances.

Import RingBuffer.

Lemma get_samples_chronological_witness :
  exists b : RingBuffer.t (F := Z),
    run 0 1 3 [(1, [10]); (2, [20]); (3, [30]); (4, [40])] = Ok b /\
    get_samples b 2 = Ok ([[30]; [40]], [3; 4]) /\
    (cur b < 2 ->
     [[30]; [40]] = drop (Z.to_nat (cur b - 2 + 3)) (rows (samples b))
                      ++ take (Z.to_nat (cur b)) (rows (samples b)) /\
     [3; 4] = drop (Z.to_nat (cur b - 2 + 3)) (timestamp b)
                ++ take (Z.to_nat (cur b)) (timestamp b)).
Proof.
  apply (get_samples_chronological 0 1 3
           [(1, [10]); (2, [20])] [(3, [30]); (4, [40])]).
  - repeat constructor.
  - simpl. lia.
Defined.

Lemma get_samples_retains_most_recent_witness :
  exists b : RingBuffer.t (F := Z),
    run 0 1 2 [(1, [10]); (2, [20]); (3, [30])] = Ok b /\
    size b = 2 /\
    (forall n : nat, (1 <= n <= 2)%nat ->
       get_samples b (Z.of_nat n)
       = Ok (last_n n [[10]; [20]; [30]], last_n n [1; 2; 3])) /\
    (forall n : Z, 2 < n -> get_samples b n = Raise ValueError) /\
    (forall (b' : RingBuffer.t (F := Z)) (n : Z),
       get_samples b' n = Raise ValueError <-> size b' < n).
Proof.
  apply (get_samples_retains_most_recent 0 1 2
           [(1, [10]); (2, [20]); (3, [30])]).
  - lia.
  - repeat constructor.
  - simpl. lia.
Defined.

Lemma fill_count_monotone_full_absorbing_witness :
  exists b b1 b2 : RingBuffer.t (F := Z),
    run 0 1 2 [(1, [10]); (2, [20])] = Ok b /\
    append b 3 [30] = Ok b1 /\
    appends b1 [(4, [40])] = Ok b2 /\
    (0 <= size b /\ size b <= size b1 /\ size b1 <= size b2 /\ size b2 <= 2) /\
    (size b = 2 -> size b1 = 2 /\ size b2 = 2) /\
    (is_full b = true ->
       is_full b1 = true /\ is_full b2 = true /\
       exists i : nat,
         Py.index (length (rows (samples b))) (cur b) = Ok i /\
         rows (samples b) !! i = Some [10] /\
         timestamp b !! i = Some 1 /\
         is_Some (rows (samples b) !! i) /\
         rows (samples b1) = <[i := [30]]> (rows (samples b)) /\
         timestamp b1 = <[i := 3]> (timestamp b)).
Proof.
  apply (fill_count_monotone_full_absorbing 0 1 2
           [(1, [10]); (2, [20])] 3 [30] [(4, [40])]).
  - lia.
  - repeat constructor.
Defined.

Lemma get_samples_zero_full_block_witness :
  exists (b : RingBuffer.t (F := Z)) r,
    run 0 1 3 [(1, [10])] = Ok b /\
    get_samples b 0 = Ok r /\
    (let idx := Z.to_nat (if size b =? max b then cur b else size b) in
     r = (drop idx (rows (samples b)) ++ take idx (rows (samples b)),
          drop idx (timestamp b) ++ take idx (timestamp b))) /\
    length (fst r) = 3%nat /\ length (snd r) = 3%nat /\
    ((1 < 3)%nat -> r = ([[0]; [0]; [10]], [0; 0; 1])).
Proof.
  apply (get_samples_zero_full_block 0 1 3 [(1, [10])]).
  - lia.
  - repeat constructor.
Defined.

Import Windowing.

Lemma sliding_window_drops_remainder_witness :
  let block := mk_ndarray2 [replicate 1000 0; replicate 1000 1] 1000 in
  let data := mk_ndarray2 [[1; 2; 3; 4; 5]; [6; 7; 8; 9; 10]] 5 in
  (window_starts 1000 400 200 = Ok [0; 200; 400; 600] /\
   exists windows, sliding_window block 400 200 = Ok windows
                   /\ length windows = 4%nat)
  /\ sliding_window data 2 2
     = Ok [mk_ndarray2 [[1; 2]; [6; 7]] 2; mk_ndarray2 [[3; 4]; [8; 9]] 2].
Proof.
  intros block data.
  destruct (sliding_window_drops_remainder block data 2 2)
    as [(Hs & Hw & _) (starts & windows & Hst & Hsw & Hmap & _)].
  - repeat constructor.
  - reflexivity.
  - repeat constructor.
  - lia.
  - lia.
  - split; [split; [exact Hs|]|].
    + eexists. split; [exact Hw|reflexivity].
    + rewrite Hsw, Hmap. injection Hst as <-. reflexivity.
Defined.

End Instances.

(** * Further properties of the code *)

(** ** RingBuffer: exact state, any count, degenerate capacity, shapes *)

Section RingBufferMore.

Import RingBuffer.
Context {F : Type} (f0 : F).
Implicit Types (b : RingBuffer.t (F := F)) (xs : list (F * list F)).

Lemma unroll_Forall {A} (P : A -> Prop) (c : nat) (l : list A) :
  Forall P (unroll c l) -> Forall P l.
Proof.
  unfold unroll. intros H. apply Forall_app in H as [Hd Ht].
  rewrite <- (take_drop c l). apply Forall_app. done.
Qed.

Lemma last_n_Forall {A} (P : A -> Prop) (n : nat) (l : list A) :
  Forall P l -> Forall P (last_n n l).
Proof. intros H. unfold last_n. by apply Forall_drop. Qed.

(** After [L] calls of [append] on a fresh buffer of capacity [C] the fill
    count is [min L C], the cursor is [L mod C], the buffer is full exactly
    when [C <= L], and the backing arrays have kept their shape. *)
Theorem state_after_appends (num_channels C : nat) xs :
  (1 <= C)%nat ->
  well_shaped num_channels xs ->
  exists b,
    run f0 (Z.of_nat num_channels) (Z.of_nat C) xs = Ok b /\
    size b = Z.of_nat (length xs `min` C) /\
    cur b = Z.of_nat (length xs mod C) /\
    max b = Z.of_nat C /\
    (is_full b = true <-> (C <= length xs)%nat) /\
    length (timestamp b) = C /\
    shape (samples b) = (C, num_channels) /\
    rectangular (samples b).
Proof.
  intros HC Hws.
  destruct (run_inv f0 C num_channels xs HC Hws) as (b & Hrun & Hinv).
  exists b. destruct Hinv as [Hmax Hnc Hrl Htl Hcur Hsize Hrows Hts].
  split_and!; try done.
  - unfold is_full. rewrite Hsize, Hmax. rewrite Z.eqb_eq. lia.
  - unfold shape. by rewrite Hrl, Hnc.
  - unfold rectangular. rewrite Hnc.
    apply (unroll_Forall _ (length xs mod C)). rewrite Hrows.
    apply last_n_Forall, Forall_app. split.
    + apply Forall_replicate. apply length_replicate.
    + apply List.Forall_map. exact Hws.
Qed.


(** [read_back] for any count, positive or not: the unrolled array without
    its first [(-n) mod C] items. *)
Lemma read_back_any {A} (l : list A) (C c : nat) (n : Z) :
  length l = C -> (c < C)%nat ->
  read_back l (Z.of_nat C) (Z.of_nat c) n
  = drop (Z.to_nat ((- n) mod Z.of_nat C)) (unroll c l).
Proof.
  intros <- Hc. unfold read_back.
  set (m := (- n) mod Z.of_nat (length l)).
  assert (Hm : 0 <= m < Z.of_nat (length l)) by (apply Z.mod_pos_bound; lia).
  assert (Hstart : (Z.of_nat c - n) mod Z.of_nat (length l)
                   = (Z.of_nat c + m) mod Z.of_nat (length l)).
  { unfold m. rewrite Zplus_mod_idemp_r. f_equal; lia. }
  rewrite Hstart. unfold unroll.
  destruct (decide (Z.of_nat c + m < Z.of_nat (length l))) as [Hlt|Hge].
  - rewrite Z.mod_small by lia.
    destruct (Z.ltb_spec (Z.of_nat c + m) (Z.of_nat c)); [lia|].
    replace (Z.of_nat c + m) with (Z.of_nat (c + Z.to_nat m)) by lia.
    rewrite slice_from, slice_to by lia.
    rewrite drop_app_le by (rewrite length_drop; lia).
    by rewrite drop_drop.
  - replace ((Z.of_nat c + m) mod Z.of_nat (length l))
      with (Z.of_nat (c + Z.to_nat m - length l)).
    2:{ apply Z.mod_unique with (q := 1); lia. }
    destruct (Z.ltb_spec (Z.of_nat (c + Z.to_nat m - length l)) (Z.of_nat c));
      [|lia].
    rewrite slice_between by lia.
    rewrite drop_app_ge by (rewrite length_drop; lia).
    rewrite length_drop, take_drop_commute.
    replace (Z.to_nat m - (length l - c))%nat
      with (c + Z.to_nat m - length l)%nat by lia.
    do 2 f_equal. lia.
Qed.

(** [get_samples(n)] for every [n] up to the fill count, zero or negative
    included: it never raises, and it returns the backing arrays read round
    from the cursor without their first [(-n) mod C] rows. A negative [n]
    therefore yields [C - ((-n) mod C)] rows, zero rows of a buffer that
    is not full among them. *)
Theorem get_samples_any_count (num_channels C : nat) xs (n : Z) :
  (1 <= C)%nat ->
  well_shaped num_channels xs ->
  n <= Z.of_nat (length xs `min` C) ->
  let m := Z.to_nat ((- n) mod Z.of_nat C) in
  exists b,
    run f0 (Z.of_nat num_channels) (Z.of_nat C) xs = Ok b /\
    get_samples b n
    = Ok (drop m (last_n C (replicate C (replicate num_channels f0) ++ map snd xs)),
          drop m (last_n C (replicate C f0 ++ map fst xs))) /\
    (forall r, get_samples b n = Ok r ->
               length (fst r) = (C - m)%nat /\ length (snd r) = (C - m)%nat).
Proof.
  intros HC Hws Hn m.
  destruct (run_inv f0 C num_channels xs HC Hws) as (b & Hrun & Hinv).
  exists b. split; [done|].
  assert (Hget : get_samples b n
    = Ok (drop m (last_n C (replicate C (replicate num_channels f0) ++ map snd xs)),
          drop m (last_n C (replicate C f0 ++ map fst xs)))).
  { rewrite (get_samples_read_back f0 C num_channels xs b n HC Hinv)
      by (rewrite (inv_size _ _ _ _ _ Hinv); lia).
    destruct Hinv as [Hmax Hnc Hrl Htl Hcur Hsize Hrows Hts].
    assert (Hlt : (length xs mod C < C)%nat) by (apply Nat.mod_upper_bound; lia).
    rewrite Hmax, Hcur, !(read_back_any _ C) by lia.
    by rewrite Hrows, Hts. }
  split; [done|]. intros r Hr. rewrite Hget in Hr. injection Hr as <-. simpl.
  rewrite !length_drop, !last_n_length
    by (rewrite length_app, length_replicate; lia).
  done.
Qed.


End RingBufferMore.

Section RingBufferMoreInstances.

Import RingBuffer.

Lemma state_after_appends_witness :
  exists b : RingBuffer.t (F := Z),
    run 0 2 3 [(1, [10; 11]); (2, [20; 21]); (3, [30; 31]); (4, [40; 41])] = Ok b /\
    size b = 3 /\ cur b = 1 /\ max b = 3 /\
    (is_full b = true <-> (3 <= 4)%nat) /\
    length (timestamp b) = 3%nat /\
    shape (samples b) = (3%nat, 2%nat) /\
    rectangular (samples b).
Proof.
  apply (state_after_appends 0 2 3
           [(1, [10; 11]); (2, [20; 21]); (3, [30; 31]); (4, [40; 41])]).
  - lia.
  - repeat constructor.
Defined.

Lemma get_samples_any_count_witness :
  exists b : RingBuffer.t (F := Z),
    run 0 1 3 [(1, [10]); (2, [20]); (3, [30]); (4, [40])] = Ok b /\
    get_samples b (-1) = Ok ([[30]; [40]], [3; 4]) /\
    (forall r, get_samples b (-1) = Ok r ->
               length (fst r) = 2%nat /\ length (snd r) = 2%nat).
Proof.
  apply (get_samples_any_count 0 1 3
           [(1, [10]); (2, [20]); (3, [30]); (4, [40])] (-1)).
  - lia.
  - repeat constructor.
  - simpl. lia.
Defined.

End RingBufferMoreInstances.

Section RingBufferEdges.

Import RingBuffer.
Context {F : Type} (f0 : F).
Implicit Types (b : RingBuffer.t (F := F)) (xs : list (F * list F)).

(** A buffer of capacity 0 can be built; it reports full from the start,
    every [append] raises [IndexError], and [get_samples(n)] raises
    [ZeroDivisionError] for [n <= 0] and the insufficient-data error for
    [n > 0]. *)
Theorem capacity_zero_buffer (num_channels n : Z) (ts : F) (x : list F) :
  0 <= num_channels ->
  exists b,
    init f0 num_channels 0 = Ok b /\
    is_full b = true /\
    append b ts x = Raise IndexError /\
    (n <= 0 -> get_samples b n = Raise ZeroDivisionError) /\
    (0 < n -> get_samples b n = Raise ValueError).
Proof.
  intros Hn. unfold init.
  destruct (Z.ltb_spec num_channels 0); [lia|]. simpl.
  eexists. split; [reflexivity|]. split; [done|]. split; [done|].
  unfold get_samples. simpl. split; intros H'.
  - destruct (Z.ltb_spec 0 n); [lia|]. done.
  - destruct (Z.ltb_spec 0 n); [|lia]. done.
Qed.

Lemma append_broadcast_eq b ts x row :
  broadcast_row (ncols (samples b)) x = Ok row ->
  length row = ncols (samples b) ->
  append b ts x = append b ts row.
Proof.
  intros Hb Hlen. unfold append. rewrite Hb.
  unfold broadcast_row. by rewrite decide_True.
Qed.

(** A sample of one value is broadcast to every channel; a sample whose
    number of values is neither 1 nor the number of channels is refused
    with [ValueError]. *)
Theorem append_broadcasts_single_value (num_channels C : nat) xs (ts v : F) (x : list F) :
  (1 <= C)%nat ->
  well_shaped num_channels xs ->
  length x <> num_channels -> length x <> 1%nat ->
  exists b b',
    run f0 (Z.of_nat num_channels) (Z.of_nat C) xs = Ok b /\
    append b ts [v] = Ok b' /\
    get_samples b' 1 = Ok ([replicate num_channels v], [ts]) /\
    append b ts x = Raise ValueError.
Proof.
  intros HC Hws Hx Hx1.
  destruct (run_inv f0 C num_channels xs HC Hws) as (b & Hrun & Hinv).
  pose proof (inv_ncols _ _ _ _ _ Hinv) as Hnc.
  assert (Hb : broadcast_row (ncols (samples b)) [v] = Ok (replicate num_channels v)).
  { unfold broadcast_row. rewrite Hnc. simpl.
    destruct (decide (1%nat = num_channels)) as [<-|]; done. }
  destruct (append_inv f0 C num_channels xs b ts (replicate num_channels v)
              HC Hinv (length_replicate _ _)) as (b' & Happ & Hinv').
  exists b, b'. split; [done|]. split.
  { rewrite (append_broadcast_eq b ts [v] _ Hb); [done|].
    by rewrite length_replicate. }
  split.
  - change 1 with (Z.of_nat 1).
    rewrite (get_samples_last_n f0 C num_channels _ b' 1 HC Hinv');
      [|lia|rewrite (inv_size _ _ _ _ _ Hinv'), length_app; simpl; lia].
    rewrite !map_app, !last_n_app by (simpl; lia). reflexivity.
  - destruct Hinv as [Hmax _ Hrl Htl Hcur _ _ _].
    assert (Hlt : (length xs mod C < C)%nat) by (apply Nat.mod_upper_bound; lia).
    unfold append. rewrite Hcur, Hrl, Htl, index_in_range by lia. simpl.
    unfold broadcast_row. rewrite Hnc, decide_False by done.
    destruct x as [|x0 [|x1 x]]; simpl in *; done.
Qed.

End RingBufferEdges.

Section RingBufferEdgesInstances.

Import RingBuffer.

Lemma capacity_zero_buffer_witness :
  exists b : RingBuffer.t (F := Z),
    init 0 2 0 = Ok b /\
    is_full b = true /\
    append b 1 [10; 11] = Raise IndexError /\
    (0 <= 0 -> get_samples b 0 = Raise ZeroDivisionError) /\
    (0 < 0 -> get_samples b 0 = Raise ValueError).
Proof. apply (capacity_zero_buffer 0 2 0 1 [10; 11]). lia. Defined.

Lemma append_broadcasts_single_value_witness :
  exists b b' : RingBuffer.t (F := Z),
    run 0 3 2 [(1, [10; 11; 12])] = Ok b /\
    append b 2 [7] = Ok b' /\
    get_samples b' 1 = Ok ([[7; 7; 7]], [2]) /\
    append b 2 [8; 9] = Raise ValueError.
Proof.
  apply (append_broadcasts_single_value 0 3 2 [(1, [10; 11; 12])] 2 7 [8; 9]).
  - lia.
  - repeat constructor.
  - simpl. lia.
  - simpl. lia.
Defined.

End RingBufferEdgesInstances.

(** ** PicoMessager: history, totality, debouncing, majority *)

Section PicoMessagerMore.

Import PicoMessager.
Local Arguments truthy : simpl never.

Lemma deque_append_last_n {A} (n : nat) (d : list A) (x : A) :
  (length d <= n)%nat -> deque_append n d x = last_n n (d ++ [x]).
Proof.
  intros H. unfold deque_append, last_n. rewrite length_app. simpl.
  destruct (Nat.ltb_spec n (length d + 1)).
  - replace (length d + 1 - n)%nat with 1%nat by lia. by destruct (d ++ [x]).
  - replace (length d + 1 - n)%nat with 0%nat by lia. done.
Qed.

Lemma last_n_absorb {A} (n : nat) (l k : list A) :
  last_n n (last_n n l ++ k) = last_n n (l ++ k).
Proof.
  destruct (decide (length l <= n)%nat) as [H|H].
  - by rewrite (last_n_all n l).
  - transitivity (last_n n (take (length l - n) l ++ (last_n n l ++ k))).
    + symmetry. apply last_n_app. unfold last_n.
      rewrite length_app, length_drop. lia.
    + f_equal. rewrite app_assoc. unfold last_n. by rewrite take_drop.
Qed.

Lemma update_gesture_buffer mode st g r :
  update_gesture mode st g = Ok r ->
  maxlen (fst r) = maxlen st
  /\ buffer (fst r) = deque_append (maxlen st) (buffer st) g.
Proof.
  unfold update_gesture.
  destruct (mode _) as [m|e]; simpl.
  - destruct (truthy _ && _); by intros [= <-].
  - destruct e; simpl; try done. unfold truthy. simpl. by intros [= <-].
Qed.

(** The history is a bounded queue: after any observations it holds the
    last [maxlen] labels seen (those it started with included) and never
    more than [maxlen] of them, whatever [mode] does. *)
Theorem history_keeps_last_labels
    (mode : list string -> result string) (st : t) (labels : list string) r :
  observe_all mode st labels = Ok r ->
  (length (buffer st) <= maxlen st)%nat ->
  maxlen (fst r) = maxlen st
  /\ buffer (fst r) = last_n (maxlen st) (buffer st ++ labels)
  /\ (length (buffer (fst r)) <= maxlen st)%nat.
Proof.
  revert st r. induction labels as [|g labels IH]; intros st r; simpl.
  - intros [= <-] Hlen. simpl. rewrite app_nil_r, last_n_all by done. done.
  - destruct (update_gesture mode st g) as [r1|e] eqn:E1; simpl; [|done].
    destruct (observe_all mode (fst r1) labels) as [r2|e] eqn:E2; simpl; [|done].
    intros [= <-] Hlen. simpl.
    apply update_gesture_buffer in E1 as [Hm Hb].
    rewrite deque_append_last_n in Hb by done.
    assert (Hlen1 : (length (buffer (fst r1)) <= maxlen (fst r1))%nat).
    { rewrite Hb, Hm. unfold last_n. rewrite length_drop, length_app. simpl. lia. }
    destruct (IH _ _ E2 Hlen1) as (Hm2 & Hb2 & Hl2).
    rewrite Hm2, Hb2, Hm, Hb in *.
    split; [done|]. split; [|lia].
    by rewrite last_n_absorb, <- app_assoc.
Qed.

Lemma counter_add_nonempty x c : counter_add x c <> [].
Proof. destruct c as [|[y n] c]; simpl; [done|]. by destruct (decide (x = y)). Qed.

Lemma foldl_counter_add_nonempty data : forall c,
  c <> [] -> foldl (fun c x => counter_add x c) c data <> [].
Proof.
  induction data as [|x data IH]; intros c Hc; simpl; [done|].
  apply IH, counter_add_nonempty.
Qed.

Lemma Counter_nonempty data : data <> [] -> Counter data <> [].
Proof.
  destruct data as [|x data]; [done|]. intros _. unfold Counter. simpl.
  apply foldl_counter_add_nonempty. done.
Qed.







Lemma update_gesture_changes mode st g r :
  update_gesture mode st g = Ok r ->
  changes (current_gesture st) (snd r)
  /\ current_gesture (fst r)
     = foldl (fun _ m => Some m) (current_gesture st) (snd r).
Proof.
  unfold update_gesture.
  destruct (mode _) as [m|e]; simpl.
  - destruct (truthy (Some m)) eqn:Ht; simpl.
    + destruct (bool_decide (Some m = current_gesture st)) eqn:Hd; simpl;
        intros [= <-]; simpl; [done|].
      apply bool_decide_eq_false in Hd. split; [|done]. split; [done|].
      split; [|done]. intros ->. by vm_compute in Ht.
    + by intros [= <-].
  - destruct e; simpl; try done. unfold truthy. simpl. by intros [= <-].
Qed.

Lemma changes_app prev s1 s2 :
  changes prev s1 -> changes (foldl (fun _ m => Some m) prev s1) s2 ->
  changes prev (s1 ++ s2).
Proof.
  revert prev. induction s1 as [|g s1 IH]; intros prev; simpl; [done|].
  intros (H1 & H2 & H3) H4. split; [done|]. split; [done|]. by apply IH.
Qed.

(** Debouncing: every message sent differs from the gesture that was
    active just before it, so no gesture is sent twice in a row; the empty
    string is never sent; and the active gesture is always the last
    message sent (or the initial one when nothing was sent). *)
Theorem sent_messages_are_changes
    (mode : list string -> result string) (st : t) (labels : list string) r :
  observe_all mode st labels = Ok r ->
  changes (current_gesture st) (snd r)
  /\ current_gesture (fst r)
     = foldl (fun _ m => Some m) (current_gesture st) (snd r).
Proof.
  revert st r. induction labels as [|g labels IH]; intros st r; simpl.
  - by intros [= <-].
  - destruct (update_gesture mode st g) as [r1|e] eqn:E1; simpl; [|done].
    destruct (observe_all mode (fst r1) labels) as [r2|e] eqn:E2; simpl; [|done].
    intros [= <-]. simpl.
    apply update_gesture_changes in E1 as [Hc1 Hg1].
    apply IH in E2 as [Hc2 Hg2]. rewrite Hg1 in Hc2.
    split; [by apply changes_app|].
    by rewrite foldl_app, <- Hg1.
Qed.

End PicoMessagerMore.

Section PicoMessagerInstances.

Import PicoMessager.
Local Open Scope string_scope.

Lemma history_keeps_last_labels_witness :
  maxlen {| maxlen := 2; buffer := ["B"; "C"]; current_gesture := Some "B" |} = 2%nat
  /\ buffer {| maxlen := 2; buffer := ["B"; "C"]; current_gesture := Some "B" |}
     = last_n 2 ([] ++ ["A"; "B"; "C"])%list
  /\ (length ["B"; "C"] <= 2)%nat.
Proof.
  apply (history_keeps_last_labels mode_first (init 2) ["A"; "B"; "C"]
           ({| maxlen := 2; buffer := ["B"; "C"]; current_gesture := Some "B" |},
            ["A"; "B"])).
  - reflexivity.
  - simpl. lia.
Defined.

Lemma sent_messages_are_changes_witness :
  changes None ["A"; "B"]
  /\ Some "B" = foldl (fun _ m => Some m) None ["A"; "B"].
Proof.
  apply (sent_messages_are_changes mode_first (init 2) ["A"; "B"; "C"]
           ({| maxlen := 2; buffer := ["B"; "C"]; current_gesture := Some "B" |},
            ["A"; "B"])).
  reflexivity.
Defined.

End PicoMessagerInstances.

Section Majority.

Import PicoMessager.
Local Arguments truthy : simpl never.

Lemma count_in_counter_add c x y :
  count_in (counter_add x c) y
  = if decide (y = x) then S (count_in c x) else count_in c y.
Proof.
  induction c as [|[z n] c IH]; simpl.
  - by repeat case_decide.
  - destruct (decide (x = z)) as [->|Hxz]; simpl.
    + by repeat case_decide.
    + rewrite IH. repeat case_decide; congruence.
Qed.

Lemma keys_counter_add c x :
  NoDup (map fst c) -> NoDup (map fst (counter_add x c)).
Proof.
  induction c as [|[z n] c IH]; simpl; intros Hnd.
  - apply NoDup_singleton.
  - destruct (decide (x = z)) as [->|Hxz]; simpl; [done|].
    apply NoDup_cons in Hnd as [Hz Hnd]. apply NoDup_cons. split; [|by apply IH].
    intros Hin. apply Hz. clear -Hin Hxz.
    induction c as [|[w m] c IH]; simpl in *.
    + apply list_elem_of_singleton in Hin. congruence.
    + destruct (decide (x = w)); simpl in *; [done|].
      apply elem_of_cons in Hin as [->|Hin]; [left|right; by apply IH].
Qed.

Lemma entry_count_in c x n :
  NoDup (map fst c) -> (x, n) ∈ c -> count_in c x = n.
Proof.
  induction c as [|[z m] c IH]; simpl; intros Hnd Hin.
  - by apply elem_of_nil in Hin.
  - apply NoDup_cons in Hnd as [Hz Hnd].
    apply elem_of_cons in Hin as [[= -> ->]|Hin].
    + by rewrite decide_True.
    + destruct (decide (x = z)) as [->|]; [|by apply IH].
      exfalso. apply Hz. apply (list_elem_of_fmap_2 fst) in Hin. exact Hin.
Qed.

Lemma count_in_entry c x :
  count_in c x <> 0%nat -> (x, count_in c x) ∈ c.
Proof.
  induction c as [|[z m] c IH]; simpl; intros H; [done|].
  destruct (decide (x = z)) as [->|]; [left|right; by apply IH].
Qed.

Lemma Counter_spec data :
  NoDup (map fst (Counter data))
  /\ forall x, count_in (Counter data) x = count_occ String.string_dec data x.
Proof.
  unfold Counter.
  cut (forall c, NoDup (map fst c) ->
         NoDup (map fst (foldl (fun c x => counter_add x c) c data))
         /\ forall x, count_in (foldl (fun c x => counter_add x c) c data) x
                      = (count_in c x + count_occ String.string_dec data x)%nat).
  { intros H. destruct (H [] (NoDup_nil_2)) as [H1 H2]. split; [done|].
    intros x. by rewrite H2. }
  induction data as [|y data IH]; intros c Hnd; simpl.
  - split; [done|]. intros x. lia.
  - destruct (IH (counter_add y c) (keys_counter_add c y Hnd)) as [H1 H2].
    split; [done|]. intros x. rewrite H2, count_in_counter_add.
    destruct (String.string_dec y x) as [->|E];
      [rewrite decide_True by done|rewrite decide_False by congruence]; lia.
Qed.

Lemma max_count_spec p ps :
  max_count p ps ∈ p :: ps
  /\ forall q, q ∈ p :: ps -> (snd q <= snd (max_count p ps))%nat.
Proof.
  unfold max_count. revert p. induction ps as [|r ps IH]; intros p; simpl.
  - split; [left|]. intros q Hq. apply list_elem_of_singleton in Hq as ->. lia.
  - destruct (Nat.ltb_spec (snd p) (snd r)) as [Hlt|Hge].
    + destruct (IH r) as [H1 H2]. split; [by right|].
      intros q Hq. apply elem_of_cons in Hq as [->|Hq]; [|by apply H2].
      etrans; [|apply H2; left]. lia.
    + destruct (IH p) as [H1 H2]. split.
      * apply elem_of_cons in H1 as [->|H1]; [left|right; by right].
      * intros q Hq. apply elem_of_cons in Hq as [->|Hq]; [apply H2; left|].
        apply elem_of_cons in Hq as [->|Hq]; [|apply H2; by right].
        etrans; [exact Hge|apply H2; left].
Qed.

Lemma count_occ_two (data : list string) x y :
  x <> y ->
  (count_occ String.string_dec data x + count_occ String.string_dec data y
   <= length data)%nat.
Proof.
  intros Hne. induction data as [|z data IH]; simpl; [lia|].
  destruct (String.string_dec z x), (String.string_dec z y); try congruence; lia.
Qed.

Lemma filter_none {A} (P : A -> Prop) `{forall x, Decision (P x)} (l : list A) :
  (forall r, r ∈ l -> ~ P r) -> filter P l = [].
Proof.
  induction l as [|z l IH]; intros Hl; [done|].
  rewrite filter_cons_False by (apply Hl; left).
  apply IH. intros r Hr. apply Hl. by right.
Qed.

Lemma filter_unique {A} (P : A -> Prop) `{forall x, Decision (P x)}
    (l : list A) (q : A) :
  NoDup l -> q ∈ l -> P q -> (forall r, r ∈ l -> P r -> r = q) ->
  filter P l = [q].
Proof.
  induction l as [|z l IH]; intros Hnd Hin Hq Huniq.
  - by apply elem_of_nil in Hin.
  - apply NoDup_cons in Hnd as [Hz Hnd].
    destruct (decide (P z)) as [HP|HP].
    + assert (z = q) as -> by (apply Huniq; [left|done]).
      rewrite filter_cons_True by done. f_equal. apply filter_none.
      intros r Hr HPr. apply Hz. rewrite <- (Huniq r); [done|by right|done].
    + rewrite filter_cons_False by done.
      apply elem_of_cons in Hin as [->|Hin]; [done|].
      apply IH; try done. intros r Hr. apply Huniq. by right.
Qed.

(** In a history where the label [a] is in the strict majority, [a] is
    the entry of maximal count of the [Counter], and the only one. *)
Lemma majority_is_max data a p ps :
  (length data < 2 * count_occ String.string_dec data a)%nat ->
  Counter data = p :: ps ->
  max_count p ps = (a, count_occ String.string_dec data a)
  /\ filter (fun q => snd q = count_occ String.string_dec data a) (p :: ps)
     = [(a, count_occ String.string_dec data a)].
Proof.
  intros Hmaj HC.
  destruct (Counter_spec data) as [Hnd Hcount]. rewrite HC in Hnd, Hcount.
  destruct (max_count_spec p ps) as [Hin Hmax].
  assert (Ha : (a, count_occ String.string_dec data a) ∈ p :: ps).
  { rewrite <- (Hcount a). apply count_in_entry. rewrite Hcount. lia. }
  assert (Hentry : forall r, r ∈ p :: ps ->
            snd r = count_occ String.string_dec data (fst r)).
  { intros [y m] Hr. simpl. rewrite <- Hcount. symmetry.
    by apply entry_count_in. }
  assert (Hother : forall r, r ∈ p :: ps -> (count_occ String.string_dec data a <= snd r)%nat -> r = (a, count_occ String.string_dec data a)).
  { intros [y m] Hr Hle. pose proof (Hentry _ Hr) as Hm. simpl in *.
    destruct (decide (y = a)) as [->|Hne]; [by rewrite Hm|].
    pose proof (count_occ_two data a y (not_eq_sym Hne)). lia. }
  split.
  - apply Hother; [done|]. apply (Hmax (a, count_occ String.string_dec data a) Ha).
  - apply filter_unique; try done.
    + by apply (NoDup_fmap_1 fst).
    + intros r Hr Hs. apply Hother; [done|lia].
Qed.

(** Majority vote: when, after the new label has entered the history, a
    non-empty label [a] fills more than half of it, [a] is the active
    gesture after the call, with the [mode] of either Python version; a
    message is sent exactly when [a] was not active before. *)
Theorem majority_label_becomes_active (st : t) (g a : string) :
  let history := deque_append (maxlen st) (buffer st) g in
  (length history < 2 * count_occ String.string_dec history a)%nat ->
  a <> EmptyString ->
  let st' := {| maxlen := maxlen st; buffer := history;
                current_gesture := Some a |} in
  let sent := if decide (current_gesture st = Some a) then [] else [a] in
  update_gesture mode_first st g = Ok (st', sent)
  /\ update_gesture mode_unique st g = Ok (st', sent).
Proof.
  intros history Hmaj Ha st' sent.
  assert (Hne : history <> []).
  { intros E. rewrite E in Hmaj. simpl in Hmaj. lia. }
  assert (Hf : mode_first history = Ok a /\ mode_unique history = Ok a).
  { unfold mode_first, mode_unique.
    destruct (Counter history) as [|p ps] eqn:HC;
      [by apply Counter_nonempty in Hne|].
    destruct (majority_is_max history a p ps Hmaj HC) as [Hmax Hfil].
    rewrite Hmax. simpl. by rewrite Hfil. }
  destruct Hf as [Hf Hu].
  assert (Ht : truthy (Some a) = true).
  { unfold truthy. by destruct (String.eqb_spec a EmptyString). }
  unfold update_gesture. fold history. rewrite Hf, Hu. simpl. rewrite Ht.
  unfold st', sent. destruct (decide (current_gesture st = Some a)) as [E|E].
  - rewrite bool_decide_eq_true_2 by done. simpl. by rewrite E.
  - by rewrite bool_decide_eq_false_2 by congruence.
Qed.

End Majority.

Section MajorityInstance.

Import PicoMessager.
Local Open Scope string_scope.

Lemma majority_label_becomes_active_witness :
  update_gesture mode_first
    {| maxlen := 3; buffer := ["A"; "B"; "A"]; current_gesture := Some "B" |} "A"
  = Ok ({| maxlen := 3; buffer := ["B"; "A"; "A"]; current_gesture := Some "A" |},
        ["A"])
  /\ update_gesture mode_unique
       {| maxlen := 3; buffer := ["A"; "B"; "A"]; current_gesture := Some "B" |} "A"
     = Ok ({| maxlen := 3; buffer := ["B"; "A"; "A"]; current_gesture := Some "A" |},
           ["A"]).
Proof.
  apply (majority_label_becomes_active
           {| maxlen := 3; buffer := ["A"; "B"; "A"]; current_gesture := Some "B" |}
           "A" "A").
  - simpl. lia.
  - discriminate.
Defined.

End MajorityInstance.

(** ** Windowing: degenerate steps, partition, number of feature rows *)

Section WindowingMore.

Import Windowing.
Context {F : Type}.
Implicit Types (data : ndarray2 F).

(** A step of 0 makes [sliding_window] raise [ValueError]; a window longer
    than the block gives no window and no error, and so does a negative
    step on a block that holds a full window. *)
Theorem sliding_window_degenerate data (window_size step_size : Z) :
  sliding_window data window_size 0 = Raise ValueError
  /\ (1 <= step_size -> Z.of_nat (ncols data) < window_size ->
      sliding_window data window_size step_size = Ok [])
  /\ (step_size < 0 -> window_size <= Z.of_nat (ncols data) ->
      sliding_window data window_size step_size = Ok []).
Proof.
  unfold sliding_window, window_starts, shape, Py.range, Py.range_len.
  split; [done|]. split; intros H1 H2.
  - destruct (Z.eqb_spec step_size 0); [lia|].
    destruct (Z.ltb_spec 0 step_size); [|lia].
    destruct (Z.ltb_spec 0 (Z.of_nat (ncols data) - window_size + 1)); [lia|].
    done.
  - destruct (Z.eqb_spec step_size 0); [lia|].
    destruct (Z.ltb_spec 0 step_size); [lia|].
    destruct (Z.ltb_spec (Z.of_nat (ncols data) - window_size + 1) 0); [lia|].
    done.
Qed.

Lemma concat_chunks {A} (row : list A) (w k : nat) :
  concat (map (fun i => take w (drop (i * w) row)) (seq 0 k)) = take (k * w) row.
Proof.
  induction k as [|k IH]; [done|].
  rewrite seq_S, map_app, concat_app, IH. simpl.
  rewrite app_nil_r, take_take_drop. f_equal. lia.
Qed.

Lemma range_multiples (stop step : Z) :
  1 <= step ->
  Py.range 0 stop step
  = Ok (map (fun i => Z.of_nat i * step)
            (seq 0 (Z.to_nat (if 0 <? stop then (stop - 1) / step + 1 else 0)))).
Proof.
  intros Hstep. unfold Py.range, Py.range_len.
  destruct (Z.eqb_spec step 0); [lia|].
  destruct (Z.ltb_spec 0 step); [|lia].
  rewrite Z.sub_0_r. by destruct (0 <? stop).
Qed.

(** With a step equal to the window size the windows partition the block:
    there are [num_samples / window_size] of them, and for every channel
    their rows, joined in order, are the first
    [(num_samples / window_size) * window_size] samples of the channel. *)
Theorem sliding_window_partition data (window_size : Z) :
  rectangular data -> 1 <= window_size ->
  let k := Z.to_nat (Z.of_nat (ncols data) / window_size) in
  exists windows,
    sliding_window data window_size window_size = Ok windows
    /\ length windows = k
    /\ forall (ch : nat) (row : list F),
         rows data !! ch = Some row ->
         concat (map (fun w => default [] (rows w !! ch)) windows)
         = take (k * Z.to_nat window_size) row.
Proof.
  intros Hrect Hw k. set (N := ncols data) in *.
  unfold sliding_window, window_starts, shape. fold N.
  rewrite range_multiples by done. simpl. rewrite foldl_snoc_map. simpl.
  assert (Hk : Z.to_nat (if 0 <? Z.of_nat N - window_size + 1
                         then (Z.of_nat N - window_size + 1 - 1) / window_size + 1
                         else 0) = k).
  { unfold k. destruct (Z.ltb_spec 0 (Z.of_nat N - window_size + 1)).
    - replace (Z.of_nat N - window_size + 1 - 1)
        with (Z.of_nat N + (-1) * window_size) by lia.
      rewrite Z.div_add by lia. f_equal. lia.
    - rewrite Z.div_small by lia. done. }
  rewrite Hk. eexists. split; [reflexivity|].
  split; [by rewrite !length_map, length_seq|].
  intros ch row Hrow. rewrite !List.map_map.
  assert (Hlen : length row = N).
  { eapply Forall_lookup_1 in Hrect; [exact Hrect|exact Hrow]. }
  assert (HkN : (k * Z.to_nat window_size <= N)%nat).
  { unfold k. pose proof (Z.mul_div_le (Z.of_nat N) window_size ltac:(lia)).
    assert (0 <= Z.of_nat N / window_size) by (apply Z.div_pos; lia). nia. }
  rewrite <- concat_chunks. f_equal.
  apply map_ext_in. intros i Hi. apply in_seq in Hi. simpl.
  unfold slice_cols. simpl.
  rewrite list_lookup_fmap, Hrow. simpl.
  replace (Z.of_nat i * window_size + window_size)
    with (Z.of_nat (i * Z.to_nat window_size + Z.to_nat window_size)) by lia.
  replace (Z.of_nat i * window_size)
    with (Z.of_nat (i * Z.to_nat window_size)) by lia.
  rewrite slice_between by nia. f_equal. lia.
Qed.

End WindowingMore.

Section WindowingMoreInstances.

Import Windowing.

Lemma sliding_window_partition_witness :
  exists windows,
    sliding_window (mk_ndarray2 [[1; 2; 3; 4; 5]; [6; 7; 8; 9; 10]] 5) 2 2 = Ok windows
    /\ length windows = 2%nat
    /\ forall (ch : nat) (row : list Z),
         [[1; 2; 3; 4; 5]; [6; 7; 8; 9; 10]] !! ch = Some row ->
         concat (map (fun w => default [] (rows w !! ch)) windows) = take 4 row.
Proof.
  apply (sliding_window_partition
           (mk_ndarray2 [[1; 2; 3; 4; 5]; [6; 7; 8; 9; 10]] 5) 2).
  - repeat constructor.
  - lia.
Defined.

End WindowingMoreInstances.

(** ** Wavelet features: number of rows, relations between descriptors *)

Section FeatureRows.

Import Emg.
Local Open Scope R_scope.

Variable dwt : list R -> result (list R * list R).

Lemma window_loop_defined (emg_data : ndarray2 R) (window_size : Z) starts :
  forall acc,
  dwt_defined dwt -> (1 <= window_size)%Z ->
  Forall (fun s => (0 <= s /\ s + window_size
                             <= Z.of_nat (length (rows emg_data)))%Z) starts ->
  exists feats,
    for_ starts
         (fun features start =>
            let window := Windowing.slice_rows emg_data (Some start)
                            (Some (start + window_size)%Z) in
            wf ← window_features dwt window;
            Ok (features ++ [wf]))
         acc = Ok feats
    /\ length feats = (length acc + length starts)%nat.
Proof.
  induction starts as [|s starts IH]; intros acc Hd Hw Hs; simpl.
  - eexists. split; [done|]. lia.
  - apply Forall_cons in Hs as [[Hs0 Hs1] Hs].
    destruct (window_features_defined dwt
                (Windowing.slice_rows emg_data (Some s) (Some (s + window_size)%Z))
                Hd) as (wf & ->).
    { unfold Windowing.slice_rows. simpl. intros E.
      apply (f_equal length) in E. rewrite slice_length in E by lia.
      simpl in E. lia. }
    simpl. destruct (IH (acc ++ [wf]) Hd Hw Hs) as (feats & E & Hlen).
    exists feats. split; [exact E|]. rewrite length_app in Hlen. simpl in Hlen. lia.
Qed.

(** [extract_wavelet_features] raises [ValueError] when the overlap equals
    the window size (the step of the loop is 0). With a window of at least
    one sample, a smaller overlap and a transform that yields its
    coefficients, it returns one feature vector for each start
    [0, step, 2 step, ...] with [start + window_size <= num_samples]:
    [(num_samples - window_size) / step + 1] rows, none when the data is
    shorter than the window. *)
Theorem extract_wavelet_features_rows
    (emg_data : ndarray2 R) (window_size overlap : Z) :
  extract_wavelet_features dwt emg_data window_size window_size
  = Raise ValueError
  /\ (dwt_defined dwt -> (1 <= window_size)%Z -> (overlap < window_size)%Z ->
      exists feats,
        extract_wavelet_features dwt emg_data window_size overlap = Ok feats
        /\ Z.of_nat (length feats)
           = (if window_size <=? Z.of_nat (length (rows emg_data))
              then (Z.of_nat (length (rows emg_data)) - window_size)
                   / (window_size - overlap) + 1
              else 0)%Z).
Proof.
  split.
  - unfold extract_wavelet_features, shape, Py.range.
    by rewrite Z.sub_diag.
  - intros Hd Hw Hov. unfold extract_wavelet_features, shape.
    destruct (range_from_zero
                (Z.of_nat (length (rows emg_data)) - window_size + 1)
                (window_size - overlap) ltac:(lia)) as (starts & -> & Hin & Hlen).
    simpl.
    destruct (window_loop_defined emg_data window_size starts [] Hd Hw)
      as (feats & E & Hl).
    { eapply Forall_impl; [exact Hin|]. intros s Hs. simpl in *. lia. }
    exists feats. split; [exact E|]. simpl in Hl. rewrite Hl, Hlen.
    destruct (Z.ltb_spec 0 (Z.of_nat (length (rows emg_data)) - window_size + 1));
      destruct (Z.leb_spec window_size (Z.of_nat (length (rows emg_data))));
      try lia.
    do 2 f_equal. lia.
Qed.

End FeatureRows.

Section FeatureRowsInstance.

Import Emg.
Local Open Scope R_scope.

Lemma extract_wavelet_features_rows_witness :
  exists feats,
    extract_wavelet_features haar_dwt
      (mk_ndarray2 [[1; 2]; [3; 4]; [5; 6]; [7; 8]] 2) 2 1 = Ok feats
    /\ Z.of_nat (length feats) = 3%Z.
Proof.
  apply (extract_wavelet_features_rows haar_dwt
           (mk_ndarray2 [[1; 2]; [3; 4]; [5; 6]; [7; 8]] 2) 2 1).
  - exact haar_dwt_defined.
  - lia.
  - lia.
Defined.

End FeatureRowsInstance.

Section DescriptorFacts.

Import Emg.
Local Open Scope R_scope.

Lemma np_sum_abs_nonneg l : 0 <= np_sum (np_abs l).
Proof.
  induction l as [|x l IH]; [simpl; lra|]. pose proof (Rabs_pos x).
  change (np_sum (np_abs (x :: l))) with (Rabs x + np_sum (np_abs l)). lra.
Qed.

Lemma np_sum_square_nonneg l : 0 <= np_sum (np_square l).
Proof.
  induction l as [|x l IH]; [simpl; lra|].
  change (np_sum (np_square (x :: l))) with (x * x + np_sum (np_square l)). nra.
Qed.

Lemma INR_length_pos {A} (x : A) l : 0 < INR (length (x :: l)).
Proof. apply lt_0_INR. simpl. lia. Qed.

Lemma foldl_Rmin_le l : forall x,
  foldl Rmin x l <= x /\ Forall (fun c => foldl Rmin x l <= c) l.
Proof.
  induction l as [|y l IH]; intros x; simpl.
  - split; [lra|done].
  - destruct (IH (Rmin x y)) as [H1 H2].
    pose proof (Rmin_l x y). pose proof (Rmin_r x y).
    split; [lra|]. apply Forall_cons_2; [lra|done].
Qed.

Lemma foldl_Rmax_ge l : forall x,
  x <= foldl Rmax x l /\ Forall (fun c => c <= foldl Rmax x l) l.
Proof.
  induction l as [|y l IH]; intros x; simpl.
  - split; [lra|done].
  - destruct (IH (Rmax x y)) as [H1 H2].
    pose proof (Rmax_l x y). pose proof (Rmax_r x y).
    split; [lra|]. apply Forall_cons_2; [lra|done].
Qed.

Lemma np_sqrt_nonneg r : 0 <= r -> np_sqrt (Finite r) = Finite (sqrt r).
Proof. intros H. unfold np_sqrt. destruct (Rlt_dec r 0); [lra|done]. Qed.

Lemma np_mean_map_cons (f : R -> R) x l :
  np_mean (map f (x :: l)) = Finite (np_sum (map f (x :: l)) / INR (length (x :: l))).
Proof. unfold np_mean. simpl map. by rewrite !length_cons, length_map. Qed.

(** An empty component makes [descriptors] raise [ValueError] (from
    [np.min]). For any other component the 19 descriptors are returned and
    several of them determine each other: MAV is IEMG divided by the
    length, M2 is SSI divided by the length, RMS is the square root of M2,
    DASDV is the square root of DVARV; MIN and MAX bound every
    coefficient. *)
Theorem descriptor_relations (coeff : list R) :
  descriptors [] = Raise ValueError
  /\ (coeff <> [] ->
      exists ds iemg ssi mn mx,
        let n := INR (length coeff) in
        descriptors coeff = Ok ds
        /\ ds !! 0%nat = Some (Finite iemg)
        /\ ds !! 1%nat = Some (Finite (iemg / n))
        /\ ds !! 2%nat = Some (Finite ssi)
        /\ ds !! 3%nat = Some (Finite (sqrt (ssi / n)))
        /\ ds !! 8%nat = Some (Finite (ssi / n))
        /\ ds !! 10%nat = np_sqrt <$> ds !! 9%nat
        /\ ds !! 17%nat = Some (Finite mn)
        /\ ds !! 18%nat = Some (Finite mx)
        /\ 0 <= iemg /\ 0 <= ssi
        /\ Forall (fun c => mn <= c <= mx) coeff).
Proof.
  split; [done|]. intros Hne. destruct coeff as [|x l]; [done|].
  unfold descriptors. cbn [np_min np_max mbind result_bind].
  eexists _, (np_sum (np_abs (x :: l))), (np_sum (np_square (x :: l))), _, _.
  cbn zeta. split; [reflexivity|].
  pose proof (np_sum_square_nonneg (x :: l)) as Hsq.
  pose proof (INR_length_pos x l) as Hn.
  split_and!; try done.
  - cbn [lookup list_lookup]. unfold np_abs. by rewrite np_mean_map_cons.
  - cbn [lookup list_lookup]. unfold np_square. rewrite np_mean_map_cons.
    rewrite np_sqrt_nonneg; [done|].
    apply Rmult_le_pos; [exact Hsq|]. left. by apply Rinv_0_lt_compat.
  - apply np_sum_abs_nonneg.
  - destruct (foldl_Rmin_le l x) as [H1 H2].
    destruct (foldl_Rmax_ge l x) as [H3 H4].
    apply Forall_cons_2; [lra|].
    apply Forall_and. split; done.
Qed.

End DescriptorFacts.

Section ConstantComponent.

Import Emg.
Local Open Scope R_scope.

Lemma map_replicate {A B} (f : A -> B) (n : nat) (c : A) :
  map f (replicate n c) = replicate n (f c).
Proof. induction n as [|n IH]; simpl; [done|]. by rewrite IH. Qed.

Lemma np_sum_replicate (n : nat) (c : R) : np_sum (replicate n c) = INR n * c.
Proof.
  induction n as [|n IH]; [simpl; lra|].
  change (np_sum (replicate (S n) c)) with (c + np_sum (replicate n c)).
  rewrite IH, S_INR. lra.
Qed.

Lemma np_mean_replicate (n : nat) (c : R) : np_mean (replicate (S n) c) = Finite c.
Proof.
  unfold np_mean. change (replicate (S n) c) with (c :: replicate n c) at 1.
  cbv iota beta. rewrite np_sum_replicate, length_replicate. f_equal.
  field. apply not_0_INR. lia.
Qed.

Lemma np_var_replicate (n : nat) (c : R) : np_var (replicate (S n) c) = Finite 0.
Proof.
  unfold np_var. change (replicate (S n) c) with (c :: replicate n c) at 1.
  cbv iota beta zeta. rewrite np_sum_replicate, length_replicate.
  replace (INR (S n) * c / INR (S n)) with c
    by (field; apply not_0_INR; lia).
  rewrite map_replicate, np_mean_replicate. f_equal.
  rewrite Rminus_diag, Rabs_R0. lra.
Qed.

Lemma np_diff_replicate (n : nat) (c : R) :
  np_diff (replicate (S n) c) = replicate n 0.
Proof.
  unfold np_diff. simpl tail.
  induction n as [|n IH]; [done|].
  change (replicate (S (S n)) c) with (c :: replicate (S n) c).
  change (replicate (S n) c) with (c :: replicate n c) at 2.
  cbn [zip_with]. rewrite IH. simpl. f_equal. lra.
Qed.

Lemma np_sqrt_zero : np_sqrt (Finite 0) = Finite 0.
Proof. rewrite np_sqrt_nonneg by lra. by rewrite sqrt_0. Qed.

Lemma foldl_Rmin_replicate (n : nat) (c : R) : foldl Rmin c (replicate n c) = c.
Proof.
  induction n as [|n IH]; simpl; [done|]. rewrite Rmin_left by lra. exact IH.
Qed.

Lemma foldl_Rmax_replicate (n : nat) (c : R) : foldl Rmax c (replicate n c) = c.
Proof.
  induction n as [|n IH]; simpl; [done|]. rewrite Rmax_left by lra. exact IH.
Qed.

(** On a component of at least two equal coefficients [c] the variance
    descriptors are exactly 0 (VAR, DVARV, DASDV), so are the waveform
    length and the mean absolute difference (WL, DAMV), MAV and RMS are
    [|c|] and MIN and MAX are [c]. On a component of a single coefficient
    VAR is 0 as well, but DAMV, DVARV and DASDV are not-a-number: the
    array of differences is empty. *)
Theorem descriptors_of_constant_component (n : nat) (c : R) :
  (exists ds,
     descriptors (replicate (S (S n)) c) = Ok ds
     /\ ds !! 1%nat = Some (Finite (Rabs c))
     /\ ds !! 3%nat = Some (Finite (Rabs c))
     /\ ds !! 4%nat = Some (Finite 0)
     /\ ds !! 6%nat = Some (Finite 0)
     /\ ds !! 7%nat = Some (Finite 0)
     /\ ds !! 9%nat = Some (Finite 0)
     /\ ds !! 10%nat = Some (Finite 0)
     /\ ds !! 17%nat = Some (Finite c)
     /\ ds !! 18%nat = Some (Finite c))
  /\ (exists ds,
        descriptors [c] = Ok ds
        /\ ds !! 4%nat = Some (Finite 0)
        /\ ds !! 7%nat = Some NaN
        /\ ds !! 9%nat = Some NaN
        /\ ds !! 10%nat = Some NaN).
Proof.
  split.
  - unfold descriptors.
    change (np_min (replicate (S (S n)) c))
      with (Ok (foldl Rmin c (replicate (S n) c)) : result R).
    change (np_max (replicate (S (S n)) c))
      with (Ok (foldl Rmax c (replicate (S n) c)) : result R).
    cbn [mbind result_bind]. eexists. split; [reflexivity|].
    cbn [lookup list_lookup].
    rewrite foldl_Rmin_replicate, foldl_Rmax_replicate.
    unfold np_std. rewrite !np_diff_replicate.
    unfold np_abs, np_square. rewrite !map_replicate.
    rewrite !np_mean_replicate, !np_var_replicate, np_sum_replicate.
    rewrite Rabs_R0, Rmult_0_r, np_sqrt_zero.
    rewrite np_sqrt_nonneg by nra.
    replace (c * c) with (Rsqr c) by (unfold Rsqr; lra).
    rewrite sqrt_Rsqr_abs. done.
  - unfold descriptors. cbn [np_min np_max mbind result_bind foldl].
    eexists. split; [reflexivity|]. cbn [lookup list_lookup].
    replace (np_var [c]) with (Finite 0); [done|].
    symmetry. apply (np_var_replicate 0 c).
Qed.

End ConstantComponent.

(** ** Conditioning stages: values *)

Section StageValues.

Import Emg.
Local Open Scope R_scope.

(** [rectify_emg] returns an array of the shape of its input whose entries
    are all non-negative, and rectifying that array again returns the same
    values. The input may own its buffer or be a view; the arrays returned
    own theirs. *)
Theorem rectify_emg_values (h : heap) (emg_data : aref) (a : ndarray2 R) :
  read h emg_data = Some a ->
  exists rectified h1 r,
    rectify_emg emg_data h = (h1, Ok rectified)
    /\ view rectified = None
    /\ h1 !! buf rectified = Some r
    /\ shape r = shape a
    /\ Forall (Forall (fun v => 0 <= v)) (rows r)
    /\ exists again h2,
         rectify_emg rectified h1 = (h2, Ok again)
         /\ view again = None
         /\ h2 !! buf again = Some r.
Proof.
  intros Hl. unfold rectify_emg.
  rewrite (bind_ok _ _ h h a) by by apply load_eq.
  rewrite alloc_eq. eexists _, _, _. split; [reflexivity|].
  split; [done|].
  split; [apply lookup_insert_eq|].
  split; [unfold shape; simpl; by rewrite length_map|].
  split.
  { simpl. apply List.Forall_map, List.Forall_forall. intros row _.
    apply List.Forall_map, List.Forall_forall. intros v _. apply Rabs_pos. }
  erewrite bind_ok; [|apply load_eq; rewrite read_owner; apply lookup_insert_eq].
  rewrite alloc_eq. eexists _, _. split; [reflexivity|].
  split; [done|].
  cbn [buf]. rewrite lookup_insert_eq. simpl. do 2 f_equal.
  rewrite List.map_map. apply map_ext. intros row.
  unfold np_abs. rewrite List.map_map. apply map_ext. intros v.
  apply Rabs_Rabsolu.
Qed.

Lemma nth_zip_with_minus (row v : list R) (j : nat) :
  (j < length row)%nat -> (j < length v)%nat ->
  nth j (zip_with Rminus row v) 0 = nth j row 0 - nth j v 0.
Proof.
  revert v j. induction row as [|x row IH]; intros [|y v] [|j] Hr Hv;
    simpl in *; try lia; try done.
  apply IH; lia.
Qed.

Lemma np_sum_map_minus {A} (f : A -> R) (c : R) (l : list A) :
  np_sum (map (fun r => f r - c) l) = np_sum (map f l) - INR (length l) * c.
Proof.
  induction l as [|x l IH]; [simpl; lra|].
  change (np_sum (map (fun r => f r - c) (x :: l)))
    with (f x - c + np_sum (map (fun r => f r - c) l)).
  change (np_sum (map f (x :: l))) with (f x + np_sum (map f l)).
  rewrite IH, length_cons, S_INR. lra.
Qed.

Lemma nth_np_mean_axis0 (a : ndarray2 R) (j : nat) :
  (j < ncols a)%nat ->
  nth j (np_mean_axis0 a) 0
  = np_sum (map (fun r => nth j r 0) (rows a)) / INR (length (rows a)).
Proof.
  intros Hj. unfold np_mean_axis0. rewrite nth_lookup, list_lookup_fmap.
  rewrite lookup_seq_lt by done. done.
Qed.

Lemma car_mean_zero (a : ndarray2 R) :
  rectangular a -> rows a <> [] ->
  np_mean_axis0 (sub_rows a (np_mean_axis0 a)) = replicate (ncols a) 0.
Proof.
  intros Hrect Hne.
  assert (Hn : INR (length (rows a)) <> 0).
  { apply not_0_INR. destruct (rows a); simpl; [done|lia]. }
  unfold np_mean_axis0 at 1. unfold sub_rows. simpl.
  rewrite length_map.
  transitivity (map (fun _ : nat => 0) (seq 0 (ncols a))).
  2:{ generalize 0%nat. induction (ncols a) as [|n IH]; intros s; simpl; [done|].
      by rewrite IH. }
  apply map_ext_in. intros j Hj. apply in_seq in Hj.
  rewrite List.map_map.
  rewrite (map_ext_in _ (fun r => nth j r 0 - nth j (np_mean_axis0 a) 0)).
  2:{ intros r Hr. apply nth_zip_with_minus.
      - unfold rectangular in Hrect. rewrite List.Forall_forall in Hrect.
        rewrite (Hrect r Hr). lia.
      - rewrite np_mean_axis0_length. lia. }
  rewrite np_sum_map_minus, nth_np_mean_axis0 by lia. field. exact Hn.
Qed.

Lemma sub_rows_zero (a : ndarray2 R) :
  rectangular a -> sub_rows a (replicate (ncols a) 0) = a.
Proof.
  intros Hrect. destruct a as [rs n]. unfold sub_rows, rectangular in *.
  simpl in *. f_equal.
  induction Hrect as [|r rs Hr _ IH]; simpl; [done|]. rewrite IH. f_equal.
  clear IH. revert n Hr. induction r as [|x r IH]; intros [|n] Hr;
    simpl in *; try done. f_equal; [lra|]. apply IH. lia.
Qed.

Lemma sub_rows_rectangular (a : ndarray2 R) (v : list R) :
  rectangular a -> length v = ncols a -> rectangular (sub_rows a v).
Proof.
  intros Hrect Hv. unfold rectangular, sub_rows in *. simpl.
  apply List.Forall_map. eapply Forall_impl; [exact Hrect|].
  intros r Hr. simpl in *. rewrite length_zip_with. lia.
Qed.

(** For a block with at least one channel, the output of
    [common_average_reference] has an average of zero across the channels
    at every sample, and applying [common_average_reference] to it again
    returns the same values. The input may own its buffer or be a view;
    the arrays returned own theirs. *)
Theorem car_output_is_zero_mean (h : heap) (emg_data : aref) (a : ndarray2 R) :
  read h emg_data = Some a ->
  rectangular a -> rows a <> [] ->
  exists car_data h1 c,
    common_average_reference emg_data h = (h1, Ok car_data)
    /\ view car_data = None
    /\ h1 !! buf car_data = Some c
    /\ shape c = shape a
    /\ np_mean_axis0 c = replicate (ncols a) 0
    /\ exists again h2,
         common_average_reference car_data h1 = (h2, Ok again)
         /\ view again = None
         /\ h2 !! buf again = Some c.
Proof.
  intros Hl Hrect Hne. unfold common_average_reference.
  rewrite (bind_ok _ _ h h a) by by apply load_eq.
  rewrite alloc_eq. eexists _, _, _. split; [reflexivity|].
  split; [done|].
  split; [apply lookup_insert_eq|].
  split; [unfold shape; simpl; by rewrite length_map|].
  split; [by apply car_mean_zero|].
  erewrite bind_ok; [|apply load_eq; rewrite read_owner; apply lookup_insert_eq].
  rewrite alloc_eq. eexists _, _. split; [reflexivity|].
  split; [done|].
  cbn [buf]. rewrite lookup_insert_eq. f_equal.
  rewrite car_mean_zero by done.
  apply (sub_rows_zero (sub_rows a (np_mean_axis0 a))).
  apply sub_rows_rectangular; [done|apply np_mean_axis0_length].
Qed.

End StageValues.

Section StageValuesInstances.

Import Emg.
Local Open Scope R_scope.

Lemma rectify_emg_values_witness :
  exists rectified h1 r,
    rectify_emg (mk_aref 0 None) {[ 0%nat := mk_ndarray2 [[1; -2]; [-3; 4]] 2 ]}
    = (h1, Ok rectified)
    /\ view rectified = None
    /\ h1 !! buf rectified = Some r
    /\ shape r = shape (mk_ndarray2 [[1; -2]; [-3; 4]] 2)
    /\ Forall (Forall (fun v => 0 <= v)) (rows r)
    /\ exists again h2,
         rectify_emg rectified h1 = (h2, Ok again)
         /\ view again = None
         /\ h2 !! buf again = Some r.
Proof.
  apply (rectify_emg_values {[ 0%nat := mk_ndarray2 [[1; -2]; [-3; 4]] 2 ]}
           (mk_aref 0 None) (mk_ndarray2 [[1; -2]; [-3; 4]] 2)).
  rewrite read_owner. apply lookup_singleton_eq.
Defined.

Lemma car_output_is_zero_mean_witness :
  exists car_data h1 c,
    common_average_reference (mk_aref 0 None)
      {[ 0%nat := mk_ndarray2 [[1; 2]; [3; 6]] 2 ]}
    = (h1, Ok car_data)
    /\ view car_data = None
    /\ h1 !! buf car_data = Some c
    /\ shape c = shape (mk_ndarray2 [[1; 2]; [3; 6]] 2)
    /\ np_mean_axis0 c = replicate 2 0
    /\ exists again h2,
         common_average_reference car_data h1 = (h2, Ok again)
         /\ view again = None
         /\ h2 !! buf again = Some c.
Proof.
  apply (car_output_is_zero_mean {[ 0%nat := mk_ndarray2 [[1; 2]; [3; 6]] 2 ]}
           (mk_aref 0 None) (mk_ndarray2 [[1; 2]; [3; 6]] 2)).
  - rewrite read_owner. apply lookup_singleton_eq.
  - repeat constructor.
  - discriminate.
Defined.

End StageValuesInstances.

Section PipelineEdges.

Import Emg.
Local Open Scope R_scope.

Variable butter : Z -> list R -> string -> result (list R * list R).
Variable filtfilt : list R -> list R -> ndarray2 R -> Z -> result (ndarray2 R).
Variable hilbert : ndarray2 R -> Z -> result (list (list (R * R))).

Lemma assign_whole (row : list R) (k : Z) :
  k = 0%Z \/ (Z.of_nat (length row) <= k)%Z ->
  assign_slice row (Some (- k)%Z) None 0 = replicate (length row) 0.
Proof.
  intros Hk. unfold assign_slice, Py.bound.
  assert (Ha : (if (- k <? 0)%Z
                then Z.to_nat (Z.max 0 (- k + Z.of_nat (length row)))
                else Z.to_nat (Z.min (- k) (Z.of_nat (length row)))) = 0%nat).
  { destruct (Z.ltb_spec (- k) 0); lia. }
  rewrite Ha. destruct (Nat.leb_spec (length row) 0) as [H0|H0].
  - assert (length row = 0%nat) as E by lia.
    apply nil_length_inv in E. by subst.
  - rewrite drop_all, app_nil_r, Nat.sub_0_r. done.
Qed.

Lemma assign_cols_whole (a : ndarray2 R) (k : Z) :
  rectangular a ->
  k = 0%Z \/ (Z.of_nat (ncols a) <= k)%Z ->
  assign_cols a (Some (- k)%Z) None 0
  = mk_ndarray2 (replicate (length (rows a)) (replicate (ncols a) 0)) (ncols a).
Proof.
  intros Hrect Hk. unfold assign_cols. f_equal.
  unfold rectangular in Hrect.
  induction Hrect as [|row rs Hr _ IH]; simpl; [done|].
  rewrite IH. f_equal. rewrite assign_whole by (rewrite Hr; lia).
  by rewrite Hr.
Qed.

Lemma slice_whole {A} (l : list A) (k : Z) :
  k = 0%Z \/ (Z.of_nat (length l) <= k)%Z -> Py.slice l (Some (- k)%Z) None = l.
Proof.
  intros Hk. unfold Py.slice, Py.bound.
  assert (Ha : (if (- k <? 0)%Z
                then Z.to_nat (Z.max 0 (- k + Z.of_nat (length l)))
                else Z.to_nat (Z.min (- k) (Z.of_nat (length l)))) = 0%nat).
  { destruct (Z.ltb_spec (- k) 0); lia. }
  rewrite Ha, Nat.sub_0_r. simpl. apply firstn_all.
Qed.

(** An assignment to all the columns of an array leaves it showing the
    assigned value only, whether or not its elements are distinct. *)
Lemma seen_assign_through_whole (b a : ndarray2 R) (w : option view_map) (k : Z) :
  seen b w = Some a ->
  rectangular a ->
  k = 0%Z \/ (Z.of_nat (ncols a) <= k)%Z ->
  seen (assign_through b w (Some (- k)%Z) None 0) w
  = Some (mk_ndarray2 (replicate (length (rows a)) (replicate (ncols a) 0))
                      (ncols a)).
Proof.
  intros Hs Hrect Hk. destruct w as [m|].
  2:{ simpl in *. injection Hs as <-. f_equal. by apply assign_cols_whole. }
  cbn [assign_through seen] in *.
  destruct (mapM (mapM (get b)) (cells m)) as [rs|] eqn:E; simpl in Hs; [|done].
  injection Hs as <-. unfold rectangular in Hrect. cbn [rows ncols] in *.
  apply mapM_Some_1 in E.
  erewrite mapM_Some_2; [reflexivity|].
  apply Forall2_same_length_lookup. split.
  { rewrite length_replicate. by eapply Forall2_length. }
  intros i cs zs Hcs Hzs.
  apply lookup_replicate in Hzs as [-> Hi].
  destruct (rs !! i) as [row|] eqn:Hrow.
  2:{ apply lookup_ge_None in Hrow. lia. }
  pose proof (Forall2_lookup_lr _ _ _ _ _ _ E Hcs Hrow) as Hget. simpl in Hget.
  rewrite (mapM_get_set_cells _ _ _ _ _ Hget). f_equal.
  pose proof (length_mapM _ _ _ Hget) as Hlen.
  assert (Hr : length row = width m).
  { eapply Forall_lookup_1 in Hrect; [|exact Hrow]. done. }
  rewrite zip_cells_set; [by rewrite Hr|done|].
  intros c Hc. apply elem_of_concat. exists cs. split; [|done].
  rewrite <- (slice_whole cs k) by (rewrite Hlen, Hr; lia).
  apply (list_elem_of_fmap_2 (fun r => Py.slice r (Some (- k)%Z) None)).
  by eapply list_elem_of_lookup_2.
Qed.

(** When the sample rate read from the recording is 0, or is at least the
    number of samples of the block, [process_emg_pipeline] overwrites every
    sample of the array passed in with zero before it filters. The array
    may own its buffer, which then holds zeros only, or be a view of
    another array. *)
Theorem process_emg_pipeline_zeroes_everything
    (data : recording) (lowcut highcut : R) (order window_size : Z)
    (h : heap) (a : ndarray2 R) :
  read h (amplifier_data data) = Some a ->
  rectangular a ->
  board_dig_in_sample_rate data = 0%Z
  \/ (Z.of_nat (ncols a) <= board_dig_in_sample_rate data)%Z ->
  let h' := fst (process_emg_pipeline butter filtfilt hilbert data lowcut highcut
                   order window_size h) in
  let zeros :=
    mk_ndarray2 (replicate (length (rows a)) (replicate (ncols a) 0)) (ncols a) in
  read h' (amplifier_data data) = Some zeros
  /\ (view (amplifier_data data) = None ->
      h' !! buf (amplifier_data data) = Some zeros).
Proof.
  intros (b & Hl & Hseen)%read_Some Hrect Hrate h' zeros.
  pose proof (process_emg_pipeline_store butter filtfilt hilbert data
                lowcut highcut order window_size h b Hl) as Hsub.
  fold h' in Hsub.
  assert (Hb' : h' !! buf (amplifier_data data)
                = Some (assign_through b (view (amplifier_data data))
                          (Some (- board_dig_in_sample_rate data)%Z) None 0)).
  { eapply lookup_weaken; [apply lookup_insert_eq|exact Hsub]. }
  assert (Hread : read h' (amplifier_data data) = Some zeros).
  { apply read_Some. eexists. split; [exact Hb'|].
    by apply seen_assign_through_whole. }
  split; [done|]. intros Hv.
  apply read_Some in Hread as (b' & Hb & Hs). rewrite Hv in Hs.
  simpl in Hs. congruence.
Qed.

(** For a sampling rate of 0 the Nyquist frequency is 0.0 and the
    quotients that normalise the cut-off frequencies raise. *)
Lemma butter_zero_rate (lowcut highcut : R) (order : Z) :
  butter_bandpass butter lowcut highcut 0 order = Raise ZeroDivisionError
  /\ butter_lowpass butter lowcut 0 order = Raise ZeroDivisionError.
Proof.
  unfold butter_bandpass, butter_lowpass, py_div.
  destruct (Req_dec_T (0.5 * 0) 0) as [_|H]; [done|]. exfalso. apply H. lra.
Qed.

(** [filter_emg] with a filter type other than 'bandpass' and 'lowpass'
    raises [UnboundLocalError], and [envelope_extraction] with a method
    other than 'hilbert' raises [ValueError]; neither calls a filter nor
    creates or changes an array. *)
Theorem unknown_filter_type_and_method
    (emg_data : aref) (filter_type method : string) (lowcut highcut : R)
    (fs order : Z) (h : heap) :
  filter_type <> "bandpass"%string -> filter_type <> "lowpass"%string ->
  method <> "hilbert"%string ->
  filter_emg butter filtfilt emg_data filter_type lowcut highcut fs order h
  = (h, Raise UnboundLocalError)
  /\ envelope_extraction hilbert emg_data method h = (h, Raise ValueError).
Proof.
  intros H1 H2 H3. unfold filter_emg, envelope_extraction.
  destruct (String.eqb_spec filter_type "bandpass"); [done|].
  destruct (String.eqb_spec filter_type "lowpass"); [done|].
  destruct (String.eqb_spec method "hilbert"); [done|]. done.
Qed.

End PipelineEdges.

Section PipelineEdgesInstances.

Import Emg.
Local Open Scope R_scope.

Lemma process_emg_pipeline_zeroes_everything_witness :
  let h' :=
    fst (process_emg_pipeline
           (fun _ _ _ => Ok ([1], [1])) (fun _ _ d _ => Ok d)
           (fun d _ => Ok (map (map (fun x => (x, 0))) (rows d)))
           {| amplifier_data := mk_aref 0 None; board_dig_in_sample_rate := 0 |}
           30 500 5 400
           {[ 0%nat := mk_ndarray2 [[1; 2; 3]; [4; 5; 6]] 3 ]}) in
  read h' (mk_aref 0 None) = Some (mk_ndarray2 [[0; 0; 0]; [0; 0; 0]] 3)
  /\ h' !! 0%nat = Some (mk_ndarray2 [[0; 0; 0]; [0; 0; 0]] 3).
Proof.
  intros h'.
  pose proof (process_emg_pipeline_zeroes_everything
                (fun _ _ _ => Ok ([1], [1])) (fun _ _ d _ => Ok d)
                (fun d _ => Ok (map (map (fun x => (x, 0))) (rows d)))
                {| amplifier_data := mk_aref 0 None; board_dig_in_sample_rate := 0 |}
                30 500 5 400
                {[ 0%nat := mk_ndarray2 [[1; 2; 3]; [4; 5; 6]] 3 ]}
                (mk_ndarray2 [[1; 2; 3]; [4; 5; 6]] 3)
                ltac:(cbn [amplifier_data]; rewrite read_owner;
                      apply lookup_singleton_eq)
                ltac:(repeat constructor) ltac:(left; reflexivity))
    as [H1 H2].
  split; [exact H1|exact (H2 eq_refl)].
Defined.

Lemma unknown_filter_type_and_method_witness :
  filter_emg (fun _ _ _ => Ok ([1], [1])) (fun _ _ d _ => Ok d)
    (mk_aref 0 None) "highpass" 30 500 1000 5 ∅
  = (∅, Raise UnboundLocalError)
  /\ envelope_extraction (fun d _ => Ok (map (map (fun x => (x, 0))) (rows d)))
       (mk_aref 0 None) "rms" ∅
     = (∅, Raise ValueError).
Proof.
  apply (unknown_filter_type_and_method
           (fun _ _ _ => Ok ([1], [1])) (fun _ _ d _ => Ok d)
           (fun d _ => Ok (map (map (fun x => (x, 0))) (rows d)))
           (mk_aref 0 None) "highpass" "rms" 30 500 1000 5 ∅); discriminate.
Defined.

End PipelineEdgesInstances.

(** ** Normalisation *)

Section ZScore.

Import Emg.
Local Open Scope R_scope.

Lemma np_var_value x l :
  np_var (x :: l)
  = Finite (np_sum (map (fun y => Rsqr (y - np_sum (x :: l) / INR (length (x :: l))))
                        (x :: l))
            / INR (length (x :: l))).
Proof.
  unfold np_var. cbv zeta.
  rewrite (np_mean_map_cons
             (fun y => Rabs (y - np_sum (x :: l) / INR (length (x :: l)))
                       * Rabs (y - np_sum (x :: l) / INR (length (x :: l))))).
  do 3 f_equal. apply map_ext. intros y.
  rewrite <- Rabs_mult. apply Rabs_pos_eq. apply Rle_0_sqr.
Qed.

Lemma np_sum_sqr_nonneg (f : R -> R) l : 0 <= np_sum (map (fun y => Rsqr (f y)) l).
Proof.
  induction l as [|y l IH]; [simpl; lra|].
  change (np_sum (map (fun y => Rsqr (f y)) (y :: l)))
    with (Rsqr (f y) + np_sum (map (fun y => Rsqr (f y)) l)).
  pose proof (Rle_0_sqr (f y)). lra.
Qed.

Lemma np_sum_sqr_zero (f : R -> R) l :
  np_sum (map (fun y => Rsqr (f y)) l) = 0 -> Forall (fun y => f y = 0) l.
Proof.
  induction l as [|y l IH]; [done|].
  change (np_sum (map (fun y => Rsqr (f y)) (y :: l)))
    with (Rsqr (f y) + np_sum (map (fun y => Rsqr (f y)) l)).
  intros H. pose proof (Rle_0_sqr (f y)).
  pose proof (np_sum_sqr_nonneg f l).
  apply Forall_cons_2.
  - apply Rsqr_0_uniq. lra.
  - apply IH. lra.
Qed.

(** A channel whose samples are all 0.0 comes out of [z_score_norm] as
    not-a-number at every sample: its mean and its standard deviation are
    0.0, and each sample is 0.0 divided by 0.0. *)
Theorem z_score_norm_zero_channel (data : ndarray2 R) (ch n : nat) :
  rows data !! ch = Some (replicate (S n) 0) ->
  rows (z_score_norm data) !! ch = Some (replicate (S n) NaN).
Proof.
  intros Hrow. unfold z_score_norm. cbn [rows].
  rewrite list_lookup_fmap, Hrow.
  change (Some (z_score_row (replicate (S n) 0)) = Some (replicate (S n) NaN)).
  f_equal. unfold z_score_row, np_std.
  rewrite np_mean_replicate, np_var_replicate, np_sqrt_zero.
  rewrite map_replicate. f_equal.
  unfold np_div. rewrite Rminus_diag.
  destruct (Req_dec_T 0 0); [|done]. by destruct (Req_dec_T 0 0).
Qed.

Lemma np_sum_map_scale (f : R -> R) (k : R) l :
  np_sum (map (fun y => f y * k) l) = np_sum (map f l) * k.
Proof.
  induction l as [|y l IH]; [simpl; lra|].
  change (np_sum (map (fun y => f y * k) (y :: l)))
    with (f y * k + np_sum (map (fun y => f y * k) l)).
  change (np_sum (map f (y :: l))) with (f y + np_sum (map f l)).
  rewrite IH. lra.
Qed.

(** A channel with two different samples comes out of [z_score_norm] with
    finite values of mean 0 and variance 1. *)
Theorem z_score_norm_standardises (data : ndarray2 R) (ch : nat) (row : list R)
    (x y : R) :
  rows data !! ch = Some row ->
  x ∈ row -> y ∈ row -> x <> y ->
  exists zs,
    rows (z_score_norm data) !! ch = Some (map Finite zs)
    /\ length zs = length row
    /\ np_mean zs = Finite 0
    /\ np_var zs = Finite 1.
Proof.
  intros Hrow Hx Hy Hxy. unfold z_score_norm. simpl.
  rewrite list_lookup_fmap, Hrow. simpl.
  destruct row as [|x0 l]; [by apply elem_of_nil in Hx|].
  set (row := x0 :: l) in *.
  set (n := INR (length row)).
  assert (Hn : 0 < n) by apply INR_length_pos.
  set (m := np_sum row / n).
  set (V := np_sum (map (fun y => Rsqr (y - m)) row) / n).
  assert (HV0 : 0 <= V).
  { unfold V. apply Rmult_le_pos; [apply (np_sum_sqr_nonneg (fun y => y - m))|].
    left. by apply Rinv_0_lt_compat. }
  assert (HV : 0 < V).
  { destruct HV0 as [|HV0]; [done|]. exfalso.
    assert (Hz : np_sum (map (fun y => Rsqr (y - m)) row) = 0).
    { unfold V in HV0. apply (Rmult_eq_compat_r n) in HV0.
      field_simplify in HV0; lra. }
    apply (np_sum_sqr_zero (fun y => y - m)) in Hz.
    rewrite List.Forall_forall in Hz.
    apply list_elem_of_In in Hx, Hy.
    pose proof (Hz x Hx). pose proof (Hz y Hy). simpl in *. lra. }
  assert (Hs : 0 < sqrt V) by by apply sqrt_lt_R0.
  assert (Hss : sqrt V * sqrt V = V) by (apply sqrt_sqrt; lra).
  exists (map (fun v => (v - m) / sqrt V) row).
  split.
  { f_equal. unfold z_score_row, np_std.
    unfold row at 1 2. rewrite np_var_value.
    fold row. fold n. fold m. fold V.
    rewrite np_sqrt_nonneg by done.
    unfold np_mean. fold row. fold n. fold m.
    rewrite List.map_map. apply map_ext. intros v. unfold np_div.
    destruct (Req_dec_T (sqrt V) 0); [lra|done]. }
  split; [by rewrite length_map|].
  assert (Hsum : np_sum (map (fun v => (v - m) / sqrt V) row) = 0).
  { unfold Rdiv. rewrite (np_sum_map_scale (fun v => v - m)).
    rewrite (np_sum_map_minus (fun v => v)), map_id. fold n. unfold m.
    field. lra. }
  assert (Hmean : np_mean (map (fun v => (v - m) / sqrt V) row) = Finite 0).
  { unfold row. rewrite np_mean_map_cons. fold row. rewrite Hsum. f_equal.
    fold n. field. lra. }
  split; [exact Hmean|].
  unfold row. simpl map. rewrite np_var_value.
  change ((x0 - m) / sqrt V :: map (fun v => (v - m) / sqrt V) l)
    with (map (fun v => (v - m) / sqrt V) row).
  rewrite Hsum, length_map. fold n. f_equal.
  rewrite List.map_map.
  rewrite (map_ext _ (fun v => Rsqr (v - m) * / V)).
  2:{ intros v. unfold Rsqr, Rdiv. rewrite Rmult_0_l, Rminus_0_r.
      rewrite <- Hss at 3. field. lra. }
  rewrite (np_sum_map_scale (fun v => Rsqr (v - m))).
  unfold V. field. split; [lra|].
  intros E. unfold V in HV. rewrite E in HV. unfold Rdiv in HV. lra.
Qed.

End ZScore.

Section ZScoreInstances.

Import Emg.
Local Open Scope R_scope.

Lemma z_score_norm_zero_channel_witness :
  rows (z_score_norm (mk_ndarray2 [[1; 2; 3]; [0; 0; 0]] 3)) !! 1%nat
  = Some [NaN; NaN; NaN].
Proof.
  apply (z_score_norm_zero_channel
           (mk_ndarray2 [[1; 2; 3]; [0; 0; 0]] 3) 1 2).
  reflexivity.
Defined.

Lemma z_score_norm_standardises_witness :
  exists zs,
    rows (z_score_norm (mk_ndarray2 [[1; 2; 3]; [5; 5; 5]] 3)) !! 0%nat
    = Some (map Finite zs)
    /\ length zs = 3%nat
    /\ np_mean zs = Finite 0
    /\ np_var zs = Finite 1.
Proof.
  apply (z_score_norm_standardises
           (mk_ndarray2 [[1; 2; 3]; [5; 5; 5]] 3) 0 [1; 2; 3] 1 2).
  - reflexivity.
  - left.
  - right. left.
  - lra.
Defined.

End ZScoreInstances.

(** ** RMS features and waveform length *)

Section RmsFacts.

Import Emg.
Local Open Scope R_scope.

Lemma np_diff_cons2 x y l : np_diff (x :: y :: l) = (y - x) :: np_diff (y :: l).
Proof. done. Qed.

Lemma np_sum_diff_telescopes l : forall x z,
  last (x :: l) = Some z -> np_sum (np_diff (x :: l)) = z - x.
Proof.
  induction l as [|y l IH]; intros x z Hz.
  - injection Hz as <-. simpl. lra.
  - rewrite np_diff_cons2.
    change (np_sum ((y - x) :: np_diff (y :: l)))
      with ((y - x) + np_sum (np_diff (y :: l))).
    rewrite last_cons_cons in Hz. rewrite (IH y z Hz). lra.
Qed.

Lemma Rabs_np_sum l : Rabs (np_sum l) <= np_sum (np_abs l).
Proof.
  induction l as [|x l IH]; [simpl; rewrite Rabs_R0; lra|].
  change (np_sum (x :: l)) with (x + np_sum l).
  change (np_sum (np_abs (x :: l))) with (Rabs x + np_sum (np_abs l)).
  pose proof (Rabs_triang x (np_sum l)). lra.
Qed.

Lemma np_diff_offset (c : R) l :
  np_diff (map (fun v => v + c) l) = np_diff l.
Proof.
  induction l as [|x [|y l] IH]; [done|done|].
  change (map (fun v => v + c) (x :: y :: l))
    with (x + c :: map (fun v => v + c) (y :: l)).
  change (map (fun v => v + c) (y :: l))
    with (y + c :: map (fun v => v + c) l) at 1.
  rewrite !np_diff_cons2.
  change (y + c :: map (fun v => v + c) l) with (map (fun v => v + c) (y :: l)).
  rewrite IH. f_equal. lra.
Qed.

Lemma np_diff_scale (k : R) l :
  np_diff (map (Rmult k) l) = map (Rmult k) (np_diff l).
Proof.
  induction l as [|x [|y l] IH]; [done|done|].
  change (map (Rmult k) (x :: y :: l)) with (k * x :: map (Rmult k) (y :: l)).
  change (map (Rmult k) (y :: l)) with (k * y :: map (Rmult k) l) at 1.
  rewrite !np_diff_cons2.
  change (k * y :: map (Rmult k) l) with (map (Rmult k) (y :: l)).
  rewrite IH. simpl. f_equal. lra.
Qed.

Lemma np_sum_abs_scale (k : R) l :
  np_sum (np_abs (map (Rmult k) l)) = Rabs k * np_sum (np_abs l).
Proof.
  induction l as [|x l IH]; [simpl; lra|].
  change (np_sum (np_abs (map (Rmult k) (x :: l))))
    with (Rabs (k * x) + np_sum (np_abs (map (Rmult k) l))).
  change (np_sum (np_abs (x :: l))) with (Rabs x + np_sum (np_abs l)).
  rewrite IH, Rabs_mult. lra.
Qed.

Lemma np_sum_square_scale (k : R) l :
  np_sum (np_square (map (Rmult k) l)) = Rsqr k * np_sum (np_square l).
Proof.
  induction l as [|x l IH]; [simpl; unfold Rsqr; lra|].
  change (np_sum (np_square (map (Rmult k) (x :: l))))
    with (k * x * (k * x) + np_sum (np_square (map (Rmult k) l))).
  change (np_sum (np_square (x :: l))) with (x * x + np_sum (np_square l)).
  rewrite IH. unfold Rsqr. lra.
Qed.

(** The waveform length of a window is at least the distance between its
    first and last sample, does not change when a constant is added to
    the window and is multiplied by [|k|] when the window is multiplied by
    [k]; the RMS of the window is a finite non-negative number that is
    multiplied by [|k|] as well. Of an empty window the RMS is
    not-a-number. *)
Theorem rms_and_waveform_length (w : list R) (first lst c k : R) :
  head w = Some first -> last w = Some lst ->
  Rabs (lst - first) <= compute_wl w
  /\ compute_wl (map (fun v => v + c) w) = compute_wl w
  /\ compute_wl (map (Rmult k) w) = Rabs k * compute_wl w
  /\ (exists r, compute_rms w = Finite r /\ 0 <= r
                /\ compute_rms (map (Rmult k) w) = Finite (Rabs k * r))
  /\ compute_rms [] = NaN.
Proof.
  intros Hfirst Hlast. destruct w as [|x l]; [done|].
  injection Hfirst as <-. unfold compute_wl.
  split.
  { rewrite <- (np_sum_diff_telescopes l x lst Hlast). apply Rabs_np_sum. }
  split; [by rewrite np_diff_offset|].
  split; [by rewrite np_diff_scale, np_sum_abs_scale|].
  split; [|done].
  unfold compute_rms, np_square.
  change (map (Rmult k) (x :: l)) with (k * x :: map (Rmult k) l).
  rewrite !np_mean_map_cons.
  change (k * x :: map (Rmult k) l) with (map (Rmult k) (x :: l)).
  pose proof (np_sum_square_nonneg (x :: l)) as Hsq.
  pose proof (np_sum_square_scale k (x :: l)) as Hsc.
  unfold np_square in Hsq, Hsc. rewrite Hsc.
  pose proof (INR_length_pos x l) as Hn.
  assert (Hm : 0 <= np_sum (map (fun v => v * v) (x :: l)) / INR (length (x :: l))).
  { apply Rmult_le_pos; [done|]. left. by apply Rinv_0_lt_compat. }
  eexists. split; [by rewrite np_sqrt_nonneg|].
  split; [apply sqrt_pos|].
  rewrite length_map. rewrite np_sqrt_nonneg.
  - f_equal. unfold Rdiv. rewrite Rmult_assoc, sqrt_mult; [|apply Rle_0_sqr|done].
    by rewrite sqrt_Rsqr_abs.
  - unfold Rdiv. rewrite Rmult_assoc. apply Rmult_le_pos; [apply Rle_0_sqr|done].
Qed.

End RmsFacts.

Section RmsFactsInstance.

Import Emg.
Local Open Scope R_scope.

Lemma rms_and_waveform_length_witness :
  Rabs (2 - 1) <= compute_wl [1; 3; 2]
  /\ compute_wl (map (fun v => v + 10) [1; 3; 2]) = compute_wl [1; 3; 2]
  /\ compute_wl (map (Rmult (-2)) [1; 3; 2]) = Rabs (-2) * compute_wl [1; 3; 2]
  /\ (exists r, compute_rms [1; 3; 2] = Finite r /\ 0 <= r
                /\ compute_rms (map (Rmult (-2)) [1; 3; 2]) = Finite (Rabs (-2) * r))
  /\ compute_rms [] = NaN.
Proof.
  apply (rms_and_waveform_length [1; 3; 2] 1 2 10 (-2)); reflexivity.
Defined.

End RmsFactsInstance.

Section CalculateRms.

Import Emg Windowing.
Local Open Scope R_scope.

Lemma sliding_window_nonoverlapping {F} (data : ndarray2 F) (window_size : Z) :
  (1 <= window_size)%Z ->
  sliding_window data window_size window_size
  = Ok (map (fun i => slice_cols data (Some (Z.of_nat i * window_size)%Z)
                        (Some (Z.of_nat i * window_size + window_size)%Z))
            (seq 0 (Z.to_nat (Z.of_nat (ncols data) / window_size)))).
Proof.
  intros Hw. set (N := ncols data).
  unfold sliding_window, window_starts, shape. fold N.
  rewrite range_multiples by done. simpl. rewrite foldl_snoc_map. simpl.
  rewrite List.map_map. do 3 f_equal.
  destruct (Z.ltb_spec 0 (Z.of_nat N - window_size + 1)).
  - replace (Z.of_nat N - window_size + 1 - 1)%Z
      with (Z.of_nat N + (-1) * window_size)%Z by lia.
    rewrite Z.div_add by lia. lia.
  - rewrite Z.div_small by lia. done.
Qed.

(** [calculate_rms] raises [ZeroDivisionError] for a window size of 0 and
    [ValueError] for a negative one (on a block that has samples). For a
    window size of at least 1 it returns an array of
    [num_samples // window_size] values per channel, and the value of
    channel [ch] and window [i] is the RMS of channel [ch] of the [i]-th
    window that [sliding_window] cuts with a step equal to the window
    size. *)
Theorem calculate_rms_windows (data : ndarray2 R) (window_size : Z) :
  calculate_rms data 0 = Raise ZeroDivisionError
  /\ ((window_size < 0)%Z -> (0 < ncols data)%nat ->
      calculate_rms data window_size = Raise ValueError)
  /\ ((1 <= window_size)%Z ->
      exists rms windows,
        calculate_rms data window_size = Ok rms
        /\ sliding_window data window_size window_size = Ok windows
        /\ shape rms = (length (rows data),
                        Z.to_nat (Z.of_nat (ncols data) / window_size))
        /\ rectangular rms
        /\ length windows = ncols rms
        /\ forall (ch i : nat) w,
             (ch < length (rows data))%nat -> windows !! i = Some w ->
             exists row v,
               rows w !! ch = Some row
               /\ rows rms !! ch ≫= (fun r => r !! i) = Some v
               /\ v = compute_rms row).
Proof.
  split; [done|]. split.
  - intros Hw HN. unfold calculate_rms, shape, floordiv.
    destruct (Z.eqb_spec window_size 0); [lia|]. simpl.
    assert (Hq : (Z.of_nat (ncols data) / window_size < 0)%Z).
    { pose proof (Z.mod_neg_bound (Z.of_nat (ncols data)) window_size ltac:(lia)).
      pose proof (Z.div_mod (Z.of_nat (ncols data)) window_size ltac:(lia)).
      nia. }
    destruct (Z.ltb_spec (Z.of_nat (ncols data) / window_size) 0); [done|lia].
  - intros Hw. unfold calculate_rms, shape, floordiv.
    destruct (Z.eqb_spec window_size 0); [lia|]. simpl.
    assert (Hq : (0 <= Z.of_nat (ncols data) / window_size)%Z)
      by (apply Z.div_pos; lia).
    destruct (Z.ltb_spec (Z.of_nat (ncols data) / window_size) 0); [lia|].
    rewrite sliding_window_nonoverlapping by done.
    set (nw := Z.to_nat (Z.of_nat (ncols data) / window_size)).
    eexists _, _. split; [reflexivity|]. split; [reflexivity|].
    split; [unfold shape; simpl; by rewrite length_map|].
    split.
    { unfold rectangular. simpl. apply List.Forall_map, List.Forall_forall.
      intros row _. by rewrite length_map, length_seq. }
    split; [simpl; by rewrite length_map, length_seq|].
    intros ch i w Hch Hi.
    apply lookup_lt_is_Some_2 in Hch as [row Hrow].
    rewrite list_lookup_fmap in Hi.
    destruct (seq 0 nw !! i) as [i'|] eqn:Ei; [|done].
    apply lookup_seq in Ei as [-> Hlt]. simpl in Hi. injection Hi as <-.
    eexists _, _. unfold slice_cols. cbn [rows].
    rewrite !list_lookup_fmap, Hrow. cbn [fmap option_fmap option_map mbind option_bind].
    split; [reflexivity|].
    rewrite list_lookup_fmap, lookup_seq_lt by done.
    cbn [fmap option_fmap option_map]. split; [reflexivity|].
    unfold compute_rms. simpl.
    replace ((Z.of_nat i + 1) * window_size)%Z
      with (Z.of_nat i * window_size + window_size)%Z by lia.
    done.
Qed.

End CalculateRms.

Section OldCalculateRms.

Import Emg Windowing.
Local Open Scope R_scope.

Lemma slice_map {A B} (f : A -> B) (l : list A) (lo hi : option Z) :
  Py.slice (map f l) lo hi = map f (Py.slice l lo hi).
Proof.
  unfold Py.slice. rewrite length_map.
  by rewrite <- fmap_drop, <- fmap_take.
Qed.

Lemma slice_of_prefix {A} (l : list A) (K a b : nat) :
  (a <= b)%nat -> (b <= K)%nat -> (K <= length l)%nat ->
  Py.slice (Py.slice l None (Some (Z.of_nat K)))
           (Some (Z.of_nat a)) (Some (Z.of_nat b))
  = Py.slice l (Some (Z.of_nat a)) (Some (Z.of_nat b)).
Proof.
  intros Hab Hb HK. rewrite slice_to by done.
  rewrite !slice_between by (rewrite ?length_take; lia).
  rewrite (take_drop_commute l), (take_drop_commute (take K l)).
  rewrite take_take. do 2 f_equal. lia.
Qed.

(** [old_calculate_rms] never returns for a window size of 0
    ([ZeroDivisionError]) or below ([ValueError]); for a window size of at
    least 1 it raises [ValueError] exactly when the data has fewer samples
    than the window, so its second check (no window at all) never fires.
    When it returns, the result has [num_samples // window_size] rows and
    one column per channel, and it is the transpose of what
    [calculate_rms] gives on the transposed data. *)
Theorem old_calculate_rms_agrees (data : ndarray2 R) (window_size : Z) :
  old_calculate_rms data 0 = Raise ZeroDivisionError
  /\ ((window_size < 0)%Z -> old_calculate_rms data window_size = Raise ValueError)
  /\ ((1 <= window_size)%Z -> (Z.of_nat (length (rows data)) < window_size)%Z ->
      old_calculate_rms data window_size = Raise ValueError)
  /\ ((1 <= window_size)%Z -> (window_size <= Z.of_nat (length (rows data)))%Z ->
      let n_windows := Z.to_nat (Z.of_nat (length (rows data)) / window_size) in
      exists entry : nat -> nat -> npfloat,
        (1 <= n_windows)%nat
        /\ old_calculate_rms data window_size
           = Ok (mk_ndarray2
                   (map (fun w => map (fun c => entry w c) (seq 0 (ncols data)))
                        (seq 0 n_windows))
                   (ncols data))
        /\ calculate_rms (transpose data) window_size
           = Ok (mk_ndarray2
                   (map (fun c => map (fun w => entry w c) (seq 0 n_windows))
                        (seq 0 (ncols data)))
                   n_windows)).
Proof.
  set (N := length (rows data)).
  split; [|split; [|split]].
  - unfold old_calculate_rms, floordiv. fold N.
    destruct (Z.ltb_spec (Z.of_nat N) 0); [lia|]. done.
  - intros Hw. unfold old_calculate_rms, floordiv. fold N.
    destruct (Z.ltb_spec (Z.of_nat N) window_size); [lia|].
    destruct (Z.eqb_spec window_size 0); [lia|]. simpl.
    destruct (Z.eqb_spec (Z.of_nat N / window_size) 0); [done|].
    destruct (Z.ltb_spec (Z.of_nat N / window_size) 0); [done|].
    exfalso.
    pose proof (Z.mod_neg_bound (Z.of_nat N) window_size ltac:(lia)).
    pose proof (Z.div_mod (Z.of_nat N) window_size ltac:(lia)). nia.
  - intros Hw HN. unfold old_calculate_rms. fold N.
    destruct (Z.ltb_spec (Z.of_nat N) window_size); [done|lia].
  - intros Hw HN n_windows.
    assert (Hq : (1 <= Z.of_nat N / window_size)%Z).
    { apply Z.div_le_lower_bound; lia. }
    assert (HqN : (Z.of_nat N / window_size * window_size <= Z.of_nat N)%Z).
    { rewrite Z.mul_comm. apply Z.mul_div_le. lia. }
    exists (fun w c =>
              np_sqrt (np_mean (np_square
                (map (fun r => nth c r 0)
                     (Py.slice (rows data) (Some (Z.of_nat w * window_size)%Z)
                               (Some ((Z.of_nat w + 1) * window_size)%Z)))))).
    split; [unfold n_windows; lia|]. split.
    + unfold old_calculate_rms, floordiv. fold N.
      destruct (Z.ltb_spec (Z.of_nat N) window_size); [lia|].
      destruct (Z.eqb_spec window_size 0); [lia|]. simpl.
      destruct (Z.eqb_spec (Z.of_nat N / window_size) 0); [lia|].
      destruct (Z.ltb_spec (Z.of_nat N / window_size) 0); [lia|].
      do 2 f_equal. fold n_windows.
      apply map_ext_in. intros w Hin. apply in_seq in Hin.
      apply map_ext. intros c. do 4 f_equal.
      replace (Z.of_nat N / window_size * window_size)%Z
        with (Z.of_nat (n_windows * Z.to_nat window_size)) by lia.
      replace (Z.of_nat w * window_size)%Z
        with (Z.of_nat (w * Z.to_nat window_size)) by lia.
      replace ((Z.of_nat w + 1) * window_size)%Z
        with (Z.of_nat ((w + 1) * Z.to_nat window_size)) by lia.
      apply slice_of_prefix; unfold n_windows in *; fold N; nia.
    + unfold calculate_rms, shape, transpose, floordiv. cbn [rows ncols].
      fold N. destruct (Z.eqb_spec window_size 0); [lia|]. simpl.
      destruct (Z.ltb_spec (Z.of_nat N / window_size) 0); [lia|].
      fold n_windows. do 2 f_equal. rewrite List.map_map.
      apply map_ext. intros c. apply map_ext. intros w.
      by rewrite slice_map.
Qed.

End OldCalculateRms.

Section RmsInstances.

Import Emg Windowing.
Local Open Scope R_scope.

Lemma calculate_rms_windows_witness :
  exists rms windows,
    calculate_rms (mk_ndarray2 [[3; 4; 0; 0; 5]] 5) 2 = Ok rms
    /\ sliding_window (mk_ndarray2 [[3; 4; 0; 0; 5]] 5) 2 2 = Ok windows
    /\ shape rms = (1%nat, 2%nat)
    /\ rectangular rms
    /\ length windows = ncols rms
    /\ forall (ch i : nat) w,
         (ch < 1)%nat -> windows !! i = Some w ->
         exists row v,
           rows w !! ch = Some row
           /\ rows rms !! ch ≫= (fun r => r !! i) = Some v
           /\ v = compute_rms row.
Proof.
  pose proof (calculate_rms_windows (mk_ndarray2 [[3; 4; 0; 0; 5]] 5) 2)
    as (_ & _ & H).
  apply H. lia.
Defined.

Lemma old_calculate_rms_agrees_witness :
  exists entry : nat -> nat -> npfloat,
    (1 <= 2)%nat
    /\ old_calculate_rms (mk_ndarray2 [[3; 1]; [4; 1]; [0; 2]; [0; 2]; [5; 7]] 2) 2
       = Ok (mk_ndarray2 [[entry 0 0; entry 0 1]; [entry 1 0; entry 1 1]]%nat 2)
    /\ calculate_rms
         (transpose (mk_ndarray2 [[3; 1]; [4; 1]; [0; 2]; [0; 2]; [5; 7]] 2)) 2
       = Ok (mk_ndarray2 [[entry 0 0; entry 1 0]; [entry 0 1; entry 1 1]]%nat 2).
Proof.
  pose proof (old_calculate_rms_agrees
                (mk_ndarray2 [[3; 1]; [4; 1]; [0; 2]; [0; 2]; [5; 7]] 2) 2)
    as (_ & _ & _ & H).
  apply H; simpl; lia.
Defined.

End RmsInstances.

Section WindowRms.

Import Emg.
Local Open Scope R_scope.

Lemma add_pad_length l k :
  length (add_pad l k) = Nat.max (length l) (length k).
Proof.
  revert k. induction l as [|x l IH]; intros [|y k]; simpl; try done.
  by rewrite IH.
Qed.

Lemma add_pad_nonneg l k :
  Forall (fun x => 0 <= x) l -> Forall (fun x => 0 <= x) k ->
  Forall (fun x => 0 <= x) (add_pad l k).
Proof.
  intros Hl. revert k. induction Hl as [|x l Hx Hl IH]; intros k Hk; [done|].
  destruct Hk as [|y k Hy Hk]; simpl.
  - by apply Forall_cons_2.
  - apply Forall_cons_2; [lra|by apply IH].
Qed.

Lemma conv_full_length a v :
  a <> [] -> v <> [] ->
  length (conv_full a v) = (length a + length v - 1)%nat.
Proof.
  intros Ha Hv. induction a as [|x a IH]; [done|].
  assert (1 <= length v)%nat by (destruct v; simpl; [done|lia]).
  simpl. rewrite add_pad_length, length_map. simpl.
  destruct a as [|y a]; [simpl; lia|].
  rewrite IH by done. simpl. lia.
Qed.

Lemma conv_full_nonneg a v :
  Forall (fun x => 0 <= x) a -> Forall (fun x => 0 <= x) v ->
  Forall (fun x => 0 <= x) (conv_full a v).
Proof.
  intros Ha Hv. induction Ha as [|x a Hx Ha IH]; simpl; [done|].
  apply add_pad_nonneg.
  - apply List.Forall_map. eapply Forall_impl; [exact Hv|].
    intros y Hy. simpl in *. by apply Rmult_le_pos.
  - apply Forall_cons_2; [lra|done].
Qed.

Lemma np_square_nonneg l : Forall (fun x => 0 <= x) (np_square l).
Proof.
  apply List.Forall_map, List.Forall_forall. intros x _. nra.
Qed.

Lemma half_le (m : nat) : ((m - 1) / 2 <= m - 1)%nat.
Proof. apply Nat.Div0.div_le_upper_bound. lia. Qed.

(** One channel: a result of the length of the signal for
    [1 <= window_size <= length], [ValueError] or a result of another
    length otherwise. *)
Lemma window_rms_1D_ok (signal : list R) (window_size : Z) :
  (1 <= window_size <= Z.of_nat (length signal))%Z ->
  exists r,
    window_rms_1D signal window_size = Ok r
    /\ length r = length signal
    /\ Forall (fun e => exists x, e = Finite x /\ 0 <= x) r.
Proof.
  intros Hw. unfold window_rms_1D, np_convolve_same.
  destruct (Z.ltb_spec window_size 0); [lia|].
  set (kernel := replicate (Z.to_nat window_size) (1 / IZR window_size)).
  assert (Hk : length kernel = Z.to_nat window_size)
    by (unfold kernel; apply length_replicate).
  assert (Hs : length (np_square signal) = length signal)
    by (unfold np_square; apply length_map).
  destruct (Nat.ltb_spec (length (np_square signal)) (length kernel)); [lia|].
  destruct (np_square signal) as [|s0 sq] eqn:Esq; [simpl in *; lia|].
  destruct kernel as [|k0 ker] eqn:Eker; [simpl in *; lia|].
  cbn [mbind result_bind]. eexists. split; [reflexivity|].
  assert (Hpos : Forall (fun x => 0 <= x) (conv_full (s0 :: sq) (k0 :: ker))).
  { apply conv_full_nonneg.
    - rewrite <- Esq. apply np_square_nonneg.
    - rewrite <- Eker. apply Forall_replicate.
      apply Rmult_le_pos; [lra|]. left. apply Rinv_0_lt_compat.
      apply IZR_lt. lia. }
  split.
  - rewrite length_map, length_take, length_drop, conv_full_length by done.
    pose proof (half_le (length (k0 :: ker))). lia.
  - apply List.Forall_map. apply Forall_take, Forall_drop.
    eapply Forall_impl; [exact Hpos|]. intros x Hx. simpl in *.
    exists (sqrt x). split; [by apply np_sqrt_nonneg|apply sqrt_pos].
Qed.

Lemma window_rms_1D_bad (signal : list R) (window_size : Z) :
  (window_size <= 0 \/ Z.of_nat (length signal) < window_size)%Z ->
  (r ← window_rms_1D signal window_size; broadcast_row (length signal) r)
  = Raise ValueError.
Proof.
  intros Hw. unfold window_rms_1D, np_convolve_same.
  destruct (Z.ltb_spec window_size 0); [done|].
  set (kernel := replicate (Z.to_nat window_size) (1 / IZR window_size)).
  assert (Hk : length kernel = Z.to_nat window_size)
    by (unfold kernel; apply length_replicate).
  assert (Hs : length (np_square signal) = length signal)
    by (unfold np_square; apply length_map).
  destruct (Nat.ltb_spec (length (np_square signal)) (length kernel)).
  - destruct kernel as [|k0 ker] eqn:Eker; [simpl in *; lia|].
    destruct (np_square signal) as [|s0 sq] eqn:Esq; [done|].
    cbn [mbind result_bind]. unfold broadcast_row.
    rewrite length_map, length_take, length_drop, conv_full_length by done.
    pose proof (half_le (length (s0 :: sq))) as Hh.
    set (m := ((length (s0 :: sq) - 1) / 2)%nat) in *. clearbody m.
    rewrite decide_False by (rewrite !length_cons in *; lia).
    set (c := take _ _).
    assert (Hc : (2 <= length c)%nat).
    { unfold c. rewrite length_take, length_drop, conv_full_length by done.
      rewrite !length_cons in *. lia. }
    destruct c as [|c0 [|c1 c]]; simpl in Hc; try lia. done.
  - assert (window_size = 0)%Z as -> by lia. simpl in *.
    destruct (np_square signal); done.
Qed.

Lemma window_rms_loop (rs : list (list R)) (N : nat) (window_size : Z) :
  forall acc,
  (1 <= window_size <= Z.of_nat N)%Z ->
  Forall (fun r => length r = N) rs ->
  Forall (fun r => length r = N
                   /\ Forall (fun e => exists x, e = Finite x /\ 0 <= x) r) acc ->
  exists out,
    for_ rs
         (fun rms_data row =>
            r ← window_rms_1D row window_size;
            r' ← broadcast_row N r;
            Ok (rms_data ++ [r']))
         acc = Ok out
    /\ length out = (length acc + length rs)%nat
    /\ Forall (fun r => length r = N
                        /\ Forall (fun e => exists x, e = Finite x /\ 0 <= x) r) out.
Proof.
  induction rs as [|row rs IH]; intros acc Hw Hrs Hacc; simpl.
  - exists acc. split; [done|]. split; [lia|done].
  - apply Forall_cons in Hrs as [Hrow Hrs].
    destruct (window_rms_1D_ok row window_size) as (r & -> & Hlen & Hr); [lia|].
    cbn [mbind result_bind]. unfold broadcast_row.
    rewrite decide_True by lia. cbn [mbind result_bind].
    destruct (IH (acc ++ [r]) Hw Hrs) as (out & E & Hl & Ho).
    { apply Forall_app. split; [done|]. apply Forall_cons_2; [|done].
      split; [lia|done]. }
    exists out. split; [exact E|]. split; [|done].
    rewrite length_app in Hl. simpl in Hl. lia.
Qed.

(** [window_rms] returns an array of the shape of its input, with finite
    non-negative entries, when the window size is between 1 and the number
    of samples. For a block with at least one channel it raises
    [ValueError] for every other window size: zero or negative, or larger
    than the number of samples. *)
Theorem window_rms_shape (emg_data : ndarray2 R) (window_size : Z) :
  rectangular emg_data ->
  ((1 <= window_size <= Z.of_nat (ncols emg_data))%Z ->
   exists rms_data,
     window_rms emg_data window_size = Ok rms_data
     /\ shape rms_data = shape emg_data
     /\ rectangular rms_data
     /\ Forall (Forall (fun e => exists x, e = Finite x /\ 0 <= x))
               (rows rms_data))
  /\ (rows emg_data <> [] ->
      (window_size <= 0 \/ Z.of_nat (ncols emg_data) < window_size)%Z ->
      window_rms emg_data window_size = Raise ValueError).
Proof.
  intros Hrect. unfold window_rms, shape. split.
  - intros Hw.
    destruct (window_rms_loop (rows emg_data) (ncols emg_data) window_size []
                Hw Hrect (Forall_nil_2 _)) as (out & E & Hl & Ho).
    rewrite E. cbn [mbind result_bind]. eexists. split; [reflexivity|].
    simpl in Hl. split; [simpl; by rewrite Hl|].
    split.
    + unfold rectangular. simpl. eapply Forall_impl; [exact Ho|].
      intros r Hr. simpl in *. tauto.
    + simpl. eapply Forall_impl; [exact Ho|]. intros r Hr. simpl in *. tauto.
  - intros Hne Hw. unfold rectangular in Hrect.
    destruct (rows emg_data) as [|row rs] eqn:Er; [done|].
    apply Forall_cons in Hrect as [Hrow _]. simpl.
    pose proof (window_rms_1D_bad row window_size) as Hbad.
    rewrite Hrow in Hbad. specialize (Hbad Hw).
    destruct (window_rms_1D row window_size) as [r|e]; simpl in *.
    + by rewrite Hbad.
    + by injection Hbad as ->.
Qed.

End WindowRms.

Section WindowRmsInstance.

Import Emg.
Local Open Scope R_scope.

Lemma window_rms_shape_witness :
  (exists rms_data,
     window_rms (mk_ndarray2 [[1; 2; 3]; [4; 5; 6]] 3) 2 = Ok rms_data
     /\ shape rms_data = (2%nat, 3%nat)
     /\ rectangular rms_data
     /\ Forall (Forall (fun e => exists x, e = Finite x /\ 0 <= x))
               (rows rms_data))
  /\ window_rms (mk_ndarray2 [[1; 2; 3]; [4; 5; 6]] 3) 4 = Raise ValueError.
Proof.
  destruct (window_rms_shape (mk_ndarray2 [[1; 2; 3]; [4; 5; 6]] 3) 2)
    as [H2 _]; [repeat constructor|].
  destruct (window_rms_shape (mk_ndarray2 [[1; 2; 3]; [4; 5; 6]] 3) 4)
    as [_ H4]; [repeat constructor|].
  split.
  - apply H2. simpl. lia.
  - apply H4; [discriminate|right; simpl; lia].
Defined.

End WindowRmsInstance.

(** ** The configuration file *)

Section ConfigFacts.

Import Config.
Context {char : Type} `{Countable char}.
Variable isspace : char -> bool.
Variables eq_sign hash : char.

Abbreviation lstrip := (lstrip isspace).
Abbreviation rstrip := (rstrip isspace).
Abbreviation strip := (strip isspace).
Abbreviation read_line := (read_line isspace eq_sign hash).
Abbreviation read_config_file := (read_config_file isspace eq_sign hash).
Abbreviation skipped := (skipped isspace hash).
Abbreviation has_entry := (has_entry isspace eq_sign).
Abbreviation stripped := (stripped isspace).
Abbreviation split_once := (split_once eq_sign).
Abbreviation all_space := (Forall (fun c => isspace c = true)).

Lemma lstrip_split (s : list char) :
  exists ws, all_space ws /\ s = ws ++ lstrip s.
Proof.
  induction s as [|c s (ws & Hws & E)]; [by exists []|]. simpl.
  destruct (isspace c) eqn:Ec; [|by exists []].
  exists (c :: ws). split; [by apply Forall_cons_2|]. simpl. by rewrite <- E.
Qed.

Lemma lstrip_head (s : list char) c :
  head (lstrip s) = Some c -> isspace c = false.
Proof.
  induction s as [|d s IH]; simpl; [done|].
  destruct (isspace d) eqn:Ed; [done|]. simpl. by intros [= <-].
Qed.

Lemma lstrip_spaces (ws s : list char) :
  all_space ws -> lstrip (ws ++ s) = lstrip s.
Proof. induction 1 as [|c ws Hc _ IH]; simpl; [done|]. by rewrite Hc. Qed.

Lemma lstrip_id (s : list char) :
  (forall c, head s = Some c -> isspace c = false) -> lstrip s = s.
Proof. destruct s as [|c s]; simpl; [done|]. intros Hc. by rewrite Hc. Qed.

Lemma rstrip_split (s : list char) :
  exists ws, all_space ws /\ s = rstrip s ++ ws.
Proof.
  destruct (lstrip_split (reverse s)) as (ws & Hws & E).
  exists (reverse ws). split; [by apply Forall_reverse|].
  unfold Config.rstrip. rewrite <- reverse_app, <- E. by rewrite reverse_involutive.
Qed.

Lemma rstrip_last (s : list char) c :
  last (rstrip s) = Some c -> isspace c = false.
Proof. unfold Config.rstrip. rewrite last_reverse. apply lstrip_head. Qed.

Lemma rstrip_spaces (s ws : list char) :
  all_space ws -> rstrip (s ++ ws) = rstrip s.
Proof.
  intros Hws. unfold Config.rstrip. rewrite reverse_app, lstrip_spaces; [done|].
  by apply Forall_reverse.
Qed.

Lemma rstrip_id (s : list char) :
  (forall c, last s = Some c -> isspace c = false) -> rstrip s = s.
Proof.
  intros Hc. unfold Config.rstrip. rewrite lstrip_id.
  - apply reverse_involutive.
  - intros c. rewrite head_reverse. apply Hc.
Qed.

Lemma strip_stripped (s : list char) : stripped (strip s).
Proof.
  unfold Config.strip. split; [|apply rstrip_last].
  intros c Hc. destruct (rstrip_split (lstrip s)) as (ws & _ & E).
  apply (lstrip_head s). rewrite E.
  destruct (rstrip (lstrip s)); [done|]. exact Hc.
Qed.

Lemma strip_id (s : list char) : stripped s -> strip s = s.
Proof.
  intros [Hh Hl]. unfold Config.strip. rewrite lstrip_id by done. by apply rstrip_id.
Qed.

Lemma lstrip_all_space (ws : list char) : all_space ws -> lstrip ws = [].
Proof. induction 1 as [|c ws Hc _ IH]; simpl; [done|]. by rewrite Hc. Qed.

Lemma strip_padded (ws1 s ws2 : list char) :
  all_space ws1 -> all_space ws2 -> stripped s ->
  strip (ws1 ++ s ++ ws2) = s.
Proof.
  intros H1 H2 [Hh Hl]. unfold Config.strip. rewrite lstrip_spaces by done.
  destruct s as [|c s].
  - simpl. rewrite lstrip_all_space by done. done.
  - rewrite lstrip_id by (simpl; intros d [= <-]; by apply Hh).
    rewrite rstrip_spaces by done. by apply rstrip_id.
Qed.

Lemma split_once_spec (line : list char) :
  match split_once line with
  | Some (key, value) => line = key ++ eq_sign :: value /\ (eq_sign ∉ key)
  | None => eq_sign ∉ line
  end.
Proof.
  induction line as [|c line IH]; simpl; [apply not_elem_of_nil|].
  destruct (decide (c = eq_sign)) as [->|Hne].
  - split; [done|apply not_elem_of_nil].
  - destruct (split_once line) as [[key value]|].
    + destruct IH as [-> Hk]. split; [done|].
      by apply not_elem_of_cons.
    + by apply not_elem_of_cons.
Qed.

Lemma split_once_first (key value : list char) :
  eq_sign ∉ key -> split_once (key ++ eq_sign :: value) = Some (key, value).
Proof.
  induction key as [|c key IH]; simpl; intros Hk.
  - by rewrite decide_True.
  - apply not_elem_of_cons in Hk as [Hc Hk].
    rewrite decide_False by done. by rewrite IH.
Qed.

Lemma for_app {A S} (xs ys : list A) (body : S -> A -> result S) (s : S) :
  Emg.for_ (xs ++ ys) body s = Emg.for_ xs body s ≫= Emg.for_ ys body.
Proof.
  revert s. induction xs as [|x xs IH]; intros s; simpl; [done|].
  destruct (body s x); simpl; [apply IH|done].
Qed.

Lemma read_line_cases (cfg : gmap (list char) (list char)) (line : list char) :
  (skipped line /\ read_line cfg line = Ok cfg)
  \/ (~ skipped line /\ ~ has_entry line /\ read_line cfg line = Raise ValueError)
  \/ (~ skipped line /\ has_entry line
      /\ exists key value,
           strip line = key ++ eq_sign :: value /\ (eq_sign ∉ key)
           /\ read_line cfg line = Ok (<[strip key := strip value]> cfg)).
Proof.
  unfold Config.read_line, Config.skipped, Config.has_entry.
  destruct (decide (strip line = [])) as [E|E].
  { left. split; [by left|]. by rewrite bool_decide_eq_true_2. }
  rewrite (bool_decide_eq_false_2 _ E). simpl.
  destruct (startswith_hash hash (strip line)) eqn:Eh.
  { left. split; [by right|done]. }
  right. pose proof (split_once_spec (strip line)) as Hs.
  destruct (split_once (strip line)) as [[key value]|].
  - right. destruct Hs as [Hl Hk]. split; [intros [?|?]; congruence|].
    split; [rewrite Hl; apply elem_of_app; right; left|].
    by exists key, value.
  - left. split; [intros [?|?]; congruence|]. done.
Qed.

Lemma strip_subset (s : list char) c : c ∈ strip s -> c ∈ s.
Proof.
  intros Hc. destruct (lstrip_split s) as (ws1 & _ & E1).
  destruct (rstrip_split (lstrip s)) as (ws2 & _ & E2).
  rewrite E1, E2. apply elem_of_app. right. apply elem_of_app. by left.
Qed.

(** [read_config_file] returns a dictionary exactly when every line that
    is not blank and not a comment contains an '='; a single line without
    one makes it raise [ValueError]. Blank lines and comment lines do not
    change the result. *)
Theorem read_config_file_errors (lines : list (list char)) :
  (Forall (fun line => skipped line \/ has_entry line) lines ->
   exists cfg, read_config_file lines = Ok cfg)
  /\ (Exists (fun line => ~ skipped line /\ ~ has_entry line) lines ->
      read_config_file lines = Raise ValueError)
  /\ read_config_file
       (filter (fun line => ~ (strip line = []
                               \/ startswith_hash hash (strip line) = true))
               lines)
     = read_config_file lines.
Proof.
  unfold Config.read_config_file. generalize (∅ : gmap (list char) (list char)).
  induction lines as [|line lines IH]; intros cfg.
  { split; [eauto|]. split; [|done]. intros Hex. by apply Exists_nil in Hex. }
  destruct (read_line_cases cfg line)
    as [[Hs E]|[(Hs & He & E)|(Hs & He & key & value & _ & _ & E)]].
  - rewrite filter_cons_False by (intros Hn; by apply Hn).
    simpl. fold (read_line cfg line). rewrite E. simpl.
    destruct (IH cfg) as (IH1 & IH2 & IH3).
    split; [|split; [|done]].
    + intros Hall. apply Forall_cons in Hall as [_ Hall]. by apply IH1.
    + intros Hex. apply Exists_cons in Hex as [[Hn _]|Hex]; [done|by apply IH2].
  - rewrite filter_cons_True by done.
    simpl. fold (read_line cfg line). rewrite E. simpl.
    split; [|done]. intros Hall. apply Forall_cons in Hall as [[?|?] _]; done.
  - rewrite filter_cons_True by done.
    simpl. fold (read_line cfg line). rewrite E. simpl.
    destruct (IH (<[strip key := strip value]> cfg)) as (IH1 & IH2 & IH3).
    split; [|split; [|done]].
    + intros Hall. apply Forall_cons in Hall as [_ Hall]. by apply IH1.
    + intros Hex. apply Exists_cons in Hex as [[_ Hn]|Hex]; [done|by apply IH2].
Qed.

(** In the dictionary [read_config_file] returns, no key and no value has
    white space at either end, and no key contains an '='. *)
Theorem read_config_file_entries_stripped (lines : list (list char))
    (cfg : gmap (list char) (list char)) :
  read_config_file lines = Ok cfg ->
  map_Forall (fun key value => stripped key /\ stripped value /\ (eq_sign ∉ key)) cfg.
Proof.
  unfold Config.read_config_file.
  assert (Hempty : map_Forall
            (fun key value => stripped key /\ stripped value /\ (eq_sign ∉ key))
            (∅ : gmap (list char) (list char))) by apply map_Forall_empty.
  revert Hempty. generalize (∅ : gmap (list char) (list char)).
  induction lines as [|line lines IH]; intros cfg0 H0; simpl.
  - by intros [= <-].
  - fold (read_line cfg0 line).
    destruct (read_line_cases cfg0 line)
      as [[Hs E]|[(Hs & He & E)|(Hs & He & key & value & _ & Hk & E)]];
      rewrite E; simpl; [by apply IH|done|].
    apply IH. apply map_Forall_insert_2; [|done].
    split; [apply strip_stripped|]. split; [apply strip_stripped|].
    intros Hin. by apply Hk, strip_subset.
Qed.

Lemma read_entry_line (cfg : gmap (list char) (list char))
    (ws1 key ws2 ws3 value ws4 : list char) :
  all_space ws1 -> all_space ws2 -> all_space ws3 -> all_space ws4 ->
  isspace eq_sign = false ->
  key <> [] -> stripped key -> stripped value ->
  eq_sign ∉ key -> head key <> Some hash ->
  read_line cfg (entry_line eq_sign ws1 key ws2 ws3 value ws4)
  = Ok (<[key := value]> cfg).
Proof.
  intros H1 H2 H3 H4 Heq Hk [Hkh Hkl] [Hvh Hvl] Hnk Hhash.
  destruct key as [|k0 key]; [done|].
  assert (Hbody : forall tl, (forall c, last ((k0 :: key) ++ ws2 ++ [eq_sign] ++ tl) = Some c
                                        -> isspace c = false) ->
            stripped ((k0 :: key) ++ ws2 ++ [eq_sign] ++ tl)).
  { intros tl Hl. split; [|done]. simpl. intros c [= <-]. by apply Hkh. }
  assert (Hsplit : forall tl,
            split_once ((k0 :: key) ++ ws2 ++ [eq_sign] ++ tl)
            = Some ((k0 :: key) ++ ws2, tl)).
  { intros tl. rewrite app_assoc. apply split_once_first.
    apply not_elem_of_app. split; [done|]. intros Hin.
    rewrite List.Forall_forall in H2. apply list_elem_of_In in Hin.
    apply H2 in Hin. congruence. }
  assert (Hkey : strip ((k0 :: key) ++ ws2) = k0 :: key).
  { apply (strip_padded [] (k0 :: key) ws2); done. }
  unfold Config.read_line, Config.entry_line.
  assert (Hstrip : exists tl, strip (ws1 ++ (k0 :: key) ++ ws2 ++ [eq_sign]
                                       ++ ws3 ++ value ++ ws4)
                              = (k0 :: key) ++ ws2 ++ [eq_sign] ++ tl
                              /\ strip tl = value).
  { destruct value as [|v0 value].
    - exists []. split; [|done].
      replace (ws1 ++ (k0 :: key) ++ ws2 ++ [eq_sign] ++ ws3 ++ [] ++ ws4)
        with (ws1 ++ ((k0 :: key) ++ ws2 ++ [eq_sign] ++ []) ++ (ws3 ++ ws4))
        by (rewrite <- !app_assoc; done).
      apply strip_padded; [done|by apply Forall_app|].
      apply Hbody. intros c. rewrite !app_assoc, app_nil_r, last_snoc.
      by intros [= <-].
    - exists (ws3 ++ v0 :: value). split.
      + replace (ws1 ++ (k0 :: key) ++ ws2 ++ [eq_sign] ++ ws3 ++ (v0 :: value) ++ ws4)
          with (ws1 ++ ((k0 :: key) ++ ws2 ++ [eq_sign] ++ ws3 ++ v0 :: value) ++ ws4)
          by (rewrite <- !app_assoc; done).
        apply strip_padded; [done|done|].
        apply Hbody. intros c. rewrite !app_assoc, last_app_cons.
        rewrite last_cons. intros Hc. apply Hvl.
        rewrite last_cons. exact Hc.
      + pose proof (strip_padded ws3 (v0 :: value) [] H3 (Forall_nil_2 _)
                      (conj Hvh Hvl)) as Hx.
        by rewrite app_nil_r in Hx. }
  destruct Hstrip as (tl & -> & Htl).
  assert (Hsw : startswith_hash hash ((k0 :: key) ++ ws2 ++ [eq_sign] ++ tl) = false).
  { simpl. apply bool_decide_eq_false_2. intros ->. by apply Hhash. }
  rewrite bool_decide_eq_false_2 by done.
  rewrite Hsw, Hsplit, Hkey, Htl. done.
Qed.

Lemma foldl_insert_lookup (entries : list (list char * list char))
    (key : list char) :
  foldl (fun m e => <[fst e := snd e]> m) (∅ : gmap (list char) (list char)) entries
    !! key
  = snd <$> last (filter (fun e => fst e = key) entries).
Proof.
  induction entries as [|e entries IH] using rev_ind; [done|].
  rewrite foldl_app, filter_app. simpl.
  destruct (decide (fst e = key)) as [<-|Hne].
  - rewrite lookup_insert_eq, filter_cons_True by done.
    by rewrite filter_nil, last_snoc.
  - rewrite lookup_insert_ne, filter_cons_False by done.
    by rewrite filter_nil, app_nil_r.
Qed.

(** Round trip: a file of lines [key = value], with any white space
    around the key and the value, a key that is not empty, has no '=' and
    does not begin with '#', reads back as the dictionary of its entries;
    where a key occurs several times the last value wins. The value may be
    empty and may contain '='. *)
Theorem read_config_file_round_trip
    (ws1 ws2 ws3 ws4 : list char) (entries : list (list char * list char)) :
  all_space ws1 -> all_space ws2 -> all_space ws3 -> all_space ws4 ->
  isspace eq_sign = false ->
  Forall (fun e => fst e <> [] /\ stripped (fst e) /\ stripped (snd e)
                   /\ (eq_sign ∉ fst e) /\ head (fst e) <> Some hash) entries ->
  exists cfg,
    read_config_file
      (map (fun e => entry_line eq_sign ws1 (fst e) ws2 ws3 (snd e) ws4) entries)
    = Ok cfg
    /\ forall key,
         cfg !! key = snd <$> last (filter (fun e => fst e = key) entries).
Proof.
  intros H1 H2 H3 H4 Heq Hall.
  exists (foldl (fun m e => <[fst e := snd e]> m) ∅ entries).
  split; [|apply foldl_insert_lookup].
  unfold Config.read_config_file. generalize (∅ : gmap (list char) (list char)).
  induction Hall as [|e entries (Hk & Hsk & Hsv & Hnk & Hh) _ IH]; intros cfg;
    simpl; [done|].
  fold (read_line cfg (entry_line eq_sign ws1 (fst e) ws2 ws3 (snd e) ws4)).
  rewrite read_entry_line by done. simpl. apply IH.
Qed.

End ConfigFacts.

Section ConfigInstances.

Import Config Stdlib.Strings.Ascii.
Local Open Scope string_scope.

Lemma read_config_file_errors_witness :
  (exists cfg,
     read_config_file isspace_latin1 "="%char "#"%char
       [chars "# settings"; chars ""; chars "port = COM13"] = Ok cfg)
  /\ read_config_file isspace_latin1 "="%char "#"%char
       [chars "port = COM13"; chars "baudrate 115200"] = Raise ValueError.
Proof.
  destruct (read_config_file_errors isspace_latin1 "="%char "#"%char
              [chars "# settings"; chars ""; chars "port = COM13"])
    as (H1 & _ & _).
  destruct (read_config_file_errors isspace_latin1 "="%char "#"%char
              [chars "port = COM13"; chars "baudrate 115200"])
    as (_ & H2 & _).
  split.
  - apply H1. repeat apply Forall_cons_2; try apply Forall_nil_2.
    + left. right. reflexivity.
    + left. left. reflexivity.
    + right. unfold has_entry. vm_compute. do 5 right. left.
  - apply H2. apply Exists_cons_tl, Exists_cons_hd. split.
    + intros [E|E]; vm_compute in E; discriminate E.
    + unfold has_entry. vm_compute. intros Hin.
      repeat (apply elem_of_cons in Hin as [Hin|Hin]; [discriminate Hin|]).
      by apply elem_of_nil in Hin.
Defined.

Lemma read_config_file_entries_stripped_witness :
  map_Forall
    (fun key value =>
       stripped isspace_latin1 key /\ stripped isspace_latin1 value
       /\ ("="%char ∉ key))
    ({[ chars "port" := chars "COM13" ]} : gmap (list Ascii.ascii) (list Ascii.ascii)).
Proof.
  apply (read_config_file_entries_stripped isspace_latin1 "="%char "#"%char
           [chars "# settings"; chars "  port = COM13  "]).
  reflexivity.
Defined.

Lemma read_config_file_round_trip_witness :
  exists cfg,
    read_config_file isspace_latin1 "="%char "#"%char
      [chars "port = COM13"; chars "mode = a=b"; chars "port = COM7"] = Ok cfg
    /\ forall key,
         cfg !! key
         = snd <$> last (filter (fun e => fst e = key)
                           [(chars "port", chars "COM13");
                            (chars "mode", chars "a=b");
                            (chars "port", chars "COM7")]).
Proof.
  apply (read_config_file_round_trip isspace_latin1 "="%char "#"%char
           [] (chars " ") (chars " ") []
           [(chars "port", chars "COM13"); (chars "mode", chars "a=b");
            (chars "port", chars "COM7")]).
  - constructor.
  - repeat constructor.
  - repeat constructor.
  - constructor.
  - reflexivity.
  - repeat apply Forall_cons_2; try apply Forall_nil_2;
      (split; [discriminate|]);
      (split; [split; intros c [= <-]; reflexivity|]);
      (split; [split; intros c [= <-]; reflexivity|]);
      (split; [|discriminate]);
      intros Hin; vm_compute in Hin;
      repeat (apply elem_of_cons in Hin as [Hin|Hin]; [discriminate Hin|]);
      by apply elem_of_nil in Hin.
Defined.

End ConfigInstances.

Section MoreInstances.

Import PicoMessager Windowing Emg.
Local Open Scope string_scope.


Lemma sliding_window_degenerate_witness :
  sliding_window (mk_ndarray2 [[1; 2; 3]] 3) 5 0 = Raise ValueError
  /\ sliding_window (mk_ndarray2 [[1; 2; 3]] 3) 5 2 = Ok [].
Proof.
  pose proof (sliding_window_degenerate (mk_ndarray2 [[1; 2; 3]] 3) 5 2)
    as (H0 & H1 & _).
  split; [exact H0|]. apply H1; simpl; lia.
Defined.

Local Open Scope R_scope.

Lemma descriptor_relations_witness :
  exists ds iemg ssi mn mx,
    descriptors [3; -4] = Ok ds
    /\ ds !! 0%nat = Some (Finite iemg)
    /\ ds !! 1%nat = Some (Finite (iemg / INR 2))
    /\ ds !! 2%nat = Some (Finite ssi)
    /\ ds !! 3%nat = Some (Finite (sqrt (ssi / INR 2)))
    /\ ds !! 8%nat = Some (Finite (ssi / INR 2))
    /\ ds !! 10%nat = np_sqrt <$> ds !! 9%nat
    /\ ds !! 17%nat = Some (Finite mn)
    /\ ds !! 18%nat = Some (Finite mx)
    /\ 0 <= iemg /\ 0 <= ssi
    /\ Forall (fun c => mn <= c <= mx) [3; -4].
Proof.
  pose proof (descriptor_relations [3; -4]) as (_ & H).
  apply H. discriminate.
Defined.

End MoreInstances.
